(** * Cider Playlist Manager: the playlist cache and the modal that uses it

    A shallow embedding of [utils/cache.ts] (class [PlaylistCache]) and of the
    script of the playlist-manager modal, which reconciles the cache with the
    remote library ([loadPlaylists]) and applies the user's add/remove
    changes ([applyChanges]); then of what is around them: the modal
    without the cache, the settings page of the cache, and the entry point
    of the plugin that opens the modal for a song.

    Conventions of the embedding.
    - Times ([Date] values) are integers: milliseconds since the epoch.
    - [localStorage] is a record with one cell per key the program uses.  A
      cell holds the stored text, seen through [JSON.parse]: either a text on
      which [JSON.parse] throws ([Garbage]), or the text [JSON.stringify]
      produced for a value of the TypeScript type the key is declared to
      hold ([Doc]).
    - Code that reads or writes [localStorage] is written in a state monad
      over that record ([PlaylistCache.LS]).
    - The asynchronous code of the modal is written in a monad ([Modal.M])
      with state, exceptions and a log of events.  Everything outside the
      code is an [Env]: the answers of the remote library, the clock, and
      what happens while the code is suspended in an [await] (the user may
      close the modal, another task may mark playlists as modified).  The
      remote library answers the same request in the same way throughout
      a run, and the fetches that [Promise.all] starts together are taken
      one after the other.

    Layout: the JavaScript primitives, the cache, the modal, the modal
    without the cache, the settings page and the entry point of the
    plugin; then the vocabulary of the statements and some concrete
    worlds; then the properties: those of the cache and of the modal
    first, then round trips of the cache, the settings page, the runs of
    the two modals step by step and how they follow one another, and the
    entry point. *)

From Stdlib Require Import ZArith List String Bool Arith Lia.
From Stdlib Require Import Ascii Permutation Sorted DecimalString.
From Equations Require Import Equations.
Import ListNotations.

Set Implicit Arguments.

(* ------------------------------------------------------------------ *)
(** ** JavaScript primitives the sources rely on *)

Module JS.

Open Scope string_scope.

(** [s.startsWith(p)] *)
Definition startsWith (s p : string) : bool := String.prefix p s.

(** [s.includes(sub)]: [sub] occurs somewhere in [s]; the empty string
    occurs in every string. *)
Fixpoint includes (s sub : string) : bool :=
  String.prefix sub s ||
  match s with
  | EmptyString => false
  | String _ rest => includes rest sub
  end.

(** [s.slice(n)] *)
Definition drop (n : nat) (s : string) : string :=
  String.substring n (String.length s - n) s.

(** [s.replace(pat, rep)] with a string pattern: the first occurrence only. *)
Fixpoint replace (pat rep s : string) : string :=
  if String.prefix pat s then rep ++ drop (String.length pat) s
  else match s with
       | EmptyString => EmptyString
       | String c rest => String c (replace pat rep rest)
       end.

(** [s.replace(/^i\./, '')] *)
Definition stripLibraryPrefix (s : string) : string :=
  if String.prefix "i." s then drop 2 s else s.

(** Truthiness of a string: every string but the empty one. *)
Definition truthy (s : string) : bool := negb (String.eqb s "").

(** [a || b] on strings (a missing property is the empty string here). *)
Definition orElse (a b : string) : string := if truthy a then a else b.

(** [Math.round(n / d)] for non-negative integers: halves round up. *)
Definition roundDiv (n d : nat) : nat := (2 * n + d) / (2 * d).

(** [arr.findIndex(f)], [None] standing for [-1]. *)
Fixpoint findIndex {A : Type} (f : A -> bool) (l : list A) : option nat :=
  match l with
  | [] => None
  | x :: rest => if f x then Some 0 else option_map S (findIndex f rest)
  end.

(** [arr[i] = x] for an index inside the array. *)
Fixpoint assign {A : Type} (l : list A) (i : nat) (x : A) : list A :=
  match l, i with
  | [], _ => []
  | _ :: rest, 0 => x :: rest
  | y :: rest, S j => y :: assign rest j x
  end.

(** [arr.slice(i, j)] *)
Definition slice {A : Type} (l : list A) (i j : nat) : list A :=
  firstn (j - i) (skipn i l).

(** [arr.includes(s)] on an array of strings. *)
Definition includesStr (l : list string) (s : string) : bool :=
  existsb (String.eqb s) l.

(** [arr.sort(cmp)]: the sort is stable; [cmp a b > 0] puts [a] after [b]. *)
Fixpoint insertSorted {A : Type} (cmp : A -> A -> Z) (x : A) (l : list A) : list A :=
  match l with
  | [] => [x]
  | y :: rest => if (cmp x y >? 0)%Z then y :: insertSorted cmp x rest
                 else x :: y :: rest
  end.

Definition sort {A : Type} (cmp : A -> A -> Z) (l : list A) : list A :=
  fold_right (insertSorted cmp) [] l.

(** [Math.floor(n / d)] for a positive divisor. *)
Definition floorDiv (n d : Z) : Z := (n / d)%Z.

(** [`${n}`] for an integer: its decimal digits. *)
Definition showInt (n : Z) : string := NilZero.string_of_int (Z.to_int n).

End JS.

(* ------------------------------------------------------------------ *)
(** ** utils/cache.ts *)

Module PlaylistCache.

Open Scope string_scope.
Open Scope Z_scope.

Record CachedPlaylist : Type := mkCachedPlaylist {
  id : string;
  name : string;
  tracks : list string;
  lastModified : Z;
  artworkUrl : option string;
  cachedAt : Z
}.

Record CacheSettings : Type := mkCacheSettings {
  enabled : bool;
  expirationMinutes : Z
}.

(** [Partial<CacheSettings>]: what a persisted settings record may hold. *)
Record PartialSettings : Type := mkPartialSettings {
  enabled_opt : option bool;
  expirationMinutes_opt : option Z
}.

Inductive key : Type := CACHE_KEY | SETTINGS_KEY | MODIFIED_PLAYLISTS_KEY.

(** The text stored under a key. *)
Inductive item (A : Type) : Type :=
| Garbage (text : string)
| Doc (value : A).
Arguments Garbage {A} text.
Arguments Doc {A} value.

Record localStorage : Type := mkLocalStorage {
  cacheItem : option (item (list CachedPlaylist));
  settingsItem : option (item PartialSettings);
  modifiedItem : option (item (list string))
}.

Definition payload (k : key) : Type :=
  match k with
  | CACHE_KEY => list CachedPlaylist
  | SETTINGS_KEY => PartialSettings
  | MODIFIED_PLAYLISTS_KEY => list string
  end.

(** The state monad of the synchronous code. *)
Definition LS (A : Type) : Type := localStorage -> A * localStorage.

Definition ret {A : Type} (a : A) : LS A := fun ls => (a, ls).

Definition bind {A B : Type} (m : LS A) (f : A -> LS B) : LS B :=
  fun ls => let (a, ls1) := m ls in f a ls1.

Declare Scope ls_scope.
Delimit Scope ls_scope with ls.
Notation "x <- m ;; k" := (bind m (fun x => k))
  (at level 61, m at next level, right associativity) : ls_scope.
Notation "m ;; k" := (bind m (fun _ => k))
  (at level 61, right associativity) : ls_scope.
Open Scope ls_scope.

Definition getItem (k : key) : LS (option (item (payload k))) :=
  fun ls =>
    (match k return option (item (payload k)) with
     | CACHE_KEY => cacheItem ls
     | SETTINGS_KEY => settingsItem ls
     | MODIFIED_PLAYLISTS_KEY => modifiedItem ls
     end, ls).

Definition setItem (k : key) : item (payload k) -> LS unit :=
  match k return item (payload k) -> LS unit with
  | CACHE_KEY => fun v ls =>
      (tt, mkLocalStorage (Some v) (settingsItem ls) (modifiedItem ls))
  | SETTINGS_KEY => fun v ls =>
      (tt, mkLocalStorage (cacheItem ls) (Some v) (modifiedItem ls))
  | MODIFIED_PLAYLISTS_KEY => fun v ls =>
      (tt, mkLocalStorage (cacheItem ls) (settingsItem ls) (Some v))
  end.

Definition removeItem (k : key) : LS unit :=
  fun ls =>
    (tt, match k with
         | CACHE_KEY => mkLocalStorage None (settingsItem ls) (modifiedItem ls)
         | SETTINGS_KEY => mkLocalStorage (cacheItem ls) None (modifiedItem ls)
         | MODIFIED_PLAYLISTS_KEY => mkLocalStorage (cacheItem ls) (settingsItem ls) None
         end).

(** [if (stored)]: [null] and the empty text are falsy. *)
Definition present {A : Type} (stored : option (item A)) : bool :=
  match stored with
  | None => false
  | Some (Garbage text) => JS.truthy text
  | Some (Doc _) => true
  end.

(** [JSON.parse(stored)]; [None] when it throws. *)
Definition JSON_parse {A : Type} (stored : option (item A)) : option A :=
  match stored with
  | Some (Doc v) => Some v
  | _ => None
  end.

(** [stored.length] *)
Definition textLength {A : Type} (stringifiedLength : A -> nat)
    (stored : option (item A)) : nat :=
  match stored with
  | None => 0%nat
  | Some (Garbage text) => String.length text
  | Some (Doc v) => stringifiedLength v
  end.

(** [PlaylistCache.defaultSettings] *)
Definition defaultSettings : CacheSettings :=
  {| enabled := true; expirationMinutes := 5 |}.

(** [{ ...base, ...over }] *)
Definition spread (base : CacheSettings) (over : PartialSettings) : CacheSettings :=
  {| enabled := match enabled_opt over with Some b => b | None => enabled base end;
     expirationMinutes :=
       match expirationMinutes_opt over with
       | Some m => m
       | None => expirationMinutes base
       end |}.

Definition getSettings : LS CacheSettings :=
  stored <- getItem SETTINGS_KEY ;;
  if present stored then
    match JSON_parse stored with
    | Some parsed => ret (spread defaultSettings parsed)
    | None => ret defaultSettings          (* catch *)
    end
  else ret defaultSettings.

Definition saveSettings (settings : PartialSettings) : LS unit :=
  current <- getSettings ;;
  let updated := spread current settings in
  setItem SETTINGS_KEY
    (Doc {| enabled_opt := Some (enabled updated);
            expirationMinutes_opt := Some (expirationMinutes updated) |}).

Definition getCache : LS (list CachedPlaylist) :=
  settings <- getSettings ;;
  if negb (enabled settings) then ret []
  else
    stored <- getItem CACHE_KEY ;;
    if negb (present stored) then ret []
    else match JSON_parse stored with
         | Some cache => ret cache
         | None => ret []                  (* catch *)
         end.

Definition getCachedPlaylist (now : Z) (playlistId : string)
    : LS (option CachedPlaylist) :=
  cache <- getCache ;;
  match find (fun p => String.eqb (id p) playlistId) cache with
  | None => ret None
  | Some playlist =>
      settings <- getSettings ;;
      let expirationMs := expirationMinutes settings * 60 * 1000 in
      let age := now - cachedAt playlist in
      if age >? expirationMs then ret None else ret (Some playlist)
  end.

Definition isSongInPlaylist (now : Z) (playlistId songId : string)
    : LS (option bool) :=
  playlist <- getCachedPlaylist now playlistId ;;
  match playlist with
  | None => ret None
  | Some p => ret (Some (JS.includesStr (tracks p) songId))
  end.

(** The body of the [forEach] of [updatePlaylists]. *)
Definition upsert (now : Z) (cache : list CachedPlaylist) (playlist : CachedPlaylist)
    : list CachedPlaylist :=
  let cachedPlaylist :=
    {| id := id playlist; name := name playlist; tracks := tracks playlist;
       lastModified := lastModified playlist; artworkUrl := artworkUrl playlist;
       cachedAt := now |} in
  match JS.findIndex (fun p => String.eqb (id p) (id playlist)) cache with
  | Some index => JS.assign cache index cachedPlaylist
  | None => cache ++ [cachedPlaylist]
  end.

Definition updatePlaylists (now : Z) (playlists : list CachedPlaylist) : LS unit :=
  settings <- getSettings ;;
  if negb (enabled settings) then ret tt
  else
    cache <- getCache ;;
    setItem CACHE_KEY (Doc (fold_left (upsert now) playlists cache)).

Definition clearCache : LS unit :=
  removeItem CACHE_KEY ;;
  removeItem MODIFIED_PLAYLISTS_KEY.

(** The body of the [forEach] of [markPlaylistsModified]. *)
Definition pushIfNew (modified : list string) (i : string) : list string :=
  if negb (JS.includesStr modified i) then modified ++ [i] else modified.

Definition markPlaylistsModified (playlistIds : list string) : LS unit :=
  stored <- getItem MODIFIED_PLAYLISTS_KEY ;;
  if present stored then
    match JSON_parse stored with
    | Some modified =>
        setItem MODIFIED_PLAYLISTS_KEY (Doc (fold_left pushIfNew playlistIds modified))
    | None => ret tt                       (* catch *)
    end
  else setItem MODIFIED_PLAYLISTS_KEY (Doc (fold_left pushIfNew playlistIds [])).

Definition getModifiedPlaylists : LS (list string) :=
  stored <- getItem MODIFIED_PLAYLISTS_KEY ;;
  if present stored then
    match JSON_parse stored with
    | Some modified => ret modified
    | None => ret []                       (* catch *)
    end
  else ret [].

Definition clearModifiedPlaylists : LS unit :=
  removeItem MODIFIED_PLAYLISTS_KEY.

Record Stats : Type := mkStats {
  totalPlaylists : nat;
  expiredPlaylists : nat;
  modifiedPlaylists : nat;
  cacheSizeKB : nat;            (* the number printed in [cacheSize], before " KB" *)
  oldestCache : option Z
}.

Section GetStats.

(** The number of characters of [JSON.stringify(cache)]. *)
Variable stringifiedLength : list CachedPlaylist -> nat.

Definition getStats (now : Z) : LS Stats :=
  cache <- getCache ;;
  settings <- getSettings ;;
  modified <- getModifiedPlaylists ;;
  let expirationMs := expirationMinutes settings * 60 * 1000 in
  let expired := filter (fun p => now - cachedAt p >? expirationMs) cache in
  let oldest :=
    match cache with
    | [] => None
    | first :: _ =>
        Some (fold_left (fun oldest p => if cachedAt p <? oldest then cachedAt p else oldest)
                        cache (cachedAt first))
    end in
  cacheStr <- getItem CACHE_KEY ;;
  let sizeKB := JS.roundDiv (textLength stringifiedLength cacheStr) 1024 in
  ret {| totalPlaylists := List.length cache;
         expiredPlaylists := List.length expired;
         modifiedPlaylists := List.length modified;
         cacheSizeKB := sizeKB;
         oldestCache := oldest |}.

End GetStats.

End PlaylistCache.

(* ------------------------------------------------------------------ *)
(** ** The script of the playlist-manager modal *)

Module Modal.

Open Scope string_scope.
Open Scope list_scope.
Open Scope Z_scope.

(** A track resource of the remote library; a missing property is the
    empty string. *)
Record Track : Type := mkTrack {
  track_id : string;               (* track.id *)
  track_type : string;             (* track.type *)
  playParams_id : string;          (* track.attributes?.playParams?.id *)
  catalogId : string;              (* track.attributes?.playParams?.catalogId *)
  reportingId : string             (* track.attributes?.playParams?.reportingId *)
}.

(** A playlist resource of the remote library. *)
Record Playlist : Type := mkPlaylist {
  playlist_id : string;            (* playlist.id *)
  playlist_type : string;          (* playlist.type *)
  attr_name : string;              (* playlist.attributes?.name *)
  canEdit : option bool;           (* playlist.attributes?.canEdit *)
  lastModifiedDate : Z;            (* playlist.attributes?.lastModifiedDate, 0 if missing *)
  artwork_url : option string      (* playlist.attributes?.artwork?.url *)
}.

Record PlaylistCheckState : Type := mkPlaylistCheckState {
  id : string;
  name : string;
  isInPlaylist : bool;
  originalState : bool;
  lastModified : Z;
  artworkUrl : option string
}.

(** An entry of the body of the full-list replace call. *)
Record TrackRef : Type := mkTrackRef {
  ref_id : string;
  ref_type : string
}.

Inductive request : Type :=
| GetLibrarySongs (catalogId : string)
| GetLibraryPlaylists
| GetPlaylistTracks (playlistId : string) (offset : Z)
| PostPlaylistTracks (playlistId songId : string)
| PutPlaylistTracks (playlistId : string) (data : list TrackRef).

Inductive cacheCall : Type :=
| UpdatePlaylists (playlists : list PlaylistCache.CachedPlaylist)
| ClearModifiedPlaylists
| MarkPlaylistsModified (playlistIds : list string)
| ClearCache.

(** What a run of the modal's code does that is visible outside it. *)
Inductive event : Type :=
| Request (r : request)              (* a remote call is issued and awaited *)
| Delay (ms : Z)                     (* [await new Promise(r => setTimeout(r, ms))] *)
| AbortCheck (seen : bool)           (* [if (aborted.value) return], with the value read *)
| CacheWrite (c : cacheCall)         (* a writing method of [PlaylistCache] is called *)
| Alert (message : string)           (* [DialogAPI.createAlert] *)
| ModalClosed                        (* the code itself calls [closeModal] *)
| ClosePressed                       (* the user closed the modal during the last suspension *)
| ConcurrentMark (playlistIds : list string).
                                     (* another task marked these during the last suspension *)

(** The world outside the modal's code. *)
Record Env : Type := mkEnv {
  songId : string;                                   (* props.songId *)
  librarySongs : string -> option string;            (* songs[0].id of the library lookup; None: it throws or is empty *)
  libraryPlaylists : option (list Playlist);         (* the playlist listing; None: the call throws *)
  playlistTracks : string -> Z -> option (list Track);
                                                     (* a page of tracks; None: the call throws *)
  musicTokens : bool;                                (* developerToken && userToken *)
  postOk : string -> bool;                           (* response.ok of the append call *)
  putOk : string -> list TrackRef -> bool;           (* response.ok of the replace call *)
  clock : nat -> Z;                                  (* [new Date()] after n suspensions *)
  closePressedAt : option nat;                       (* the suspension during which the user closes the modal *)
  concurrentMark : nat -> option (list string)       (* ids another task marks during suspension n *)
}.

(** The refs of the component, [localStorage], and the number of
    suspension points passed so far. *)
Record World : Type := mkWorld {
  storage : PlaylistCache.localStorage;
  suspensions : nat;
  playlists : list PlaylistCheckState;
  loading : bool;
  processing : bool;
  aborted : bool;
  cacheUsed : bool
}.

Inductive Result (A : Type) : Type :=
| Ok (a : A)
| Throw.
Arguments Ok {A} a.
Arguments Throw {A}.

(** The monad of the asynchronous code: state, exceptions, and the events
    of the run in the order they happen. *)
Definition M (A : Type) : Type := World -> Result A * World * list event.

Definition ret {A : Type} (a : A) : M A := fun w => (Ok a, w, []).

Definition bind {A B : Type} (m : M A) (f : A -> M B) : M B :=
  fun w =>
    match m w with
    | (Ok a, w1, ev1) =>
        match f a w1 with
        | (r, w2, ev2) => (r, w2, ev1 ++ ev2)
        end
    | (Throw, w1, ev1) => (Throw, w1, ev1)
    end.

Declare Scope modal_scope.
Delimit Scope modal_scope with modal.
Notation "x <- m ;; k" := (bind m (fun x => k))
  (at level 61, m at next level, right associativity) : modal_scope.
Notation "m ;; k" := (bind m (fun _ => k))
  (at level 61, right associativity) : modal_scope.
Open Scope modal_scope.

Definition throw {A : Type} : M A := fun w => (Throw, w, []).

(** [try { body } catch { handler }] *)
Definition tryCatch {A : Type} (body handler : M A) : M A :=
  fun w =>
    match body w with
    | (Ok a, w1, ev1) => (Ok a, w1, ev1)
    | (Throw, w1, ev1) =>
        match handler w1 with
        | (r, w2, ev2) => (r, w2, ev1 ++ ev2)
        end
    end.

(** [try { body } finally { final }], for a [final] that does not throw. *)
Definition tryFinally {A : Type} (body : M A) (final : M unit) : M A :=
  fun w =>
    match body w with
    | (r, w1, ev1) =>
        match final w1 with
        | (_, w2, ev2) => (r, w2, ev1 ++ ev2)
        end
    end.

Definition gets {A : Type} (f : World -> A) : M A := fun w => (Ok (f w), w, []).

Definition modify (f : World -> World) : M unit := fun w => (Ok tt, f w, []).

Definition emit (e : event) : M unit := fun w => (Ok tt, w, [e]).

Definition setStorage (ls : PlaylistCache.localStorage) (w : World) : World :=
  mkWorld ls (suspensions w) (playlists w) (loading w) (processing w)
          (aborted w) (cacheUsed w).

Definition setPlaylists (ps : list PlaylistCheckState) (w : World) : World :=
  mkWorld (storage w) (suspensions w) ps (loading w) (processing w)
          (aborted w) (cacheUsed w).

Definition setLoading (b : bool) (w : World) : World :=
  mkWorld (storage w) (suspensions w) (playlists w) b (processing w)
          (aborted w) (cacheUsed w).

Definition setProcessing (b : bool) (w : World) : World :=
  mkWorld (storage w) (suspensions w) (playlists w) (loading w) b
          (aborted w) (cacheUsed w).

Definition setAborted (b : bool) (w : World) : World :=
  mkWorld (storage w) (suspensions w) (playlists w) (loading w) (processing w)
          b (cacheUsed w).

Definition setCacheUsed (b : bool) (w : World) : World :=
  mkWorld (storage w) (suspensions w) (playlists w) (loading w) (processing w)
          (aborted w) b.

Arguments setStorage ls w /.
Arguments setPlaylists ps w /.
Arguments setLoading b w /.
Arguments setProcessing b w /.
Arguments setAborted b w /.
Arguments setCacheUsed b w /.

(** A reading method of [PlaylistCache]. *)
Definition readCache {A : Type} (m : PlaylistCache.LS A) : M A :=
  fun w => let (a, ls) := m (storage w) in (Ok a, setStorage ls w, []).

(** A writing method of [PlaylistCache]. *)
Definition writeCache (c : cacheCall) (m : PlaylistCache.LS unit) : M unit :=
  fun w => let (_, ls) := m (storage w) in (Ok tt, setStorage ls w, [CacheWrite c]).

Section WithEnv.

Variable env : Env.

(** [new Date()] *)
Definition now : M Z := gets (fun w => clock env (suspensions w)).

(** A suspension point: the code waits for [e] to finish, and the rest of
    the world runs meanwhile: another task may mark playlists as modified,
    and the user may close the modal (which sets [aborted]). *)
Definition await (e : event) : M unit :=
  fun w =>
    let n := S (suspensions w) in
    let marks := concurrentMark env n in
    let ls := match marks with
              | Some ids => snd (PlaylistCache.markPlaylistsModified ids (storage w))
              | None => storage w
              end in
    let closed := match closePressedAt env with
                  | Some k => Nat.eqb k n
                  | None => false
                  end in
    (Ok tt,
     mkWorld ls n (playlists w) (loading w) (processing w)
             (aborted w || closed) (cacheUsed w),
     [e] ++ match marks with Some ids => [ConcurrentMark ids] | None => [] end
         ++ (if closed then [ClosePressed] else [])).

(** [await new Promise(resolve => setTimeout(resolve, ms))] *)
Definition delay (ms : Z) : M unit := await (Delay ms).

(** [closeModal()] *)
Definition closeModal : M unit :=
  modify (setAborted true) ;;
  emit ModalClosed.

(** [hasChanges.value] *)
Definition hasChanges : M bool :=
  gets (fun w => existsb (fun p => negb (Bool.eqb (isInPlaylist p) (originalState p)))
                         (playlists w)).

(** [findLibraryId(catalogId)] *)
Definition findLibraryId (catalogId : string) : M (option string) :=
  await (Request (GetLibrarySongs catalogId)) ;;
  match librarySongs env catalogId with
  | Some found => if JS.truthy found then ret (Some found) else ret None
  | None => ret None                      (* no song, or catch *)
  end.

(** [const limit = 100] *)
Definition limit : Z := 100.

(** [v3(`/v1/me/library/playlists/${playlistId}/tracks`, { limit, offset })] *)
Definition v3_tracks (playlistId : string) (offset : Z) : M (list Track) :=
  await (Request (GetPlaylistTracks playlistId offset)) ;;
  match playlistTracks env playlistId offset with
  | Some tracks => ret tracks
  | None => throw
  end.

(** The loop stops once [offset > 1000]: what bounds the number of its
    rounds. *)
Definition pagesLeft (offset : Z) : nat := Z.to_nat (1001 - offset).

Lemma pagesLeft_step (offset : Z) :
  (offset + limit >? 1000) = false ->
  (pagesLeft (offset + limit) < pagesLeft offset)%nat.
Proof.
  unfold pagesLeft, limit. rewrite Z.gtb_ltb. intros H.
  apply Z.ltb_ge in H. lia.
Qed.

#[local] Opaque pagesLeft.

Definition inspect {A : Type} (a : A) : {b : A | a = b} := exist _ a eq_refl.

(** The [while (hasMore)] loop of [checkSongInPlaylistWithCache] and of
    [removeSongFromPlaylist] (the two copies differ in their log lines
    only), entered with the current [offset] and [allTracks]. *)
Equations fetchAllTracks (playlistId : string) (offset : Z) (allTracks : list Track)
    (w : World) : list Track * World * list event
  by wf (pagesLeft offset) lt :=
fetchAllTracks playlistId offset allTracks w
  with v3_tracks playlistId offset w := {
  | (Throw, w1, ev1) => (allTracks, w1, ev1)                (* catch: hasMore = false *)
  | (Ok tracks, w1, ev1) with (List.length tracks =? 0)%nat := {
    | true => (allTracks, w1, ev1)                          (* tracks.length === 0 *)
    | false with inspect (offset + limit >? 1000) := {
      | exist _ true _ => (allTracks ++ tracks, w1, ev1)    (* offset > 1000: break *)
      | exist _ false _ =>
          if (Z.of_nat (List.length tracks) =? limit)       (* hasMore *)
          then match fetchAllTracks playlistId (offset + limit) (allTracks ++ tracks) w1 with
               | (all, w2, ev2) => (all, w2, ev1 ++ ev2)
               end
          else (allTracks ++ tracks, w1, ev1) } } }.
Next Obligation. now apply pagesLeft_step. Qed.

(** The loop run from [offset = 0] and an empty [allTracks]. *)
Definition fetchTracks (playlistId : string) : M (list Track) :=
  fun w => match fetchAllTracks playlistId 0 [] w with
           | (allTracks, w1, ev1) => (Ok allTracks, w1, ev1)
           end.

(** The pair [{ libraryId, catalogId }] extracted from a track. *)
Definition trackIdsOf (track : Track) : string * string :=
  (JS.orElse (track_id track) (JS.orElse (playParams_id track) ""),
   JS.orElse (catalogId track) (JS.orElse (reportingId track) "")).

(** [allIds]: every non-empty identifier of every track that has one. *)
Definition allIdsOf (allTracks : list Track) : list string :=
  flat_map (fun ids : string * string =>
              (if JS.truthy (fst ids) then [fst ids] else []) ++
              (if JS.truthy (snd ids) then [snd ids] else []))
           (filter (fun ids : string * string => JS.truthy (fst ids) || JS.truthy (snd ids))
                   (map trackIdsOf allTracks)).

(** The test of [allIds.some] inside [searchIds.some]. *)
Definition idMatches (searchId trackId : string) : bool :=
  let cleanSearchId := JS.stripLibraryPrefix searchId in
  let cleanTrackId := JS.stripLibraryPrefix trackId in
  String.eqb trackId searchId ||
  String.eqb cleanTrackId cleanSearchId ||
  JS.includes trackId searchId ||
  JS.includes searchId trackId ||
  JS.includes cleanTrackId cleanSearchId ||
  JS.includes cleanSearchId cleanTrackId.

(** [checkSongInPlaylistWithCache]: nothing in its body throws once the
    loop has caught the failed page, so its outer [catch] is never taken. *)
Definition checkSongInPlaylistWithCache (playlistId playlistName : string)
    (searchIds : list string) : M (bool * PlaylistCache.CachedPlaylist) :=
  allTracks <- fetchTracks playlistId ;;
  let allIds := allIdsOf allTracks in
  let found := existsb (fun searchId => existsb (idMatches searchId) allIds) searchIds in
  t <- now ;;
  ret (found,
       PlaylistCache.mkCachedPlaylist playlistId playlistName allIds t None t).

(** [playlist.attributes?.name || "Untitled Playlist"] *)
Definition playlistNameOf (playlist : Playlist) : string :=
  JS.orElse (attr_name playlist) "Untitled Playlist".

(** The artwork url with its size and format filled in. *)
Definition artwork60 (url : string) : string :=
  JS.replace ".{f}" ".jpg"
    (JS.replace "{f}" "jpg" (JS.replace "{h}" "60" (JS.replace "{w}" "60" url))).

(** The row pushed to [playlistStates] for a playlist and its verdict. *)
Definition stateOf (playlist : Playlist) (verdict : bool) : PlaylistCheckState :=
  {| id := playlist_id playlist;
     name := playlistNameOf playlist;
     isInPlaylist := verdict;
     originalState := verdict;
     lastModified := lastModifiedDate playlist;
     artworkUrl := option_map artwork60 (artwork_url playlist) |}.

(** [Promise.all(batch.map(async (playlist) => ...))], the playlists of the
    batch taken one after the other. *)
Fixpoint checkBatch (batch : list Playlist) (searchIds : list string)
    (playlistsToCache : list PlaylistCache.CachedPlaylist)
    : M (list PlaylistCheckState * list PlaylistCache.CachedPlaylist) :=
  match batch with
  | [] => ret ([], playlistsToCache)
  | playlist :: rest =>
      result <- checkSongInPlaylistWithCache (playlist_id playlist)
                  (playlistNameOf playlist) searchIds ;;
      let playlistsToCache := playlistsToCache ++ [snd result] in
      others <- checkBatch rest searchIds playlistsToCache ;;
      ret (stateOf playlist (fst result) :: fst others, snd others)
  end.

(** [const batchSize = 10] *)
Definition batchSize : nat := 10.

Lemma batch_step (n i : nat) :
  (i <? n)%nat = true -> (n - (i + batchSize) < n - i)%nat.
Proof. unfold batchSize. intros H. apply Nat.ltb_lt in H. lia. Qed.

(** The [for (let i = 0; i < playlistsToFetch.length; i += batchSize)] loop
    of [loadPlaylists], entered with the current [i], [playlistStates] and
    [playlistsToCache]; [None] when the loop returned from the function. *)
Equations runBatches (playlistsToFetch : list Playlist) (searchIds : list string)
    (i : nat) (playlistStates : list PlaylistCheckState)
    (playlistsToCache : list PlaylistCache.CachedPlaylist) (w : World)
    : Result (option (list PlaylistCheckState * list PlaylistCache.CachedPlaylist))
      * World * list event
  by wf (List.length playlistsToFetch - i)%nat lt :=
runBatches playlistsToFetch searchIds i playlistStates playlistsToCache w
  with inspect (i <? List.length playlistsToFetch)%nat := {
  | exist _ false _ => (Ok (Some (playlistStates, playlistsToCache)), w, [])
  | exist _ true _ =>
      if aborted w then (Ok None, w, [AbortCheck true])
      else
        match checkBatch (JS.slice playlistsToFetch i (i + batchSize)) searchIds
                         playlistsToCache w with
        | (Throw, w1, ev1) => (Throw, w1, AbortCheck false :: ev1)
        | (Ok (batchStates, toCache), w1, ev1) =>
            match (if (i + batchSize <? List.length playlistsToFetch)%nat
                      && negb (aborted w1)
                   then delay 100 else ret tt) w1 with
            | (_, w2, ev2) =>
                match runBatches playlistsToFetch searchIds (i + batchSize)
                                 (playlistStates ++ batchStates) toCache w2 with
                | (r, w3, ev3) => (r, w3, AbortCheck false :: ev1 ++ ev2 ++ ev3)
                end
            end
        end }.
Next Obligation. now apply batch_step. Qed.

(** The first non-null answer of [PlaylistCache.isSongInPlaylist] over the
    search ids. *)
Fixpoint cachedVerdict (playlistId : string) (searchIds : list string)
    : M (option bool) :=
  match searchIds with
  | [] => ret None
  | searchId :: rest =>
      t <- now ;;
      cachedResult <- readCache (PlaylistCache.isSongInPlaylist t playlistId searchId) ;;
      match cachedResult with
      | Some b => ret (Some b)
      | None => cachedVerdict playlistId rest
      end
  end.

(** The [for (const playlist of sortedPlaylists)] loop of [loadPlaylists]. *)
Fixpoint classify (settings : PlaylistCache.CacheSettings) (searchIds : list string)
    (modifiedPlaylistIds : list string) (sortedPlaylists : list Playlist)
    (playlistStates : list PlaylistCheckState) (playlistsToFetch : list Playlist)
    (cacheHits : nat) : M (list PlaylistCheckState * list Playlist * nat) :=
  match sortedPlaylists with
  | [] => ret (playlistStates, playlistsToFetch, cacheHits)
  | playlist :: rest =>
      let needsRefresh := JS.includesStr modifiedPlaylistIds (playlist_id playlist) in
      cachedResult <- (if negb needsRefresh
                       then cachedVerdict (playlist_id playlist) searchIds
                       else ret None) ;;
      match cachedResult with
      | Some verdict =>
          if PlaylistCache.enabled settings
          then classify settings searchIds modifiedPlaylistIds rest
                        (playlistStates ++ [stateOf playlist verdict])
                        playlistsToFetch (S cacheHits)
          else classify settings searchIds modifiedPlaylistIds rest
                        playlistStates (playlistsToFetch ++ [playlist]) cacheHits
      | None =>
          classify settings searchIds modifiedPlaylistIds rest
                   playlistStates (playlistsToFetch ++ [playlist]) cacheHits
      end
  end.

(** The filter of [editablePlaylists]: [canEdit !== false] and a library
    playlist. *)
Definition editable (playlist : Playlist) : bool :=
  negb (match canEdit playlist with Some false => true | _ => false end)
  && String.eqb (playlist_type playlist) "library-playlists".

(** The comparator of [sortedPlaylists]: most recently modified first. *)
Definition byLastModifiedDate (a b : Playlist) : Z :=
  lastModifiedDate b - lastModifiedDate a.

(** The comparator of the final sort: playlists that hold the song first,
    then most recently modified first. *)
Definition membersFirst (a b : PlaylistCheckState) : Z :=
  if isInPlaylist a && negb (isInPlaylist b) then -1
  else if negb (isInPlaylist a) && isInPlaylist b then 1
  else lastModified b - lastModified a.

(** Which exit a run of [loadPlaylists] took (the function itself returns
    nothing): it ran to its end, with the modified ids it had read; it
    returned at an abort check; or it ended in its [catch]. *)
Inductive passOutcome : Type :=
| Completed (modifiedPlaylistIds : list string)
| Cancelled
| Failed.

(** [loadPlaylists()] *)
Definition loadPlaylists : M passOutcome :=
  tryFinally
    (tryCatch
       (modify (setLoading true) ;;
        settings <- readCache PlaylistCache.getSettings ;;
        searchIds <- (if negb (JS.startsWith (songId env) "i.")
                      then libraryId <- findLibraryId (songId env) ;;
                           match libraryId with
                           | Some l => ret [songId env; l]
                           | None => ret [songId env]
                           end
                      else ret [songId env]) ;;
        await (Request GetLibraryPlaylists) ;;
        match libraryPlaylists env with
        | None => throw
        | Some userPlaylists =>
            seen <- gets aborted ;;
            emit (AbortCheck seen) ;;
            if seen then ret Cancelled
            else
              let editablePlaylists := filter editable userPlaylists in
              let sortedPlaylists := JS.sort byLastModifiedDate editablePlaylists in
              modifiedPlaylistIds <- readCache PlaylistCache.getModifiedPlaylists ;;
              classified <- classify settings searchIds modifiedPlaylistIds
                                     sortedPlaylists [] [] 0 ;;
              let playlistStates := fst (fst classified) in
              let playlistsToFetch := snd (fst classified) in
              let cacheHits := snd classified in
              modify (setCacheUsed (0 <? cacheHits)%nat) ;;
              fetched <- (if (0 <? List.length playlistsToFetch)%nat
                          then
                            batches <- runBatches playlistsToFetch searchIds 0
                                                  playlistStates [] ;;
                            match batches with
                            | None => ret None
                            | Some (states, playlistsToCache) =>
                                (if (0 <? List.length playlistsToCache)%nat
                                    && PlaylistCache.enabled settings
                                 then t <- now ;;
                                      writeCache (UpdatePlaylists playlistsToCache)
                                        (PlaylistCache.updatePlaylists t playlistsToCache)
                                 else ret tt) ;;
                                ret (Some states)
                            end
                          else ret (Some playlistStates)) ;;
              match fetched with
              | None => ret Cancelled
              | Some playlistStates =>
                  (if (0 <? List.length modifiedPlaylistIds)%nat
                   then writeCache ClearModifiedPlaylists
                          PlaylistCache.clearModifiedPlaylists
                   else ret tt) ;;
                  modify (setPlaylists (JS.sort membersFirst playlistStates)) ;;
                  ret (Completed modifiedPlaylistIds)
              end
        end)
       (emit (Alert "Error loading playlists. Please make sure you are signed in to Apple Music.") ;;
        ret Failed))
    (modify (setLoading false)).

(** [togglePlaylist(playlist)], the playlist given by its position. *)
Fixpoint updateAt {A : Type} (f : A -> A) (l : list A) (i : nat) : list A :=
  match l, i with
  | [], _ => []
  | x :: rest, O => f x :: rest
  | x :: rest, S j => x :: updateAt f rest j
  end.

Definition togglePlaylist (index : nat) : M unit :=
  modify (fun w =>
    setPlaylists
      (updateAt (fun p => mkPlaylistCheckState (id p) (name p) (negb (isInPlaylist p))
                            (originalState p) (lastModified p) (artworkUrl p))
                (playlists w) index) w).

(** [addSongToPlaylist(playlistId)]; its [catch] logs and rethrows.  A
    rejected call and a call that fails are the same [postOk = false]. *)
Definition addSongToPlaylist (playlistId : string) : M unit :=
  if negb (musicTokens env) then throw
  else
    await (Request (PostPlaylistTracks playlistId (songId env))) ;;
    if postOk env playlistId then ret tt else throw.

(** The test [isMatch] of [removeSongFromPlaylist]. *)
Definition isMatch (songIdStr : string) (track : Track) : bool :=
  String.eqb (track_id track) songIdStr ||
  String.eqb (catalogId track) songIdStr ||
  String.eqb (reportingId track) songIdStr ||
  String.eqb (playParams_id track) songIdStr ||
  JS.includes (track_id track) songIdStr ||
  JS.includes (catalogId track) songIdStr ||
  JS.includes (reportingId track) songIdStr.

(** [allTracks.filter((track, index) => ...)] together with the
    [foundIndex] its callback sets: the tracks from position [index] on. *)
Fixpoint filterTracks (songIdStr : string) (tracks : list Track) (index : nat)
    (foundIndex : option nat) : list Track * option nat :=
  match tracks with
  | [] => ([], foundIndex)
  | track :: rest =>
      let foundIndex :=
        match foundIndex with
        | None => if isMatch songIdStr track then Some index else None
        | Some _ => foundIndex
        end in
      let (remaining, found) := filterTracks songIdStr rest (S index) foundIndex in
      (if negb (isMatch songIdStr track) then track :: remaining else remaining, found)
  end.

(** An entry of [data]: [{ id: track.id, type: track.type || "library-songs" }] *)
Definition refOf (track : Track) : TrackRef :=
  {| ref_id := track_id track;
     ref_type := JS.orElse (track_type track) "library-songs" |}.

(** [removeSongFromPlaylist(playlistId)]; its [catch] logs and rethrows.  A
    rejected call and a call that fails are the same [putOk = false]. *)
Definition removeSongFromPlaylist (playlistId : string) : M unit :=
  allTracks <- fetchTracks playlistId ;;
  let (remainingTracks, foundIndex) := filterTracks (songId env) allTracks 0 None in
  match foundIndex with
  | None => ret tt                          (* nothing to remove *)
  | Some _ =>
      if negb (musicTokens env) then throw
      else
        let data := map refOf remainingTracks in
        await (Request (PutPlaylistTracks playlistId data)) ;;
        if putOk env playlistId data then ret tt else throw
  end.

(** [playlists.value.filter(p => p.isInPlaylist !== p.originalState)]: the
    changed playlists, each with its position in [playlists.value] (the
    array holds the objects themselves, which the loop below updates). *)
Fixpoint changesFrom (index : nat) (ps : list PlaylistCheckState)
    : list (nat * PlaylistCheckState) :=
  match ps with
  | [] => []
  | p :: rest =>
      if negb (Bool.eqb (isInPlaylist p) (originalState p))
      then (index, p) :: changesFrom (S index) rest
      else changesFrom (S index) rest
  end.

(** [playlist.originalState = playlist.isInPlaylist] *)
Definition commitState (index : nat) : M unit :=
  modify (fun w =>
    setPlaylists
      (updateAt (fun p => mkPlaylistCheckState (id p) (name p) (isInPlaylist p)
                            (isInPlaylist p) (lastModified p) (artworkUrl p))
                (playlists w) index) w).

(** The [for (let i = 0; i < changes.length; i++)] loop of [applyChanges],
    over the changes from position [i] on. *)
Fixpoint applyLoop (changes : list (nat * PlaylistCheckState))
    (modifiedIds : list string) : M (list string) :=
  match changes with
  | [] => ret modifiedIds
  | (index, playlist) :: rest =>
      let modifiedIds := modifiedIds ++ [id playlist] in
      (if isInPlaylist playlist
       then addSongToPlaylist (id playlist)
       else removeSongFromPlaylist (id playlist)) ;;
      commitState index ;;
      (match rest with
       | [] => ret tt
       | _ :: _ => delay 200                 (* i < changes.length - 1 *)
       end) ;;
      applyLoop rest modifiedIds
  end.

(** Which exit a run of [applyChanges] took. *)
Inductive applyOutcome : Type :=
| NothingToApply
| Applied
| ApplyFailed.

(** [applyChanges()] *)
Definition applyChanges : M applyOutcome :=
  changed <- hasChanges ;;
  if negb changed then closeModal ;; ret NothingToApply
  else
    modify (setProcessing true) ;;
    tryCatch
      (changes <- gets (fun w => changesFrom 0 (playlists w)) ;;
       modifiedIds <- applyLoop changes [] ;;
       writeCache (MarkPlaylistsModified modifiedIds)
                  (PlaylistCache.markPlaylistsModified modifiedIds) ;;
       closeModal ;;
       ret Applied)
      (emit (Alert "Failed to update playlists. Please try again.") ;;
       modify (setProcessing false) ;;
       ret ApplyFailed).

(** [changesCount.value] *)
Definition changesCount : M nat :=
  gets (fun w =>
    List.length (filter (fun p => negb (Bool.eqb (isInPlaylist p) (originalState p)))
                        (playlists w))).

(** [onMounted(async () => { aborted.value = false; await loadPlaylists(); })] *)
Definition onMounted : M passOutcome :=
  modify (setAborted false) ;;
  loadPlaylists.

(** [refreshPlaylists()]; nothing follows the call of [loadPlaylists],
    which is not awaited. *)
Definition refreshPlaylists : M passOutcome :=
  writeCache ClearCache PlaylistCache.clearCache ;;
  loadPlaylists.

End WithEnv.

Section Filtered.

(** [s.toLowerCase()] *)
Variable toLowerCase : string -> string.

(** [filteredPlaylists.value], for the text of the search box and the rows
    of [playlists.value]. *)
Definition filteredPlaylists (searchQuery : string) (playlists : list PlaylistCheckState)
    : list PlaylistCheckState :=
  let filtered :=
    if JS.truthy searchQuery
    then let query := toLowerCase searchQuery in
         filter (fun p => JS.includes (toLowerCase (name p)) query) playlists
    else playlists in
  JS.sort membersFirst filtered.

End Filtered.

End Modal.

(* ------------------------------------------------------------------ *)
(** ** components/PlaylistManagerModal.vue: the modal without the cache

    Its [addSongToPlaylist], [removeSongFromPlaylist], [closeModal] and
    [hasChanges] are those of the cache-aware script, word for word, and
    so are the filter, the sort and the row of a playlist in its
    [loadPlaylists]. *)

Module PlaylistManagerModal.

Import Modal.
Open Scope string_scope.
Open Scope list_scope.
Open Scope Z_scope.
Open Scope modal_scope.

Section WithEnv.

Variable env : Env.

(** [checkSongInPlaylist(playlistId, playlistName)]: the same loop, then
    the test that [removeSongFromPlaylist] applies to every track.  Nothing
    in its body throws once the loop has caught the failed page, so its
    outer [catch] is never taken. *)
Definition checkSongInPlaylist (playlistId playlistName : string) : M bool :=
  allTracks <- fetchTracks env playlistId ;;
  ret (existsb (isMatch (songId env)) allTracks).

(** The [for (let i = 0; i < changes.length; i++)] loop of [applyChanges],
    over the changes from position [i] on. *)
Fixpoint applyLoop (shouldDelay : bool) (changes : list (nat * PlaylistCheckState))
    : M unit :=
  match changes with
  | [] => ret tt
  | (index, playlist) :: rest =>
      (if isInPlaylist playlist
       then addSongToPlaylist env (id playlist)
       else removeSongFromPlaylist env (id playlist)) ;;
      (match rest with
       | [] => ret tt
       | _ :: _ => if shouldDelay then delay env 200 else ret tt
       end) ;;
      applyLoop shouldDelay rest
  end.

(** [Promise.all(batch.map(async (playlist, batchIndex) => ...))], the
    playlists of the batch taken one after the other. *)
Fixpoint checkBatch (batch : list Playlist) : M (list PlaylistCheckState) :=
  match batch with
  | [] => ret []
  | playlist :: rest =>
      isInPlaylist <- checkSongInPlaylist (playlist_id playlist)
                        (playlistNameOf playlist) ;;
      others <- checkBatch rest ;;
      ret (stateOf playlist isInPlaylist :: others)
  end.

(** [const shouldBatch = sortedPlaylists.length > 20] *)
Definition shouldBatch (sortedPlaylists : list Playlist) : bool :=
  (20 <? List.length sortedPlaylists)%nat.

(** [const batchSize = shouldBatch ? 10 : sortedPlaylists.length] *)
Definition batchSize (sortedPlaylists : list Playlist) : nat :=
  if shouldBatch sortedPlaylists then 10%nat else List.length sortedPlaylists.

Lemma sibling_batch_step (sortedPlaylists : list Playlist) (i : nat) :
  (i <? List.length sortedPlaylists)%nat = true ->
  (List.length sortedPlaylists - (i + batchSize sortedPlaylists)
   < List.length sortedPlaylists - i)%nat.
Proof.
  unfold batchSize. intros H. apply Nat.ltb_lt in H.
  destruct (shouldBatch sortedPlaylists); lia.
Qed.

(** The [for (let i = 0; i < sortedPlaylists.length; i += batchSize)] loop
    of [loadPlaylists], entered with the current [i] and [playlistStates];
    [None] when the loop returned from the function. *)
Equations runBatches (sortedPlaylists : list Playlist) (i : nat)
    (playlistStates : list PlaylistCheckState) (w : World)
    : Result (option (list PlaylistCheckState)) * World * list event
  by wf (List.length sortedPlaylists - i)%nat lt :=
runBatches sortedPlaylists i playlistStates w
  with inspect (i <? List.length sortedPlaylists)%nat := {
  | exist _ false _ => (Ok (Some playlistStates), w, [])
  | exist _ true _ =>
      if aborted w then (Ok None, w, [AbortCheck true])
      else
        match checkBatch (JS.slice sortedPlaylists i (i + batchSize sortedPlaylists)) w
        with
        | (Throw, w1, ev1) => (Throw, w1, AbortCheck false :: ev1)
        | (Ok batchStates, w1, ev1) =>
            match (if shouldBatch sortedPlaylists
                      && (i + batchSize sortedPlaylists <? List.length sortedPlaylists)%nat
                      && negb (aborted w1)
                   then delay env 100 else ret tt) w1 with
            | (_, w2, ev2) =>
                match runBatches sortedPlaylists (i + batchSize sortedPlaylists)
                                 (playlistStates ++ batchStates) w2 with
                | (r, w3, ev3) => (r, w3, AbortCheck false :: ev1 ++ ev2 ++ ev3)
                end
            end
        end }.
Next Obligation. now apply sibling_batch_step. Qed.

(** Which exit a run of [loadPlaylists] took: it ran to its end, it
    returned at an abort check, or it ended in its [catch]. *)
Inductive loadOutcome : Type :=
| LoadCompleted
| LoadCancelled
| LoadFailed.

(** [loadPlaylists()] *)
Definition loadPlaylists : M loadOutcome :=
  tryFinally
    (tryCatch
       (modify (setLoading true) ;;
        await env (Request GetLibraryPlaylists) ;;
        match libraryPlaylists env with
        | None => throw
        | Some userPlaylists =>
            seen <- gets aborted ;;
            emit (AbortCheck seen) ;;
            if seen then ret LoadCancelled
            else
              let editablePlaylists := filter editable userPlaylists in
              let sortedPlaylists := JS.sort byLastModifiedDate editablePlaylists in
              batches <- runBatches sortedPlaylists 0 [] ;;
              match batches with
              | None => ret LoadCancelled
              | Some playlistStates =>
                  modify (setPlaylists playlistStates) ;;
                  ret LoadCompleted
              end
        end)
       (emit (Alert "Error loading playlists. Please make sure you are signed in to Apple Music.") ;;
        ret LoadFailed))
    (modify (setLoading false)).

(** [onMounted(async () => { aborted.value = false; await loadPlaylists(); })] *)
Definition onMounted : M loadOutcome :=
  modify (setAborted false) ;;
  loadPlaylists.

(** [applyChanges()] *)
Definition applyChanges : M applyOutcome :=
  changed <- hasChanges ;;
  if negb changed then closeModal ;; ret NothingToApply
  else
    modify (setProcessing true) ;;
    tryCatch
      (changes <- gets (fun w => changesFrom 0 (playlists w)) ;;
       let shouldDelay := (5 <? List.length changes)%nat in
       applyLoop shouldDelay changes ;;
       closeModal ;;
       ret Applied)
      (emit (Alert "Failed to update playlists. Please try again.") ;;
       modify (setProcessing false) ;;
       ret ApplyFailed).

End WithEnv.

End PlaylistManagerModal.

(* ------------------------------------------------------------------ *)
(** ** components/SettingsModal.vue: the settings page of the cache *)

Module SettingsModal.

Import PlaylistCache.
Open Scope string_scope.
Open Scope list_scope.
Open Scope Z_scope.
Open Scope ls_scope.

(** The refs of the component. *)
Record State : Type := mkState {
  settings : CacheSettings;
  stats : Stats;
  selectedPreset : Z;
  customMinutes : Z;
  saveSuccess : bool
}.

Definition presetOptions : list (string * Z) :=
  [("1 minute", 1); ("5 minutes", 5); ("15 minutes", 15); ("30 minutes", 30);
   ("1 hour", 60); ("Custom", -1)].

(** What a [setTimeout] callback of the component does. *)
Inductive callback : Type :=
| HideSaved                          (* saveSuccess.value = false *)
| CloseTheModal.                     (* closeModal() *)

(** [isStandalone.value], from [props.standalone] and whether
    [props.onClose] is given. *)
Definition isStandalone (standalone : option bool) (onClose : bool) : bool :=
  negb (match standalone with Some false => true | _ => false end) && onClose.

(** [loadSettings()] *)
Definition loadSettings (st : State) : LS State :=
  cached <- getSettings ;;
  let preset := find (fun p => snd p =? expirationMinutes cached) presetOptions in
  match preset with
  | Some p =>
      if negb (snd p =? -1)
      then ret (mkState cached (stats st) (snd p) (customMinutes st) (saveSuccess st))
      else ret (mkState cached (stats st) (-1) (expirationMinutes cached) (saveSuccess st))
  | None =>
      ret (mkState cached (stats st) (-1) (expirationMinutes cached) (saveSuccess st))
  end.

(** [handlePresetChange()] *)
Definition handlePresetChange (st : State) : State :=
  if negb (selectedPreset st =? -1)
  then mkState {| enabled := enabled (settings st);
                  expirationMinutes := selectedPreset st |}
               (stats st) (selectedPreset st) (customMinutes st) (saveSuccess st)
  else st.

(** [handleCustomChange()] *)
Definition handleCustomChange (st : State) : State :=
  if customMinutes st >? 0
  then mkState {| enabled := enabled (settings st);
                  expirationMinutes := customMinutes st |}
               (stats st) (selectedPreset st) (customMinutes st) (saveSuccess st)
  else st.

(** What the user can do on the page, through the bindings of its
    template: pick an entry of the preset list ([v-model.number] on
    [selectedPreset], then [@change]), type a whole number of minutes
    ([v-model.number] on [customMinutes], then [@input]), or flip the
    switch ([v-model] on [settings.enabled]). *)
Inductive edit : Type :=
| PickPreset (entry : nat)
| TypeMinutes (minutes : Z)
| SwitchCaching (on : bool).

Definition perform (st : State) (e : edit) : State :=
  match e with
  | PickPreset entry =>
      match nth_error presetOptions entry with
      | Some preset =>
          handlePresetChange
            (mkState (settings st) (stats st) (snd preset) (customMinutes st)
                     (saveSuccess st))
      | None => st
      end
  | TypeMinutes minutes =>
      handleCustomChange
        (mkState (settings st) (stats st) (selectedPreset st) minutes (saveSuccess st))
  | SwitchCaching on =>
      mkState {| enabled := on; expirationMinutes := expirationMinutes (settings st) |}
              (stats st) (selectedPreset st) (customMinutes st) (saveSuccess st)
  end.

(** [saveSettings()]: the settings are persisted, the success mark is
    shown, and the timers are started (each with its delay in ms). *)
Definition saveSettings (standalone : option bool) (onClose : bool) (st : State)
    : LS (State * list (Z * callback)) :=
  PlaylistCache.saveSettings
    {| enabled_opt := Some (enabled (settings st));
       expirationMinutes_opt := Some (expirationMinutes (settings st)) |} ;;
  ret (mkState (settings st) (stats st) (selectedPreset st) (customMinutes st) true,
       (2000, HideSaved)
       :: (if isStandalone standalone onClose then [(500, CloseTheModal)] else [])).

(** [formatDate(date)], at the time [now]. *)
Definition formatDate (now : Z) (date : option Z) : string :=
  match date with
  | None => "Never"
  | Some d =>
      let diff := now - d in
      let minutes := JS.floorDiv diff 60000 in
      let hours := JS.floorDiv minutes 60 in
      let days := JS.floorDiv hours 24 in
      if minutes <? 1 then "Just now"
      else if minutes <? 60 then JS.showInt minutes ++ "m ago"
      else if hours <? 24 then JS.showInt hours ++ "h ago"
      else JS.showInt days ++ "d ago"
  end.

Section Stats.

(** The number of characters of [JSON.stringify(cache)]. *)
Variable stringifiedLength : list CachedPlaylist -> nat.

(** [loadStats()] *)
Definition loadStats (now : Z) (st : State) : LS State :=
  fresh <- getStats stringifiedLength now ;;
  ret (mkState (settings st) fresh (selectedPreset st) (customMinutes st)
               (saveSuccess st)).

(** [onMounted(() => { loadSettings(); loadStats(); })] *)
Definition onMounted (now : Z) (st : State) : LS State :=
  st <- loadSettings st ;;
  loadStats now st.

(** [clearCache()], with the answer the user gives to [confirm]. *)
Definition clearCache (confirmed : bool) (now : Z) (st : State) : LS State :=
  if confirmed
  then PlaylistCache.clearCache ;;
       loadStats now st
  else ret st.

End Stats.

End SettingsModal.

(* ------------------------------------------------------------------ *)
(** ** main.ts: how the plugin opens the modal

    The item of a context menu is an untyped object.  It is read here as
    the record of the places the code looks at; every id and every text
    is a string, and a property that is missing is the empty string (both
    are falsy, and the code only tests the values and turns the id into a
    string). *)

Module Plugin.

Open Scope string_scope.

(** [playParams] *)
Record PlayParams : Type := mkPlayParams {
  params_catalogId : string;
  params_id : string;
  params_reportingId : string
}.

(** [attributes] *)
Record Attributes : Type := mkAttributes {
  attributes_playParams : option PlayParams;
  attributes_name : string;
  attributes_artistName : string;
  attributes_albumName : string;
  attributes_artwork_url : string         (* attributes.artwork?.url *)
}.

(** [item.container] *)
Record Container : Type := mkContainer {
  container_id : string;
  container_catalogId : string;
  container_playParams : option PlayParams
}.

(** [item.mediaItem], [item._data] and [item.rawItem] *)
Record Wrapped : Type := mkWrapped {
  wrapped_id : string;
  wrapped_catalogId : string;
  wrapped_attributes : option Attributes
}.

Record Item : Type := mkItem {
  item_id : string;
  item_attributes : option Attributes;
  item_playParams : option PlayParams;
  item_catalogId : string;
  item_container : option Container;
  item_songId : string;
  item_trackId : string;
  item_mediaItem : option Wrapped;
  item_data : option Wrapped;             (* item._data *)
  item_rawItem : option Wrapped;
  item_name : string;
  item_title : string;
  item_artistName : string;
  item_artist : string;
  item_albumName : string;
  item_album : string;
  item_artwork_url : string               (* item.artwork?.url *)
}.

(** [o?.f] for a property that is an object. *)
Definition chain {A B : Type} (f : A -> option B) (o : option A) : option B :=
  match o with
  | Some a => f a
  | None => None
  end.

(** [o?.f] for a property that is a text. *)
Definition text {A : Type} (f : A -> string) (o : option A) : string :=
  match o with
  | Some a => f a
  | None => ""
  end.

(** The props the modal is mounted with. *)
Record Props : Type := mkProps {
  songId : string;
  songTitle : string;
  songArtist : string;
  songAlbum : string;
  songArtwork : string
}.

(** What a call of the plugin ends in: an alert, or the modal mounted
    and its dialog opened. *)
Inductive opening : Type :=
| Alerted (message : string)
| Opened (props : Props).

(** [openPlaylistManagerModal(songId, songTitle, songArtist, songAlbum,
    songArtwork)] *)
Definition openPlaylistManagerModal (songId songTitle songArtist songAlbum
    songArtwork : string) : opening :=
  let songIdStr := songId in
  if negb (JS.truthy songIdStr) || String.eqb songIdStr "undefined"
     || String.eqb songIdStr "null"
  then Alerted "Invalid song ID provided."
  else Opened (mkProps songIdStr songTitle songArtist (JS.orElse songAlbum "")
                       (JS.orElse songArtwork "")).

(** [openPlaylistManager(item)] *)
Definition openPlaylistManager (item : Item) : opening :=
  let songId := item_id item in
  let songId :=
    if negb (JS.truthy songId)
    then match chain attributes_playParams (item_attributes item) with
         | Some playParams =>
             JS.orElse (JS.orElse (params_catalogId playParams) (params_id playParams))
                       (params_reportingId playParams)
         | None => songId
         end
    else songId in
  let songId :=
    if negb (JS.truthy songId)
    then JS.orElse (JS.orElse (text params_catalogId (item_playParams item))
                              (text params_id (item_playParams item)))
                   (item_catalogId item)
    else songId in
  let songId :=
    if negb (JS.truthy songId)
    then match item_container item with
         | Some container =>
             JS.orElse (JS.orElse (container_id container) (container_catalogId container))
                       (text params_catalogId (container_playParams container))
         | None => songId
         end
    else songId in
  let songId :=
    if negb (JS.truthy songId)
    then JS.orElse (item_songId item) (item_trackId item)
    else songId in
  let songId :=
    if negb (JS.truthy songId)
    then match item_mediaItem item with
         | Some mediaItem =>
             let playParams := chain attributes_playParams (wrapped_attributes mediaItem) in
             JS.orElse (JS.orElse (wrapped_id mediaItem) (text params_catalogId playParams))
                       (text params_id playParams)
         | None => songId
         end
    else songId in
  let songId :=
    if negb (JS.truthy songId)
    then match item_data item with
         | Some data =>
             JS.orElse (wrapped_id data)
                       (text params_catalogId
                             (chain attributes_playParams (wrapped_attributes data)))
         | None => songId
         end
    else songId in
  let songId :=
    if negb (JS.truthy songId)
    then match item_rawItem item with
         | Some rawItem =>
             JS.orElse (JS.orElse (wrapped_id rawItem) (wrapped_catalogId rawItem))
                       (text params_catalogId
                             (chain attributes_playParams (wrapped_attributes rawItem)))
         | None => songId
         end
    else songId in
  let attributes := item_attributes item in
  let mediaAttributes := chain wrapped_attributes (item_mediaItem item) in
  let dataAttributes := chain wrapped_attributes (item_data item) in
  let songTitle :=
    JS.orElse (JS.orElse (JS.orElse (JS.orElse (JS.orElse
      (text attributes_name attributes)
      (text attributes_name mediaAttributes))
      (text attributes_name dataAttributes))
      (item_name item))
      (item_title item))
      "Unknown Song" in
  let songArtist :=
    JS.orElse (JS.orElse (JS.orElse (JS.orElse (JS.orElse
      (text attributes_artistName attributes)
      (text attributes_artistName mediaAttributes))
      (text attributes_artistName dataAttributes))
      (item_artistName item))
      (item_artist item))
      "Unknown Artist" in
  let songAlbum :=
    JS.orElse (JS.orElse (JS.orElse (JS.orElse (JS.orElse
      (text attributes_albumName attributes)
      (text attributes_albumName mediaAttributes))
      (text attributes_albumName dataAttributes))
      (item_albumName item))
      (item_album item))
      "" in
  let songArtwork :=
    JS.orElse (JS.orElse (JS.orElse (JS.orElse
      (text attributes_artwork_url attributes)
      (text attributes_artwork_url mediaAttributes))
      (text attributes_artwork_url dataAttributes))
      (item_artwork_url item))
      "" in
  let artworkUrl :=
    if JS.truthy songArtwork
    then JS.replace "{f}" "jpg" (JS.replace "{h}" "80" (JS.replace "{w}" "80" songArtwork))
    else "" in
  if negb (JS.truthy songId)
  then Alerted "Unable to identify the song. Please try again or use window.openPlaylistManager('songId', 'title', 'artist') in console."
  else openPlaylistManagerModal songId songTitle songArtist songAlbum artworkUrl.

End Plugin.

(* ------------------------------------------------------------------ *)
(** * Vocabulary of the statements *)

Section CacheVocabulary.

Import PlaylistCache.
Open Scope string_scope.
Open Scope Z_scope.

(** The entry stored for a playlist id: the first one with that id in the
    persisted cache record, when that record parses. *)
Definition storedEntry (ls : localStorage) (playlistId : string)
    : option CachedPlaylist :=
  match cacheItem ls with
  | Some (Doc cache) => find (fun p => String.eqb (id p) playlistId) cache
  | _ => None
  end.

(** The cache entry of a playlist "Gym", written at the given time. *)
Definition gym (cachedAt : Z) : CachedPlaylist :=
  {| id := "p.gym"; name := "Gym"; tracks := ["i.abc"; "1440881859"];
     lastModified := 0; artworkUrl := None; cachedAt := cachedAt |}.

(** A storage that holds the given cache and settings and no Modified-Set. *)
Definition storageWith (cache : list CachedPlaylist) (settings : option PartialSettings)
    : localStorage :=
  {| cacheItem := Some (Doc cache);
     settingsItem := option_map Doc settings;
     modifiedItem := None |}.

(** Settings as the settings page saves them with caching switched off. *)
Definition cachingOff : PartialSettings :=
  {| enabled_opt := Some false; expirationMinutes_opt := Some 5 |}.

(** A stand-in for the length of the stringified cache: two brackets and
    some hundred characters an entry. *)
Definition roughLength (cache : list CachedPlaylist) : nat :=
  2 + 120 * List.length cache.

End CacheVocabulary.

Section ModalVocabulary.

Import Modal.
Open Scope string_scope.
Open Scope list_scope.
Open Scope Z_scope.

(** The three parts of a run: how it ended, the world it left, and its
    events in order. *)
Definition outcomeOf {A : Type} (run : Result A * World * list event) : Result A :=
  fst (fst run).

Definition worldOf {A : Type} (run : Result A * World * list event) : World :=
  snd (fst run).

Definition eventsOf {A : Type} (run : Result A * World * list event) : list event :=
  snd run.

(** The Modified-Set as [getModifiedPlaylists] reads it after a run. *)
Definition modifiedAfter {A : Type} (run : Result A * World * list event) : list string :=
  fst (PlaylistCache.getModifiedPlaylists (storage (worldOf run))).

(** [m], run from [w], ends in a result, a world and events that satisfy
    [post]. *)
Definition ends {A : Type} (m : M A) (w : World)
    (post : Result A -> World -> list event -> Prop) : Prop :=
  match m w with
  | (r, w', ev) => post r w' ev
  end.

(** Events that come from outside the code or from its remote calls. *)
Definition outside (e : event) : Prop :=
  match e with
  | Request _ | Delay _ | ClosePressed | ConcurrentMark _ => True
  | _ => False
  end.

(** The events of fetching the pages of one playlist. *)
Definition paging (playlistId : string) (e : event) : Prop :=
  match e with
  | Request (GetPlaylistTracks p _) => p = playlistId
  | ClosePressed | ConcurrentMark _ => True
  | _ => False
  end.

(** The persisted Modified-Set can take a mark: it is missing, empty, or
    it parses. *)
Definition markable (stored : option (PlaylistCache.item (list string))) : Prop :=
  match stored with
  | Some (PlaylistCache.Garbage text) => JS.truthy text = false
  | _ => True
  end.

(** The events of a stretch of a pass that has not seen the abort flag. *)
Definition unaborted (e : event) : Prop :=
  outside e \/ e = AbortCheck false.

(** The events of a pass that stops at an abort check: the check that saw
    the flag is the last event, and no write comes before it. *)
Definition stopsAtCheck (ev : list event) : Prop :=
  exists before, ev = before ++ [AbortCheck true] /\ Forall unaborted before.

(** The entry found for [i] in a cache array carries the time [t]. *)
Definition stamped (t : Z) (cache : list PlaylistCache.CachedPlaylist) (i : string)
    : Prop :=
  exists entry,
    find (fun p => String.eqb (PlaylistCache.id p) i) cache = Some entry /\
    PlaylistCache.cachedAt entry = t.

(** A row of the modal whose tick differs from the state it was loaded
    with. *)
Definition changed (p : PlaylistCheckState) : bool :=
  negb (Bool.eqb (isInPlaylist p) (originalState p)).

Variable env : Env.

(** What a stretch of the run with events [ev] leaves as it was when the
    code itself writes nothing: the cache and the settings, and the
    Modified-Set too unless another task marks playlists meanwhile. *)
Record frame (P : event -> Prop) (w w' : World) (ev : list event) : Prop := mkFrame {
  frame_events : Forall P ev;
  frame_cache : PlaylistCache.cacheItem (storage w') = PlaylistCache.cacheItem (storage w);
  frame_settings :
    PlaylistCache.settingsItem (storage w') = PlaylistCache.settingsItem (storage w);
  frame_markable :
    markable (PlaylistCache.modifiedItem (storage w)) ->
    markable (PlaylistCache.modifiedItem (storage w'));
  frame_storage :
    (forall n, concurrentMark env n = None) -> storage w' = storage w;
  frame_time : (suspensions w <= suspensions w')%nat;
  frame_aborted : aborted w = true -> aborted w' = true
}.

(** What a run of [loadPlaylists] from [w] ends in. *)
Definition passEnds (w : World) (r : Result passOutcome) (w' : World)
    (ev : list event) : Prop :=
  (suspensions w <= suspensions w')%nat /\
  PlaylistCache.settingsItem (storage w') = PlaylistCache.settingsItem (storage w) /\
  (aborted w = true -> libraryPlaylists env <> None -> r = Ok Cancelled) /\
  match r with
  | Ok Cancelled => stopsAtCheck ev /\ frame (fun _ => True) w w' ev
  | Ok (Completed snapshot) =>
      Forall (fun e => e <> AbortCheck true) ev /\
      (suspensions w < suspensions w')%nat /\
      ((forall n, concurrentMark env n = None) ->
       snapshot = fst (PlaylistCache.getModifiedPlaylists (storage w))) /\
      (snapshot <> [] -> PlaylistCache.modifiedItem (storage w') = None) /\
      (forall userPlaylists playlist,
         libraryPlaylists env = Some userPlaylists ->
         In playlist userPlaylists -> editable playlist = true ->
         In (playlist_id playlist) snapshot ->
         PlaylistCache.enabled (fst (PlaylistCache.getSettings (storage w))) = true ->
         exists entry,
           storedEntry (storage w') (playlist_id playlist) = Some entry /\
           PlaylistCache.cachedAt entry = clock env (suspensions w'))
  | Ok Failed => Forall (fun e => e <> AbortCheck true) ev
  | Throw => False
  end.

(** The tracks [removeSongFromPlaylist] has fetched when it filters. *)
Definition fetchedTracks (playlistId : string) (w : World) : list Track :=
  fst (fst (fetchAllTracks env playlistId 0 [] w)).

End ModalVocabulary.

Section RunVocabulary.

Import Modal.
Open Scope string_scope.
Open Scope list_scope.
Open Scope Z_scope.

(** The order in which the modal shows its rows: the playlists that hold
    the song first, and within each group the most recently modified
    first. *)
Definition listedBefore (a b : PlaylistCheckState) : Prop :=
  (isInPlaylist a = true /\ isInPlaylist b = false) \/
  (isInPlaylist a = isInPlaylist b /\ lastModified b <= lastModified a).

(** A text without an opening brace. *)
Fixpoint plain (s : string) : bool :=
  match s with
  | EmptyString => true
  | String c rest => negb (Ascii.eqb c "{") && plain rest
  end.

(** Events of a remote call and of what the world does meanwhile. *)
Definition calling (e : event) : Prop :=
  match e with
  | Request _ | ClosePressed | ConcurrentMark _ => True
  | _ => False
  end.

(** The number of timed waits among the events of a run. *)
Definition delays (ev : list event) : nat :=
  List.length (filter (fun e => match e with Delay _ => true | _ => false end) ev).

(** A row once its change has been applied. *)
Definition committed (p : PlaylistCheckState) : PlaylistCheckState :=
  mkPlaylistCheckState (id p) (name p) (isInPlaylist p) (isInPlaylist p)
                       (lastModified p) (artworkUrl p).

(** The refs of the component are those of [w], [aborted] apart. *)
Definition sameRefs (w w' : World) : Prop :=
  playlists w' = playlists w /\ loading w' = loading w /\
  processing w' = processing w /\ cacheUsed w' = cacheUsed w.

(** The tracks the [while (hasMore)] loop collects in at most [rounds]
    rounds, from the pages the remote library serves. *)
Fixpoint collected (pages : Z -> option (list Track)) (rounds : nat) (offset : Z)
    (allTracks : list Track) : list Track :=
  match rounds with
  | O => allTracks
  | S rounds =>
      match pages offset with
      | None => allTracks
      | Some tracks =>
          if (List.length tracks =? 0)%nat then allTracks
          else if offset + limit >? 1000 then allTracks ++ tracks
          else if Z.of_nat (List.length tracks) =? limit
               then collected pages rounds (offset + limit) (allTracks ++ tracks)
               else allTracks ++ tracks
      end
  end.

(** The verdict the classification loop of [loadPlaylists] takes from the
    cache for a playlist: none when the playlist is in the Modified-Set it
    has read, when caching is disabled, or when the cache has no fresh
    entry. *)
Definition cacheAnswer (settings : PlaylistCache.CacheSettings) (searchId : string)
    (modifiedPlaylistIds : list string) (t : Z) (ls : PlaylistCache.localStorage)
    (playlist : Playlist) : option bool :=
  if JS.includesStr modifiedPlaylistIds (playlist_id playlist) then None
  else if PlaylistCache.enabled settings
       then fst (PlaylistCache.isSongInPlaylist t (playlist_id playlist) searchId ls)
       else None.

(** The rows of the playlists answered by the cache, and the playlists
    left to fetch. *)
Definition hitRows (answer : Playlist -> option bool) (sortedPlaylists : list Playlist)
    : list PlaylistCheckState :=
  flat_map (fun p => match answer p with
                     | Some verdict => [stateOf p verdict]
                     | None => []
                     end) sortedPlaylists.

Definition misses (answer : Playlist -> option bool) (sortedPlaylists : list Playlist)
    : list Playlist :=
  filter (fun p => match answer p with Some _ => false | None => true end)
         sortedPlaylists.

(** The ids a pass searches for: the id of the song and, for a catalog
    song of which the library has a copy, the id of that copy. *)
Definition searchIdsOf (env : Env) : list string :=
  if JS.startsWith (songId env) "i." then [songId env]
  else match librarySongs env (songId env) with
       | Some found => if JS.truthy found then [songId env; found] else [songId env]
       | None => [songId env]
       end.

(** The ids of the tracks that the [while (hasMore)] loop collects for a
    playlist: the tracks of the cache entry a pass makes for it. *)
Definition fetchedIds (env : Env) (playlistId : string) : list string :=
  allIdsOf (collected (playlistTracks env playlistId) 11 0 []).

(** Whether one of the search ids matches one of these ids. *)
Definition foundIn (env : Env) (searchIds : list string) (playlistId : string) : bool :=
  existsb (fun searchId => existsb (idMatches searchId) (fetchedIds env playlistId))
          searchIds.

(** A cache entry made for a playlist from its fetched tracks. *)
Definition cachedFor (env : Env) (playlist : Playlist)
    (entry : PlaylistCache.CachedPlaylist) : Prop :=
  PlaylistCache.id entry = playlist_id playlist /\
  PlaylistCache.tracks entry = fetchedIds env (playlist_id playlist).

(** The row of a playlist whose tracks have been fetched. *)
Definition fetchedRow (env : Env) (searchIds : list string) (playlist : Playlist)
    : PlaylistCheckState :=
  stateOf playlist (foundIn env searchIds (playlist_id playlist)).

(** An event other than a write to the cache. *)
Definition writeless (e : event) : Prop := forall c, e <> CacheWrite c.

(** The row the modal without the cache makes for a playlist: its tick
    tells whether a track fetched for the playlist matches the song. *)
Definition checkedRow (env : Env) (playlist : Playlist) : PlaylistCheckState :=
  stateOf playlist
    (existsb (isMatch (songId env))
             (collected (playlistTracks env (playlist_id playlist)) 11 0 [])).

(** The number of suspensions passed when the playlist listing has
    arrived: one for the listing, one more for the library lookup of a
    catalog song. *)
Definition listedAt (env : Env) (w : World) : nat :=
  (suspensions w + if JS.startsWith (songId env) "i." then 1 else 2)%nat.

(** The abort flag of [w] tells whether the user has closed the modal
    during a suspension after suspension [start]. *)
Definition closedSince (env : Env) (start : nat) (w : World) : Prop :=
  (start <= suspensions w)%nat /\
  (aborted w = true <->
   exists n, closePressedAt env = Some n /\ (start < n <= suspensions w)%nat).

Variable env : Env.

(** The call [applyChanges] makes for a changed row. *)
Definition operation (playlist : PlaylistCheckState) : M unit :=
  if isInPlaylist playlist
  then addSongToPlaylist env (id playlist)
  else removeSongFromPlaylist env (id playlist).

(** What a run of [applyChanges] from [w] ends in. *)
Definition applyEnds (w : World) (r : Result applyOutcome) (w' : World)
    (ev : list event) : Prop :=
  (forall q, In (Request q) ev ->
     exists row, In row (playlists w) /\ changed row = true /\
       match q with
       | PostPlaylistTracks p s =>
           p = id row /\ s = songId env /\ isInPlaylist row = true
       | GetPlaylistTracks p _ | PutPlaylistTracks p _ =>
           p = id row /\ isInPlaylist row = false
       | _ => False
       end) /\
  (musicTokens env = false ->
   forall q, In (Request q) ev -> exists p o, q = GetPlaylistTracks p o) /\
  loading w' = loading w /\ cacheUsed w' = cacheUsed w /\
  match r with
  | Ok NothingToApply =>
      existsb changed (playlists w) = false /\ ev = [ModalClosed] /\
      w' = setAborted true w
  | Ok Applied =>
      playlists w' = map committed (playlists w) /\
      aborted w' = true /\ processing w' = true /\
      (markable (PlaylistCache.modifiedItem (storage w)) ->
       forall row, In row (playlists w) -> changed row = true ->
         In (id row) (fst (PlaylistCache.getModifiedPlaylists (storage w'))))
  | Ok ApplyFailed =>
      (exists done rest,
         playlists w = done ++ rest /\
         playlists w' = map committed done ++ rest /\
         existsb changed rest = true) /\
      processing w' = false /\
      exists before,
        ev = before ++ [Alert "Failed to update playlists. Please try again."] /\
        Forall outside before
  | Throw => False
  end.

(** The requests of the start of a pass: the library lookup of the song
    and the playlist listing. *)
Definition listing (q : request) : Prop :=
  q = GetLibraryPlaylists \/ q = GetLibrarySongs (songId env).

(** What a run of [loadPlaylists] from [w] does, step by step: [w2] is the
    world in which the playlist listing has arrived. *)
Definition passTrace (w : World) (r : Result passOutcome) (w' : World)
    (ev : list event) : Prop :=
  loading w' = false /\ processing w' = processing w /\
  match libraryPlaylists env with
  | None =>
      r = Ok Failed /\ playlists w' = playlists w /\ cacheUsed w' = cacheUsed w /\
      (forall q, In (Request q) ev -> listing q) /\
      exists before,
        ev = before ++ [Alert "Error loading playlists. Please make sure you are signed in to Apple Music."] /\
        frame env outside w w' before
  | Some userPlaylists =>
      exists w2 ev2,
        frame env outside w w2 ev2 /\ suspensions w2 = listedAt env w /\
        let settings := fst (PlaylistCache.getSettings (storage w)) in
        let sortedPlaylists :=
          JS.sort byLastModifiedDate (filter editable userPlaylists) in
        let snapshot := fst (PlaylistCache.getModifiedPlaylists (storage w2)) in
        let answer := cacheAnswer settings (songId env) snapshot
                                  (clock env (suspensions w2)) (storage w2) in
        (forall q, In (Request q) ev ->
           listing q \/
           exists p offset,
             In p (misses answer sortedPlaylists) /\
             q = GetPlaylistTracks (playlist_id p) offset) /\
        match r with
        | Ok (Completed modifiedPlaylistIds) =>
            modifiedPlaylistIds = snapshot /\
            cacheUsed w' = (0 <? List.length (hitRows answer sortedPlaylists))%nat /\
            (forall p, In p (misses answer sortedPlaylists) ->
               In (Request (GetPlaylistTracks (playlist_id p) 0)) ev) /\
            playlists w'
              = JS.sort membersFirst
                  (hitRows answer sortedPlaylists
                   ++ map (fetchedRow env (searchIdsOf env))
                          (misses answer sortedPlaylists)) /\
            (PlaylistCache.enabled settings = true ->
             forall p, In p (misses answer sortedPlaylists) ->
               exists entry,
                 storedEntry (storage w') (playlist_id p) = Some entry /\
                 PlaylistCache.tracks entry = fetchedIds env (playlist_id p) /\
                 PlaylistCache.cachedAt entry = clock env (suspensions w')) /\
            ((forall n, concurrentMark env n = None) ->
             fst (PlaylistCache.getModifiedPlaylists (storage w')) = [])
        | Ok Cancelled => playlists w' = playlists w
        | _ => False
        end
  end.

End RunVocabulary.

Section PluginVocabulary.

Import Plugin.
Open Scope string_scope.
Open Scope list_scope.

(** The places of a context-menu item where the id of the song is looked
    for, in the order in which they are tried. *)
Definition idPlaces (item : Item) : list string :=
  let attributesParams := chain attributes_playParams (item_attributes item) in
  let mediaParams :=
    chain attributes_playParams (chain wrapped_attributes (item_mediaItem item)) in
  let dataParams :=
    chain attributes_playParams (chain wrapped_attributes (item_data item)) in
  let rawParams :=
    chain attributes_playParams (chain wrapped_attributes (item_rawItem item)) in
  [ item_id item;
    text params_catalogId attributesParams;
    text params_id attributesParams;
    text params_reportingId attributesParams;
    text params_catalogId (item_playParams item);
    text params_id (item_playParams item);
    item_catalogId item;
    text container_id (item_container item);
    text container_catalogId (item_container item);
    text params_catalogId (chain container_playParams (item_container item));
    item_songId item;
    item_trackId item;
    text wrapped_id (item_mediaItem item);
    text params_catalogId mediaParams;
    text params_id mediaParams;
    text wrapped_id (item_data item);
    text params_catalogId dataParams;
    text wrapped_id (item_rawItem item);
    text wrapped_catalogId (item_rawItem item);
    text params_catalogId rawParams ].

End PluginVocabulary.

(* ------------------------------------------------------------------ *)
(** * Concrete worlds *)

Section Scenarios.

Import Modal.
Open Scope string_scope.
Open Scope list_scope.
Open Scope Z_scope.

(** A storage without any of the three records. *)
Definition emptyStorage : PlaylistCache.localStorage :=
  PlaylistCache.mkLocalStorage None None None.

(** The modal as it is mounted, with the given rows already loaded. *)
Definition mounted (ls : PlaylistCache.localStorage) (rows : list PlaylistCheckState)
    : World :=
  mkWorld ls 0 rows false false false false.

(** A remote playlist served in pages of at most [limit] tracks; a page
    past the end is a 404. *)
Definition served (all : list Track) (offset : Z) : option (list Track) :=
  if (Z.to_nat offset <? List.length all)%nat
  then Some (firstn (Z.to_nat limit) (skipn (Z.to_nat offset) all))
  else None.

(** The library copy of the catalog song [n]. *)
Definition libraryTrack (n : string) : Track :=
  mkTrack ("i." ++ n)%string "library-songs" ("i." ++ n)%string n n.

(** An editable playlist of the user's library. *)
Definition libraryPlaylist (i n : string) (modifiedAt : Z) : Playlist :=
  mkPlaylist i "library-playlists" n (Some true) modifiedAt None.

(** A signed-in user whose calls all succeed, whom nobody interrupts:
    the song is a library song, the library holds the given playlists. *)
Definition calmEnv (song : string) (listing : list Playlist)
    (tracksOf : string -> list Track) : Env :=
  mkEnv song (fun _ => None) (Some listing) (fun p => served (tracksOf p))
        true (fun _ => true) (fun _ _ => true)
        (fun n => 1000 * Z.of_nat n) None (fun _ => None).

(** The same world, where the user closes the modal during suspension [n]. *)
Definition withClose (n : nat) (e : Env) : Env :=
  mkEnv (songId e) (librarySongs e) (libraryPlaylists e) (playlistTracks e)
        (musicTokens e) (postOk e) (putOk e) (clock e) (Some n) (concurrentMark e).

(** The same world, where another task marks [ids] during suspension [n]. *)
Definition withMark (n : nat) (ids : list string) (e : Env) : Env :=
  mkEnv (songId e) (librarySongs e) (libraryPlaylists e) (playlistTracks e)
        (musicTokens e) (postOk e) (putOk e) (clock e) (closePressedAt e)
        (fun k => if Nat.eqb k n then Some ids else concurrentMark e k).

(** The same world, where the append call is accepted for the playlists
    [ok] says. *)
Definition withPostOk (ok : string -> bool) (e : Env) : Env :=
  mkEnv (songId e) (librarySongs e) (libraryPlaylists e) (playlistTracks e)
        (musicTokens e) ok (putOk e) (clock e) (closePressedAt e) (concurrentMark e).

(** The playlist "Gym", last modified at 500 ms. *)
Definition gymPlaylist : Playlist := libraryPlaylist "p.gym" "Gym" 500.

(** A playlist that holds one track. *)
Definition oneTrack : list Track := [libraryTrack "777"].

(** A playlist that holds [n] tracks. *)
Definition longList (n : nat) : list Track := repeat (libraryTrack "777") n.

(** A row of the modal the user has ticked: the song is to be added. *)
Definition ticked (i n : string) : PlaylistCheckState :=
  mkPlaylistCheckState i n true false 0 None.

(** A storage whose only record is the Modified-Set [ids]. *)
Definition markedStorage (ids : list string) : PlaylistCache.localStorage :=
  PlaylistCache.mkLocalStorage None None (Some (PlaylistCache.Doc ids)).

End Scenarios.

(* ------------------------------------------------------------------ *)
(** * Properties of the cache *)

Section CacheProperties.

Import PlaylistCache.
Open Scope Z_scope.

Lemma getSettings_reads (ls : localStorage) : snd (getSettings ls) = ls.
Proof.
  unfold getSettings, bind, getItem, ret.
  destruct (settingsItem ls) as [[text|persisted]|]; simpl; try reflexivity.
  destruct (JS.truthy text); reflexivity.
Qed.

Lemma getSettings_run (ls : localStorage) :
  getSettings ls = (fst (getSettings ls), ls).
Proof. rewrite <- (getSettings_reads ls) at 3. apply surjective_pairing. Qed.

Lemma getCache_run (ls : localStorage) :
  getCache ls =
  (if enabled (fst (getSettings ls))
   then match cacheItem ls with
        | Some (Doc cache) => cache
        | _ => []
        end
   else [], ls).
Proof.
  unfold getCache, bind. pose proof (getSettings_reads ls) as Hsame.
  destruct (getSettings ls) as [settings ls']. simpl in *. subst ls'.
  destruct (enabled settings); simpl; unfold getItem, ret; [|reflexivity].
  destruct (cacheItem ls) as [[text|cache]|]; simpl; try reflexivity.
  destruct (JS.truthy text); reflexivity.
Qed.

Lemma getCachedPlaylist_run (now : Z) (playlistId : string) (ls : localStorage) :
  getCachedPlaylist now playlistId ls =
  (if enabled (fst (getSettings ls))
   then match storedEntry ls playlistId with
        | Some p =>
            if now - cachedAt p >? expirationMinutes (fst (getSettings ls)) * 60 * 1000
            then None else Some p
        | None => None
        end
   else None, ls).
Proof.
  unfold getCachedPlaylist, bind, storedEntry. rewrite getCache_run.
  remember (fst (getSettings ls)) as settings eqn:E.
  destruct (enabled settings); simpl; unfold ret; [|reflexivity].
  destruct (cacheItem ls) as [[text|cache]|]; simpl; try reflexivity.
  destruct (find _ cache) as [p|]; [|reflexivity].
  rewrite getSettings_run, <- E.
  destruct (_ >? _); reflexivity.
Qed.

Lemma getModifiedPlaylists_run (ls : localStorage) :
  getModifiedPlaylists ls =
  (match modifiedItem ls with Some (Doc modified) => modified | _ => [] end, ls).
Proof.
  unfold getModifiedPlaylists, bind, getItem, ret.
  destruct (modifiedItem ls) as [[text|modified]|]; simpl; try reflexivity.
  destruct (JS.truthy text); reflexivity.
Qed.

(** C9.  Whatever is persisted under the settings key, [getSettings]
    leaves the storage as it is; when the record is missing or does not
    parse it returns exactly the defaults [{enabled: true,
    expirationMinutes: 5}]; when it parses, each field is the persisted
    one if the record has it and the default otherwise. *)
Theorem getSettings_defaults_merged (ls : localStorage) :
  snd (getSettings ls) = ls /\
  match settingsItem ls with
  | Some (Doc persisted) =>
      enabled (fst (getSettings ls)) =
        match enabled_opt persisted with Some b => b | None => true end /\
      expirationMinutes (fst (getSettings ls)) =
        match expirationMinutes_opt persisted with Some m => m | None => 5 end
  | Some (Garbage _) | None =>
      fst (getSettings ls) = {| enabled := true; expirationMinutes := 5 |}
  end.
Proof.
  split; [apply getSettings_reads|].
  unfold getSettings, bind, getItem, ret.
  destruct (settingsItem ls) as [[text|persisted]|]; simpl.
  - destruct (JS.truthy text); reflexivity.
  - split; reflexivity.
  - reflexivity.
Qed.

Lemma getCachedPlaylist_returns (now : Z) (playlistId : string) (ls : localStorage)
    (p : CachedPlaylist) :
  fst (getCachedPlaylist now playlistId ls) = Some p <->
  storedEntry ls playlistId = Some p /\ enabled (fst (getSettings ls)) = true /\
  now - cachedAt p <= expirationMinutes (fst (getSettings ls)) * 60 * 1000.
Proof.
  rewrite getCachedPlaylist_run. simpl.
  destruct (enabled (fst (getSettings ls))).
  - destruct (storedEntry ls playlistId) as [q|].
    + destruct (Z.gtb_spec (now - cachedAt q)
                  (expirationMinutes (fst (getSettings ls)) * 60 * 1000))
        as [Hgt|Hle]; split.
      * discriminate.
      * intros (Hq & _ & Hage). injection Hq as ->. lia.
      * intros H. injection H as ->. auto.
      * intros (Hq & _). exact Hq.
    + split; [discriminate|]. intros (H & _). discriminate.
  - split; [discriminate|]. intros (_ & H & _). discriminate.
Qed.

(** C7.  [getCachedPlaylist] never changes the storage; it returns an
    entry exactly when that entry is the one stored for the id, caching is
    enabled, and [now - cachedAt <= expirationMinutes * 60s]; an entry
    cached one second earlier than the limit is reported absent, one
    cached one second later than the limit is reported present. *)
Theorem getCachedPlaylist_spec (now : Z) (playlistId : string) (ls : localStorage) :
  let settings := fst (getSettings ls) in
  let limit := expirationMinutes settings * 60 * 1000 in
  snd (getCachedPlaylist now playlistId ls) = ls /\
  (forall p,
     fst (getCachedPlaylist now playlistId ls) = Some p <->
     storedEntry ls playlistId = Some p /\ enabled settings = true /\
     now - cachedAt p <= limit) /\
  (forall p,
     storedEntry ls playlistId = Some p -> enabled settings = true ->
     cachedAt p = now - limit - 1000 ->
     fst (getCachedPlaylist now playlistId ls) = None) /\
  (forall p,
     storedEntry ls playlistId = Some p -> enabled settings = true ->
     cachedAt p = now - limit + 1000 ->
     fst (getCachedPlaylist now playlistId ls) = Some p).
Proof.
  intros settings limit.
  split; [rewrite getCachedPlaylist_run; reflexivity|].
  split; [intros p; apply getCachedPlaylist_returns|]. split.
  - intros p Hst Hen Hat.
    destruct (fst (getCachedPlaylist now playlistId ls)) as [q|] eqn:E; [|reflexivity].
    apply getCachedPlaylist_returns in E. destruct E as (Hq & _ & Hage).
    fold settings in Hage. fold limit in Hage.
    rewrite Hst in Hq. injection Hq as <-. lia.
  - intros p Hst Hen Hat. apply getCachedPlaylist_returns.
    fold settings. fold limit. repeat split; auto. lia.
Qed.

(** With the default five minutes and [now] at one hour: an entry cached
    299 s ago is returned, and the storage is not touched. *)
Lemma getCachedPlaylist_spec_witness :
  getCachedPlaylist 3600000 "p.gym" (storageWith [gym 3301000] None) =
  (Some (gym 3301000), storageWith [gym 3301000] None).
Proof.
  pose proof (getCachedPlaylist_spec 3600000 "p.gym" (storageWith [gym 3301000] None))
    as (Hsame & _ & _ & Hfresh).
  rewrite (surjective_pairing (getCachedPlaylist _ _ _)), Hsame.
  rewrite (Hfresh (gym 3301000)); reflexivity.
Defined.

Lemma saveSettings_run (settings : PartialSettings) (ls : localStorage) :
  saveSettings settings ls =
  (tt, {| cacheItem := cacheItem ls;
          settingsItem :=
            Some (Doc {| enabled_opt :=
                           Some (enabled (spread (fst (getSettings ls)) settings));
                         expirationMinutes_opt :=
                           Some (expirationMinutes (spread (fst (getSettings ls)) settings)) |});
          modifiedItem := modifiedItem ls |}).
Proof. unfold saveSettings, bind. rewrite getSettings_run. reflexivity. Qed.

Lemma updatePlaylists_disabled (now : Z) (playlists : list CachedPlaylist)
    (ls : localStorage) :
  enabled (fst (getSettings ls)) = false ->
  updatePlaylists now playlists ls = (tt, ls).
Proof.
  intros Hoff. unfold updatePlaylists, bind. rewrite getSettings_run, Hoff.
  reflexivity.
Qed.

(** C8.  While caching is disabled, every read of the cache misses
    ([getCache] is empty, [getCachedPlaylist] and [isSongInPlaylist] answer
    null), [updatePlaylists] writes nothing, and none of them changes the
    storage; after caching is enabled again through [saveSettings], with no
    write to the cache in between, the persisted cache record is the same
    and the stored entries are returned again, as long as they are not
    expired by their own [cachedAt]. *)
Theorem disabled_cache_is_untouched (now : Z) (playlistId songId : string)
    (playlists : list CachedPlaylist) (ls : localStorage) :
  enabled (fst (getSettings ls)) = false ->
  getCache ls = ([], ls) /\
  getCachedPlaylist now playlistId ls = (None, ls) /\
  isSongInPlaylist now playlistId songId ls = (None, ls) /\
  updatePlaylists now playlists ls = (tt, ls) /\
  let reenabled :=
    snd (saveSettings {| enabled_opt := Some true; expirationMinutes_opt := None |}
                      (snd (updatePlaylists now playlists ls))) in
  cacheItem reenabled = cacheItem ls /\
  forall p,
    fst (getCachedPlaylist now playlistId reenabled) = Some p <->
    storedEntry ls playlistId = Some p /\
    now - cachedAt p <= expirationMinutes (fst (getSettings ls)) * 60 * 1000.
Proof.
  intros Hoff.
  assert (Hget : getCachedPlaylist now playlistId ls = (None, ls)).
  { rewrite getCachedPlaylist_run, Hoff. reflexivity. }
  split; [rewrite getCache_run, Hoff; reflexivity|].
  split; [exact Hget|].
  split; [unfold isSongInPlaylist, bind; rewrite Hget; reflexivity|].
  split; [apply updatePlaylists_disabled, Hoff|].
  rewrite (updatePlaylists_disabled now playlists ls Hoff). simpl.
  rewrite saveSettings_run. simpl. split; [reflexivity|].
  intros p.
  match goal with
  | |- context [getCachedPlaylist now playlistId ?l] => set (ls' := l)
  end.
  rewrite getCachedPlaylist_returns.
  assert (Hen : enabled (fst (getSettings ls')) = true) by reflexivity.
  assert (Hexp : expirationMinutes (fst (getSettings ls')) =
                 expirationMinutes (fst (getSettings ls))) by reflexivity.
  assert (Hst : storedEntry ls' playlistId = storedEntry ls playlistId) by reflexivity.
  rewrite Hen, Hexp, Hst. tauto.
Qed.

(** Scenario D: "Gym", cached two minutes ago, is hidden while caching is
    off and is returned again once caching is switched back on. *)
Lemma disabled_cache_is_untouched_witness :
  getCachedPlaylist 3600000 "p.gym" (storageWith [gym 3480000] (Some cachingOff)) =
    (None, storageWith [gym 3480000] (Some cachingOff)) /\
  fst (getCachedPlaylist 3600000 "p.gym"
         (snd (saveSettings {| enabled_opt := Some true; expirationMinutes_opt := None |}
                 (snd (updatePlaylists 3600000 [gym 0]
                         (storageWith [gym 3480000] (Some cachingOff)))))))
    = Some (gym 3480000).
Proof.
  destruct (disabled_cache_is_untouched 3600000 "p.gym" "i.abc" [gym 0]
              (storageWith [gym 3480000] (Some cachingOff)) eq_refl)
    as (_ & Hmiss & _ & _ & _ & Hback).
  split; [exact Hmiss|].
  apply Hback. split; [reflexivity|]. simpl. lia.
Defined.

(** C10.  While caching is disabled [getStats] reports no playlist, no
    expired playlist and no oldest entry, whatever the persisted cache
    record holds; its size is still the rounded length of the persisted
    cache text in KB, and its modified count is still the length of the
    persisted Modified-Set; the storage is not changed. *)
Theorem getStats_while_disabled (stringifiedLength : list CachedPlaylist -> nat)
    (now : Z) (ls : localStorage) :
  enabled (fst (getSettings ls)) = false ->
  getStats stringifiedLength now ls =
  ({| totalPlaylists := 0;
      expiredPlaylists := 0;
      modifiedPlaylists := List.length (fst (getModifiedPlaylists ls));
      cacheSizeKB := JS.roundDiv (textLength stringifiedLength (cacheItem ls)) 1024;
      oldestCache := None |}, ls).
Proof.
  intros Hoff. unfold getStats, bind.
  rewrite getCache_run, Hoff, getSettings_run, getModifiedPlaylists_run.
  reflexivity.
Qed.

Lemma getStats_while_disabled_witness :
  fst (getStats roughLength 3600000
         {| cacheItem := Some (Doc (repeat (gym 0) 20));
            settingsItem := Some (Doc cachingOff);
            modifiedItem := Some (Doc ["p.gym"; "p.run"]) |}) =
  {| totalPlaylists := 0; expiredPlaylists := 0; modifiedPlaylists := 2;
     cacheSizeKB := 2; oldestCache := None |}.
Proof.
  rewrite getStats_while_disabled by reflexivity. reflexivity.
Defined.

End CacheProperties.

(* ------------------------------------------------------------------ *)
(** * What the modal does on these worlds *)

Section ModalRuns.

Import Modal.
Open Scope string_scope.
Open Scope list_scope.
Open Scope Z_scope.

(** C1, against the claim.  The song is ticked for "Gym" and for "Run";
    the append to "Gym" succeeds, the append to "Run" is rejected.  The
    change to "Gym" has succeeded (its row is committed), yet the run ends
    in the alert with no write to the Modified-Set, which does not hold
    "Gym".  And when the persisted Modified-Set does not parse, a batch
    whose only change succeeds leaves it as it is: nothing is flagged. *)
Lemma applyChanges_failure_marks_nothing :
  let run :=
    applyChanges (withPostOk (fun p => String.eqb p "p.gym")
                             (calmEnv "i.song" [] (fun _ => [])))
                 (mounted emptyStorage [ticked "p.gym" "Gym"; ticked "p.run" "Run"]) in
  let garbled :=
    applyChanges (calmEnv "i.song" [] (fun _ => []))
                 (mounted (PlaylistCache.mkLocalStorage None None
                             (Some (PlaylistCache.Garbage "[p.gym")))
                          [ticked "p.gym" "Gym"]) in
  (outcomeOf run = Ok ApplyFailed /\
   eventsOf run =
     [Request (PostPlaylistTracks "p.gym" "i.song"); Delay 200;
      Request (PostPlaylistTracks "p.run" "i.song");
      Alert "Failed to update playlists. Please try again."] /\
   map originalState (playlists (worldOf run)) = [true; false] /\
   modifiedAfter run = []) /\
  (outcomeOf garbled = Ok Applied /\
   eventsOf garbled =
     [Request (PostPlaylistTracks "p.gym" "i.song");
      CacheWrite (MarkPlaylistsModified ["p.gym"]); ModalClosed] /\
   PlaylistCache.modifiedItem (storage (worldOf garbled))
     = Some (PlaylistCache.Garbage "[p.gym") /\
   modifiedAfter garbled = []).
Proof. vm_compute. repeat split; reflexivity. Qed.

(** C2, against the claim.  "Gym" and a playlist that is no longer in
    the listing are in the Modified-Set when the pass starts; while the
    pass fetches the tracks of "Gym", another task marks "Run".  The pass
    completes and removes the whole record: "Run", which was not in the
    snapshot, is gone as well, and the playlist that is not in the listing
    has no cache entry.  With caching disabled, the pass empties the
    Modified-Set and writes no cache entry at all. *)
Lemma loadPlaylists_clear_drops_concurrent_mark :
  let run :=
    loadPlaylists (withMark 2 ["p.run"]
                     (calmEnv "i.song" [gymPlaylist] (fun _ => oneTrack)))
                  (mounted (markedStorage ["p.gym"; "p.old"]) []) in
  let uncached :=
    loadPlaylists (calmEnv "i.song" [gymPlaylist] (fun _ => oneTrack))
                  (mounted (PlaylistCache.mkLocalStorage None
                              (Some (PlaylistCache.Doc cachingOff))
                              (Some (PlaylistCache.Doc ["p.gym"])))
                           []) in
  (outcomeOf run = Ok (Completed ["p.gym"; "p.old"]) /\
   eventsOf run =
     [Request GetLibraryPlaylists; AbortCheck false; AbortCheck false;
      Request (GetPlaylistTracks "p.gym" 0); ConcurrentMark ["p.run"];
      CacheWrite (UpdatePlaylists
        [PlaylistCache.mkCachedPlaylist "p.gym" "Gym" ["i.777"; "777"] 2000 None 2000]);
      CacheWrite ClearModifiedPlaylists] /\
   PlaylistCache.modifiedItem (storage (worldOf run)) = None /\
   modifiedAfter run = [] /\
   storedEntry (storage (worldOf run)) "p.old" = None) /\
  (outcomeOf uncached = Ok (Completed ["p.gym"]) /\
   modifiedAfter uncached = [] /\
   PlaylistCache.cacheItem (storage (worldOf uncached)) = None).
Proof. vm_compute. repeat split; reflexivity. Qed.

(** C3, against the claim.  "Gym" has 150 tracks, two pages.  The user
    closes the modal while the first page is in flight.  The second page
    is fetched all the same, with no abort check before it, and since this
    was the last batch the pass goes on to upsert the playlist into the
    cache. *)
Lemma loadPlaylists_upserts_after_close :
  let run :=
    loadPlaylists (withClose 2 (calmEnv "i.song" [gymPlaylist] (fun _ => longList 150)))
                  (mounted emptyStorage []) in
  outcomeOf run = Ok (Completed []) /\
  eventsOf run =
    [Request GetLibraryPlaylists; AbortCheck false; AbortCheck false;
     Request (GetPlaylistTracks "p.gym" 0); ClosePressed;
     Request (GetPlaylistTracks "p.gym" 100);
     CacheWrite (UpdatePlaylists
       [PlaylistCache.mkCachedPlaylist "p.gym" "Gym" (allIdsOf (longList 150))
                                       3000 None 3000])] /\
  PlaylistCache.cacheItem (storage (worldOf run)) =
    Some (PlaylistCache.Doc
       [PlaylistCache.mkCachedPlaylist "p.gym" "Gym" (allIdsOf (longList 150))
                                       3000 None 3000]).
Proof. vm_compute. repeat split; reflexivity. Qed.

(** C4, against the claim.  The playlist holds the song twice, with
    another track in between.  The replacement list holds the other track
    only: the second copy of the song is excluded as well. *)
Lemma removeSong_excludes_second_copy :
  let run :=
    removeSongFromPlaylist
      (calmEnv "777" []
         (fun _ => [libraryTrack "777"; libraryTrack "123"; libraryTrack "777"]))
      "p.gym" (mounted emptyStorage []) in
  outcomeOf run = Ok tt /\
  eventsOf run =
    [Request (GetPlaylistTracks "p.gym" 0);
     Request (PutPlaylistTracks "p.gym" [mkTrackRef "i.123" "library-songs"])].
Proof. vm_compute. split; reflexivity. Qed.

(** C5, on the code.  A playlist of 1200 tracks: the loop asks for eleven
    pages, the last one at offset 1000, and collects 1100 tracks. *)
Theorem fetchAllTracks_collects_1100_of_1200 :
  let run :=
    fetchAllTracks (calmEnv "777" [] (fun _ => longList 1200)) "p.big" 0 []
                   (mounted emptyStorage []) in
  List.length (fst (fst run)) = 1100%nat /\
  snd run =
    map (fun k => Request (GetPlaylistTracks "p.big" (100 * Z.of_nat k))) (seq 0 11).
Proof. vm_compute. split; reflexivity. Qed.

(** C6, on the code.  Two changes, both accepted: the code waits 200 ms
    between the two calls although two is below the threshold. *)
Theorem applyChanges_delays_small_batch :
  let run :=
    applyChanges (calmEnv "i.song" [] (fun _ => []))
                 (mounted emptyStorage [ticked "p.gym" "Gym"; ticked "p.run" "Run"]) in
  outcomeOf run = Ok Applied /\
  eventsOf run =
    [Request (PostPlaylistTracks "p.gym" "i.song"); Delay 200;
     Request (PostPlaylistTracks "p.run" "i.song");
     CacheWrite (MarkPlaylistsModified ["p.gym"; "p.run"]); ModalClosed].
Proof. vm_compute. split; reflexivity. Qed.

End ModalRuns.

(* ------------------------------------------------------------------ *)
(** * Reasoning about runs of the modal *)

Section ModalLogic.

Import Modal.
Open Scope string_scope.
Open Scope list_scope.
Open Scope Z_scope.

Variable env : Env.

Lemma ends_run {A : Type} (m : M A) (w : World) post r w' ev :
  ends m w post -> m w = (r, w', ev) -> post r w' ev.
Proof. unfold ends. intros H E. rewrite E in H. exact H. Qed.

Lemma ends_weaken {A : Type} (m : M A) (w : World) (post post' : _ -> _ -> _ -> Prop) :
  ends m w post -> (forall r w' ev, post r w' ev -> post' r w' ev) -> ends m w post'.
Proof. unfold ends. destruct (m w) as [[r w'] ev]. auto. Qed.

Lemma ends_bind {A B : Type} (m : M A) (f : A -> M B) (w : World) post :
  ends m w (fun r w1 ev1 =>
    match r with
    | Ok a => ends (f a) w1 (fun r2 w2 ev2 => post r2 w2 (ev1 ++ ev2))
    | Throw => post Throw w1 ev1
    end) ->
  ends (bind m f) w post.
Proof.
  unfold ends, bind. destruct (m w) as [[[a|] w1] ev1]; [|auto].
  destruct (f a w1) as [[r2 w2] ev2]. auto.
Qed.

Lemma paging_outside (playlistId : string) (e : event) :
  paging playlistId e -> outside e.
Proof. destruct e as [[]| | | | | | |]; simpl; auto. Qed.

Lemma frame_refl (P : event -> Prop) (w : World) : frame env P w w [].
Proof. split; auto. Qed.

Lemma frame_trans (P : event -> Prop) (w w1 w2 : World) (ev1 ev2 : list event) :
  frame env P w w1 ev1 -> frame env P w1 w2 ev2 -> frame env P w w2 (ev1 ++ ev2).
Proof.
  intros [] []. split.
  - apply Forall_app; auto.
  - congruence.
  - congruence.
  - auto.
  - intros Hq. rewrite frame_storage1, frame_storage0; auto.
  - lia.
  - auto.
Qed.

Lemma frame_weaken (P Q : event -> Prop) (w w' : World) (ev : list event) :
  (forall e, P e -> Q e) -> frame env P w w' ev -> frame env Q w w' ev.
Proof. intros HPQ []. split; auto. eapply Forall_impl; eauto. Qed.

Lemma markPlaylistsModified_frame (ids : list string) (ls : PlaylistCache.localStorage) :
  let ls' := snd (PlaylistCache.markPlaylistsModified ids ls) in
  PlaylistCache.cacheItem ls' = PlaylistCache.cacheItem ls /\
  PlaylistCache.settingsItem ls' = PlaylistCache.settingsItem ls /\
  (markable (PlaylistCache.modifiedItem ls) -> markable (PlaylistCache.modifiedItem ls')).
Proof.
  unfold PlaylistCache.markPlaylistsModified, PlaylistCache.bind, PlaylistCache.getItem.
  destruct ls as [c s [[text|modified]|]]; simpl; auto.
  destruct (JS.truthy text) eqn:E; simpl; repeat split; auto; discriminate.
Qed.

Lemma await_frame (P : event -> Prop) (e : event) (w : World) :
  P e -> P ClosePressed -> (forall ids, P (ConcurrentMark ids)) ->
  ends (await env e) w (fun r w' ev => r = Ok tt /\ frame env P w w' ev).
Proof.
  intros He Hc Hm. unfold ends, await. split; [reflexivity|]. split; simpl.
  - constructor; [exact He|]. apply Forall_app. split.
    + destruct (concurrentMark env (S (suspensions w))); auto.
    + destruct (match closePressedAt env with Some k => _ | None => _ end); auto.
  - destruct (concurrentMark env (S (suspensions w))); [|reflexivity].
    apply markPlaylistsModified_frame.
  - destruct (concurrentMark env (S (suspensions w))); [|reflexivity].
    apply markPlaylistsModified_frame.
  - destruct (concurrentMark env (S (suspensions w))); [|auto].
    apply markPlaylistsModified_frame.
  - intros Hq. rewrite Hq. reflexivity.
  - lia.
  - intros Ha. rewrite Ha. reflexivity.
Qed.

Lemma await_tick (e : event) (w : World) :
  outside e ->
  ends (await env e) w
       (fun r w' ev =>
          r = Ok tt /\ frame env outside w w' ev /\ suspensions w' = S (suspensions w)).
Proof.
  intros He.
  pose proof (await_frame outside e w He I (fun _ => I)) as H.
  unfold ends in *. destruct (await env e w) as [[r w'] ev] eqn:E.
  destruct H as [-> Hf]. repeat split; try apply Hf.
  unfold await in E. injection E as <- _. reflexivity.
Qed.

Lemma v3_tracks_frame (playlistId : string) (offset : Z) (w : World) :
  ends (v3_tracks env playlistId offset) w
       (fun _ w' ev => frame env (paging playlistId) w w' ev).
Proof.
  unfold v3_tracks. apply ends_bind.
  eapply ends_weaken; [apply (await_frame (paging playlistId)); simpl; auto|].
  intros r w' ev [-> Hf]. unfold ends.
  destruct (playlistTracks env playlistId offset); simpl;
    rewrite app_nil_r; exact Hf.
Qed.

Lemma fetchAllTracks_frame (playlistId : string) (offset : Z) (allTracks : list Track)
    (w : World) :
  frame env (paging playlistId) w
        (snd (fst (fetchAllTracks env playlistId offset allTracks w)))
        (snd (fetchAllTracks env playlistId offset allTracks w)).
Proof.
  funelim (fetchAllTracks env playlistId offset allTracks w).
  all: pose proof (v3_tracks_frame playlistId offset w) as Hv; unfold ends in Hv.
  all: match goal with
       | E : v3_tracks _ _ _ _ = _ |- _ => rewrite E in Hv
       end; simpl; auto.
  destruct (Z.of_nat (List.length tracks) =? limit); simpl; auto.
  destruct (fetchAllTracks env playlistId (offset + limit) (allTracks ++ tracks) w1)
    as [[all w2] ev2].
  simpl in *. eapply frame_trans; eauto.
Qed.

Lemma v3_tracks_page (playlistId : string) (offset : Z) (w w1 : World)
    (tracks : list Track) (ev1 : list event) :
  v3_tracks env playlistId offset w = (Ok tracks, w1, ev1) ->
  playlistTracks env playlistId offset = Some tracks.
Proof.
  unfold v3_tracks, bind. destruct (await env _ w) as [[[[]|] w0] ev0]; [|discriminate].
  destruct (playlistTracks env playlistId offset) as [page|]; simpl; [|discriminate].
  intros E. injection E as <- _ _. reflexivity.
Qed.

(** The cap the loop implements: from an offset of at most 1000, and with
    pages of at most [limit] tracks, it adds at most [1100 - offset]
    tracks to [allTracks]: eleven pages from offset 0. *)
Lemma fetchAllTracks_cap (playlistId : string) (offset : Z) (allTracks : list Track)
    (w : World) :
  (forall o page, playlistTracks env playlistId o = Some page ->
                  Z.of_nat (List.length page) <= limit) ->
  offset <= 1000 ->
  Z.of_nat (List.length (fst (fst (fetchAllTracks env playlistId offset allTracks w))))
    + offset
  <= Z.of_nat (List.length allTracks) + 1100.
Proof.
  intros Hpages.
  funelim (fetchAllTracks env playlistId offset allTracks w); intros Hoff; simpl.
  1, 2: lia.
  all: match goal with
       | E : v3_tracks _ _ _ _ = _ |- _ =>
           pose proof (Hpages _ _ (v3_tracks_page _ _ _ E)) as Hpage
       end; unfold limit in *.
  - rewrite length_app. lia.
  - destruct (Z.of_nat (List.length tracks) =? 100).
    + destruct (fetchAllTracks env playlistId (offset + 100) (allTracks ++ tracks) w1)
        as [[all w2] ev2].
      simpl in *. rewrite length_app in H.
      assert (Hnext : offset + 100 <= 1000).
      { pose proof e as Hcap. rewrite Z.gtb_ltb in Hcap.
        apply Z.ltb_ge in Hcap. exact Hcap. }
      specialize (H Hpages Hnext). lia.
    + simpl. rewrite length_app. lia.
Qed.

Lemma fetchTracks_ends (playlistId : string) (w : World) :
  ends (fetchTracks env playlistId) w
       (fun r w' ev =>
          r = Ok (fst (fst (fetchAllTracks env playlistId 0 [] w))) /\
          frame env (paging playlistId) w w' ev).
Proof.
  unfold ends, fetchTracks.
  pose proof (fetchAllTracks_frame playlistId 0 [] w) as Hf.
  destruct (fetchAllTracks env playlistId 0 [] w) as [[all w1] ev1]. auto.
Qed.

Lemma checkSong_ends (playlistId playlistName : string) (searchIds : list string)
    (w : World) :
  ends (checkSongInPlaylistWithCache env playlistId playlistName searchIds) w
       (fun r w' ev =>
          (exists found cached,
             r = Ok (found, cached) /\ PlaylistCache.id cached = playlistId) /\
          frame env (paging playlistId) w w' ev).
Proof.
  unfold checkSongInPlaylistWithCache. apply ends_bind.
  eapply ends_weaken; [apply fetchTracks_ends|].
  intros r w' ev [-> Hf]. unfold ends; simpl. rewrite app_nil_r.
  split; [eauto|exact Hf].
Qed.

Lemma checkBatch_ends (batch : list Playlist) (searchIds : list string)
    (playlistsToCache : list PlaylistCache.CachedPlaylist) (w : World) :
  ends (checkBatch env batch searchIds playlistsToCache) w
       (fun r w' ev =>
          (exists states toCache,
             r = Ok (states, toCache) /\
             map PlaylistCache.id toCache =
               map PlaylistCache.id playlistsToCache ++ map playlist_id batch) /\
          frame env outside w w' ev).
Proof.
  revert playlistsToCache w.
  induction batch as [|playlist rest IH]; intros playlistsToCache w; simpl.
  - unfold ends; simpl. rewrite app_nil_r. split; [eauto|apply frame_refl].
  - apply ends_bind. eapply ends_weaken; [apply checkSong_ends|].
    intros r w1 ev1 [(found & cached & -> & Hid) Hf1]. simpl.
    apply ends_bind. eapply ends_weaken; [apply IH|].
    intros r2 w2 ev2 [(states & toCache & -> & Hids) Hf2]. unfold ends; simpl.
    rewrite app_nil_r. split.
    + do 2 eexists. split; [reflexivity|].
      rewrite Hids, map_app. simpl. rewrite Hid, <- app_assoc. reflexivity.
    + eapply frame_trans; [|exact Hf2].
      eapply frame_weaken; [apply paging_outside|exact Hf1].
Qed.

Lemma stopsAtCheck_later (pre ev : list event) :
  Forall unaborted pre -> stopsAtCheck ev -> stopsAtCheck (pre ++ ev).
Proof.
  intros Hpre (before & -> & Hb). exists (pre ++ before).
  rewrite app_assoc. split; [reflexivity|]. apply Forall_app; auto.
Qed.

Lemma outside_unaborted (ev : list event) :
  Forall outside ev -> Forall unaborted ev.
Proof. apply Forall_impl. intros e He. left. exact He. Qed.

Lemma slice_skipn {A : Type} (l : list A) (i : nat) :
  JS.slice l i (i + batchSize) ++ skipn (i + batchSize) l = skipn i l.
Proof.
  unfold JS.slice. replace (i + batchSize - i)%nat with batchSize by lia.
  rewrite Nat.add_comm, <- skipn_skipn. apply firstn_skipn.
Qed.

Lemma delay_frame (ms : Z) (w : World) :
  ends (delay env ms) w (fun r w' ev => r = Ok tt /\ frame env outside w w' ev).
Proof. apply await_frame; simpl; auto. Qed.

Lemma runBatches_ends (playlistsToFetch : list Playlist) (searchIds : list string)
    (i : nat) (playlistStates : list PlaylistCheckState)
    (playlistsToCache : list PlaylistCache.CachedPlaylist) (w : World) :
  ends (runBatches env playlistsToFetch searchIds i playlistStates playlistsToCache) w
       (fun r w' ev =>
          frame env (fun _ => True) w w' ev /\
          match r with
          | Ok None => stopsAtCheck ev
          | Ok (Some (_, toCache)) =>
              Forall unaborted ev /\
              map PlaylistCache.id toCache =
                map PlaylistCache.id playlistsToCache
                ++ map playlist_id (skipn i playlistsToFetch)
          | Throw => False
          end).
Proof.
  unfold ends.
  funelim (runBatches env playlistsToFetch searchIds i playlistStates playlistsToCache w).
  2: { split; [apply frame_refl|]. split; [constructor|].
       rewrite skipn_all2, app_nil_r; [reflexivity|].
       apply Nat.ltb_ge. assumption. }
  - destruct (aborted w) eqn:Hab.
    + split.
      * split; simpl; auto.
      * exists []. split; [reflexivity|constructor].
    + pose proof (checkBatch_ends (JS.slice playlistsToFetch i (i + batchSize))
                    searchIds playlistsToCache w) as Hb.
      unfold ends in Hb.
      destruct (checkBatch env _ searchIds playlistsToCache w) as [[rb w1] ev1].
      destruct Hb as [(batchStates & toCache & -> & Hids) Hf1].
      set (pause := if (i + batchSize <? List.length playlistsToFetch)%nat
                       && negb (aborted w1)
                    then delay env 100 else ret tt).
      assert (Hp : ends pause w1 (fun _ w2 ev2 => frame env outside w1 w2 ev2)).
      { subst pause.
        destruct ((i + batchSize <? List.length playlistsToFetch)%nat && negb (aborted w1)).
        - eapply ends_weaken; [apply delay_frame|]. intros ? ? ? [_ Hf]. exact Hf.
        - unfold ends; simpl. apply frame_refl. }
      unfold ends in Hp. destruct (pause w1) as [[rp w2] ev2].
      specialize (H (Ok (batchStates, toCache), w1) ev1 (Ok (batchStates, toCache)) w1
                    (batchStates, toCache) batchStates toCache (rp, w2) ev2 rp w2).
      destruct (runBatches env playlistsToFetch searchIds (i + batchSize)
                  (playlistStates ++ batchStates) toCache w2) as [[r w3] ev3].
      destruct H as [Hf3 Hr].
      assert (Hpre : Forall unaborted (AbortCheck false :: ev1 ++ ev2)).
      { constructor; [right; reflexivity|].
        apply Forall_app. split; apply outside_unaborted;
          [apply (frame_events Hf1)|apply (frame_events Hp)]. }
      split.
      * change (AbortCheck false :: ev1 ++ ev2 ++ ev3)
          with ([AbortCheck false] ++ ev1 ++ ev2 ++ ev3).
        eapply frame_trans; [split; simpl; auto|].
        eapply frame_trans; [eapply frame_weaken; [|exact Hf1]; auto|].
        eapply frame_trans; [eapply frame_weaken; [|exact Hp]; auto|exact Hf3].
      * replace (AbortCheck false :: ev1 ++ ev2 ++ ev3)
          with ((AbortCheck false :: ev1 ++ ev2) ++ ev3)
          by (simpl; rewrite <- app_assoc; reflexivity).
        destruct r as [[[states toCache']|]|].
        -- destruct Hr as [Hq Hids']. split; [apply Forall_app; auto|].
           rewrite Hids', Hids, <- app_assoc, <- map_app, slice_skipn. reflexivity.
        -- apply stopsAtCheck_later; assumption.
        -- exact Hr.
Qed.

Lemma ends_tryCatch {A : Type} (body handler : M A) (w : World) post :
  ends body w (fun r w1 ev1 =>
    match r with
    | Ok a => post (Ok a) w1 ev1
    | Throw => ends handler w1 (fun r2 w2 ev2 => post r2 w2 (ev1 ++ ev2))
    end) ->
  ends (tryCatch body handler) w post.
Proof.
  unfold ends, tryCatch. destruct (body w) as [[[a|] w1] ev1]; [auto|].
  destruct (handler w1) as [[r2 w2] ev2]. auto.
Qed.

Lemma ends_tryFinally {A : Type} (body : M A) (final : M unit) (w : World) post :
  ends body w (fun r w1 ev1 =>
    ends final w1 (fun _ w2 ev2 => post r w2 (ev1 ++ ev2))) ->
  ends (tryFinally body final) w post.
Proof.
  unfold ends, tryFinally. destruct (body w) as [[r w1] ev1].
  destruct (final w1) as [[r2 w2] ev2]. auto.
Qed.

Lemma frame_step (P : event -> Prop) (w w' : World) :
  storage w' = storage w -> suspensions w' = suspensions w ->
  aborted w' = aborted w -> frame env P w w' [].
Proof.
  intros Hs Ht Ha. split; auto; try (rewrite Hs; auto); try lia.
  rewrite Ha. auto.
Qed.

Lemma readCache_run {A : Type} (m : PlaylistCache.LS A) (w : World) :
  snd (m (storage w)) = storage w ->
  readCache m w = (Ok (fst (m (storage w))), w, []).
Proof.
  unfold readCache. destruct (m (storage w)) as [a ls]. simpl. intros ->.
  destruct w; reflexivity.
Qed.

Lemma isSongInPlaylist_reads (t : Z) (playlistId searchId : string)
    (ls : PlaylistCache.localStorage) :
  snd (PlaylistCache.isSongInPlaylist t playlistId searchId ls) = ls.
Proof.
  unfold PlaylistCache.isSongInPlaylist, PlaylistCache.bind.
  rewrite getCachedPlaylist_run. simpl.
  destruct (if PlaylistCache.enabled _ then _ else _); reflexivity.
Qed.

Lemma getModifiedPlaylists_reads (ls : PlaylistCache.localStorage) :
  snd (PlaylistCache.getModifiedPlaylists ls) = ls.
Proof. rewrite getModifiedPlaylists_run. reflexivity. Qed.

Lemma getSettings_ext (ls1 ls2 : PlaylistCache.localStorage) :
  PlaylistCache.settingsItem ls1 = PlaylistCache.settingsItem ls2 ->
  fst (PlaylistCache.getSettings ls1) = fst (PlaylistCache.getSettings ls2).
Proof.
  unfold PlaylistCache.getSettings, PlaylistCache.bind, PlaylistCache.getItem.
  intros ->. destruct (PlaylistCache.present _); [|reflexivity].
  destruct (PlaylistCache.JSON_parse _); reflexivity.
Qed.

Lemma cachedVerdict_run (playlistId : string) (searchIds : list string) (w : World) :
  exists verdict, cachedVerdict env playlistId searchIds w = (Ok verdict, w, []).
Proof.
  induction searchIds as [|searchId rest IH]; simpl.
  - eexists. reflexivity.
  - unfold bind, now, gets. rewrite readCache_run by apply isSongInPlaylist_reads.
    destruct (fst (PlaylistCache.isSongInPlaylist _ playlistId searchId (storage w)))
      as [b|].
    + eexists. reflexivity.
    + destruct IH as [verdict ->]. eexists. reflexivity.
Qed.

Lemma classify_run (settings : PlaylistCache.CacheSettings)
    (searchIds modifiedPlaylistIds : list string) (sortedPlaylists : list Playlist)
    (playlistStates : list PlaylistCheckState) (playlistsToFetch : list Playlist)
    (cacheHits : nat) (w : World) :
  exists states toFetch hits,
    classify env settings searchIds modifiedPlaylistIds sortedPlaylists
             playlistStates playlistsToFetch cacheHits w
      = (Ok (states, toFetch, hits), w, []) /\
    (forall p, In p playlistsToFetch -> In p toFetch) /\
    (forall p, In p sortedPlaylists ->
               JS.includesStr modifiedPlaylistIds (playlist_id p) = true ->
               In p toFetch).
Proof.
  revert playlistStates playlistsToFetch cacheHits.
  induction sortedPlaylists as [|playlist rest IH];
    intros playlistStates playlistsToFetch cacheHits; simpl.
  - do 3 eexists. split; [reflexivity|]. split; [auto|]. intros p [].
  - unfold bind at 1.
    destruct (JS.includesStr modifiedPlaylistIds (playlist_id playlist)) eqn:Hmod; simpl.
    + destruct (IH playlistStates (playlistsToFetch ++ [playlist]) cacheHits)
        as (states & toFetch & hits & -> & Hkeep & Hnew).
      do 3 eexists. split; [reflexivity|]. split.
      * intros p Hp. apply Hkeep, in_or_app. auto.
      * intros p [<-|Hp] Hm; [apply Hkeep, in_or_app; simpl; auto|auto].
    + destruct (cachedVerdict_run (playlist_id playlist) searchIds w) as [verdict ->].
      assert (Hmiss :
        exists states toFetch hits,
          classify env settings searchIds modifiedPlaylistIds rest playlistStates
                   (playlistsToFetch ++ [playlist]) cacheHits w
            = (Ok (states, toFetch, hits), w, []) /\
          (forall p, In p playlistsToFetch -> In p toFetch) /\
          (forall p, playlist = p \/ In p rest ->
                     JS.includesStr modifiedPlaylistIds (playlist_id p) = true ->
                     In p toFetch)).
      { destruct (IH playlistStates (playlistsToFetch ++ [playlist]) cacheHits)
          as (states & toFetch & hits & E & Hkeep & Hnew).
        do 3 eexists. split; [exact E|]. split.
        - intros p Hp. apply Hkeep, in_or_app. auto.
        - intros p [<-|Hp] Hm; [apply Hkeep, in_or_app; simpl; auto|auto]. }
      destruct Hmiss as (states & toFetch & hits & E & Hkeep & Hnew).
      destruct verdict as [verdict|];
        [destruct (PlaylistCache.enabled settings)|].
      2, 3: rewrite E; simpl; do 3 eexists; split; [reflexivity|]; split; assumption.
      destruct (IH (playlistStates ++ [stateOf playlist verdict]) playlistsToFetch
                   (S cacheHits))
        as (states' & toFetch' & hits' & -> & Hkeep' & Hnew').
      simpl. do 3 eexists. split; [reflexivity|]. split; [exact Hkeep'|].
      intros p [<-|Hp] Hm; [congruence|auto].
Qed.

Lemma insertSorted_In {A : Type} (cmp : A -> A -> Z) (x y : A) (l : list A) :
  In y (JS.insertSorted cmp x l) <-> y = x \/ In y l.
Proof.
  induction l as [|z rest IH]; simpl.
  - intuition.
  - destruct (cmp x z >? 0); simpl; rewrite ?IH; intuition.
Qed.

Lemma sort_In {A : Type} (cmp : A -> A -> Z) (y : A) (l : list A) :
  In y (JS.sort cmp l) <-> In y l.
Proof.
  unfold JS.sort. induction l as [|x rest IH]; simpl; [tauto|].
  rewrite insertSorted_In, IH. intuition.
Qed.

Lemma includesStr_In (l : list string) (s : string) :
  JS.includesStr l s = true <-> In s l.
Proof.
  unfold JS.includesStr. rewrite existsb_exists. split.
  - intros (x & Hx & E). apply String.eqb_eq in E. subst. exact Hx.
  - intros H. exists s. split; [exact H|apply String.eqb_refl].
Qed.

Lemma upsert_cons (t : Z) (x : PlaylistCache.CachedPlaylist)
    (rest : list PlaylistCache.CachedPlaylist) (p : PlaylistCache.CachedPlaylist) :
  PlaylistCache.upsert t (x :: rest) p =
  if String.eqb (PlaylistCache.id x) (PlaylistCache.id p)
  then PlaylistCache.upsert t [] p ++ rest
  else x :: PlaylistCache.upsert t rest p.
Proof.
  unfold PlaylistCache.upsert. simpl.
  destruct (String.eqb (PlaylistCache.id x) (PlaylistCache.id p)); [reflexivity|].
  destruct (JS.findIndex _ rest); reflexivity.
Qed.

Lemma upsert_stamps (t : Z) (cache : list PlaylistCache.CachedPlaylist)
    (p : PlaylistCache.CachedPlaylist) :
  stamped t (PlaylistCache.upsert t cache p) (PlaylistCache.id p).
Proof.
  induction cache as [|x rest IH].
  - eexists. unfold PlaylistCache.upsert. simpl. rewrite String.eqb_refl. auto.
  - rewrite upsert_cons.
    destruct (String.eqb (PlaylistCache.id x) (PlaylistCache.id p)) eqn:E.
    + eexists. unfold PlaylistCache.upsert. simpl. rewrite String.eqb_refl. auto.
    + unfold stamped. simpl. rewrite E. exact IH.
Qed.

Lemma upsert_keeps (t : Z) (cache : list PlaylistCache.CachedPlaylist)
    (p : PlaylistCache.CachedPlaylist) (i : string) :
  stamped t cache i -> stamped t (PlaylistCache.upsert t cache p) i.
Proof.
  induction cache as [|x rest IH]; intros (entry & Hfind & Hat).
  - discriminate.
  - rewrite upsert_cons. simpl in Hfind.
    destruct (String.eqb (PlaylistCache.id x) (PlaylistCache.id p)) eqn:E.
    + unfold stamped, PlaylistCache.upsert. simpl.
      destruct (String.eqb (PlaylistCache.id p) i) eqn:Ei.
      * eexists. split; [reflexivity|reflexivity].
      * apply String.eqb_eq in E. rewrite E, Ei in Hfind. eauto.
    + unfold stamped. simpl.
      destruct (String.eqb (PlaylistCache.id x) i).
      * eauto.
      * apply IH. eexists. eauto.
Qed.

Lemma upserts_stamp (t : Z) (playlists : list PlaylistCache.CachedPlaylist)
    (cache : list PlaylistCache.CachedPlaylist) (i : string) :
  In i (map PlaylistCache.id playlists) \/ stamped t cache i ->
  stamped t (fold_left (PlaylistCache.upsert t) playlists cache) i.
Proof.
  revert cache. induction playlists as [|p rest IH]; intros cache; simpl.
  - intros [[]|H]. exact H.
  - intros [[<-|Hin]|H]; apply IH; auto.
    + right. apply upsert_stamps.
    + right. apply upsert_keeps, H.
Qed.

Lemma updatePlaylists_stamps (t : Z) (playlists : list PlaylistCache.CachedPlaylist)
    (ls : PlaylistCache.localStorage) (i : string) :
  PlaylistCache.enabled (fst (PlaylistCache.getSettings ls)) = true ->
  In i (map PlaylistCache.id playlists) ->
  let ls' := snd (PlaylistCache.updatePlaylists t playlists ls) in
  (exists entry, storedEntry ls' i = Some entry /\ PlaylistCache.cachedAt entry = t) /\
  PlaylistCache.settingsItem ls' = PlaylistCache.settingsItem ls /\
  PlaylistCache.modifiedItem ls' = PlaylistCache.modifiedItem ls.
Proof.
  intros Hon Hin. unfold PlaylistCache.updatePlaylists, PlaylistCache.bind.
  rewrite getSettings_run, Hon. simpl. rewrite getCache_run, Hon. simpl.
  split; [|split; reflexivity].
  unfold storedEntry. simpl. apply upserts_stamp. auto.
Qed.

Lemma updatePlaylists_frame (t : Z) (playlists : list PlaylistCache.CachedPlaylist)
    (ls : PlaylistCache.localStorage) :
  let ls' := snd (PlaylistCache.updatePlaylists t playlists ls) in
  PlaylistCache.settingsItem ls' = PlaylistCache.settingsItem ls /\
  PlaylistCache.modifiedItem ls' = PlaylistCache.modifiedItem ls.
Proof.
  unfold PlaylistCache.updatePlaylists, PlaylistCache.bind.
  rewrite getSettings_run.
  destruct (PlaylistCache.enabled (fst (PlaylistCache.getSettings ls))); simpl;
    [|auto].
  rewrite getCache_run. simpl. auto.
Qed.

Lemma ends_modify (f : World -> World) (w : World) post :
  post (Ok tt) (f w) [] -> ends (modify f) w post.
Proof. auto. Qed.

Lemma ends_gets {A : Type} (f : World -> A) (w : World) post :
  post (Ok (f w)) w [] -> ends (gets f) w post.
Proof. auto. Qed.

Lemma ends_emit (e : event) (w : World) post :
  post (Ok tt) w [e] -> ends (emit e) w post.
Proof. auto. Qed.

Lemma ends_ret {A : Type} (a : A) (w : World) post :
  post (Ok a) w [] -> ends (ret a) w post.
Proof. auto. Qed.

Lemma ends_readCache {A : Type} (m : PlaylistCache.LS A) (w : World) post :
  snd (m (storage w)) = storage w ->
  post (Ok (fst (m (storage w)))) w [] -> ends (readCache m) w post.
Proof. intros Hr Hp. unfold ends. rewrite readCache_run by exact Hr. exact Hp. Qed.

Lemma ends_writeCache (c : cacheCall) (m : PlaylistCache.LS unit) (w : World) post :
  post (Ok tt) (setStorage (snd (m (storage w))) w) [CacheWrite c] ->
  ends (writeCache c m) w post.
Proof. unfold ends, writeCache. destruct (m (storage w)). auto. Qed.

Lemma findLibraryId_ends (catalogId : string) (w : World) :
  ends (findLibraryId env catalogId) w
       (fun r w' ev => (exists found, r = Ok found) /\ frame env outside w w' ev).
Proof.
  unfold findLibraryId. apply ends_bind.
  eapply ends_weaken; [apply (await_frame outside); simpl; auto|].
  intros r w' ev [-> Hf].
  destruct (librarySongs env catalogId) as [found|];
    [destruct (JS.truthy found)|];
    unfold ends; simpl; rewrite app_nil_r; eauto.
Qed.

Lemma unaborted_not_seen (ev : list event) :
  Forall unaborted ev -> Forall (fun e => e <> AbortCheck true) ev.
Proof.
  apply Forall_impl. intros e [He| ->]; [|discriminate].
  intros ->. exact He.
Qed.

Lemma loadPlaylists_ends (w : World) :
  ends (loadPlaylists env) w (passEnds env w).
Proof.
  unfold loadPlaylists. apply ends_tryFinally, ends_tryCatch.
  apply ends_bind, ends_modify.
  apply ends_bind, ends_readCache; [apply getSettings_reads|].
  set (w0 := setLoading true w).
  set (settings := fst (PlaylistCache.getSettings (storage w0))).
  apply ends_bind.
  apply ends_weaken with
    (post := fun r w1 ev1 => (exists searchIds, r = Ok searchIds) /\ frame env outside w0 w1 ev1).
  { destruct (negb (JS.startsWith (songId env) "i.")).
    - apply ends_bind. eapply ends_weaken; [apply findLibraryId_ends|].
      intros r w1 ev1 [(found & ->) Hf]. destruct found;
        unfold ends; simpl; rewrite app_nil_r; eauto.
    - unfold ends; simpl. split; [eauto|apply frame_refl]. }
  intros r w1 ev1 [(searchIds & ->) Hf1].
  apply ends_bind.
  eapply ends_weaken; [apply await_tick; exact I|].
  intros r w2 ev2 (-> & Hf2 & Htick).
  pose proof (frame_trans Hf1 Hf2) as Hf12.
  assert (Hq12 : Forall (fun e => e <> AbortCheck true) (ev1 ++ ev2)).
  { apply unaborted_not_seen, outside_unaborted, (frame_events Hf12). }
  destruct (libraryPlaylists env) as [userPlaylists|] eqn:Hlisting.
  2: { unfold ends, passEnds; simpl. split; [apply (frame_time Hf12)|].
       split; [apply (frame_settings Hf12)|].
       split; [intros _ Hne; rewrite Hlisting in Hne; contradiction|].
       rewrite ?app_nil_r. apply Forall_app. split; [exact Hq12|].
       constructor; [discriminate|constructor]. }
  apply ends_weaken with (post := fun r w3 ev0 =>
    (aborted w2 = true -> r = Ok Cancelled) /\
    match r with
    | Ok Cancelled => stopsAtCheck ev0 /\ frame env (fun _ => True) w2 w3 ev0
    | Ok (Completed snapshot) =>
        Forall (fun e => e <> AbortCheck true) ev0 /\
        (suspensions w2 <= suspensions w3)%nat /\
        PlaylistCache.settingsItem (storage w3) = PlaylistCache.settingsItem (storage w2) /\
        snapshot = fst (PlaylistCache.getModifiedPlaylists (storage w2)) /\
        (snapshot <> [] -> PlaylistCache.modifiedItem (storage w3) = None) /\
        (forall playlist,
           In playlist userPlaylists -> editable playlist = true ->
           In (playlist_id playlist) snapshot ->
           PlaylistCache.enabled settings = true ->
           exists entry,
             storedEntry (storage w3) (playlist_id playlist) = Some entry /\
             PlaylistCache.cachedAt entry = clock env (suspensions w3))
    | _ => False
    end).
  2: { intros [[snapshot| |]|] w3 ev0 [Hseen Hr]; try contradiction;
         unfold ends, passEnds; simpl; rewrite ?app_nil_r.
       - destruct Hr as (Hq & Ht & Hs & Hsnap & Hclear & Hfresh).
         split; [pose proof (frame_time Hf12); simpl in *; lia|].
         split; [rewrite Hs; apply (frame_settings Hf12)|].
         split; [intros Ha _; apply Hseen, (frame_aborted Hf12), Ha|].
         split; [rewrite app_assoc; apply Forall_app; auto|].
         split; [pose proof (frame_time Hf1); simpl in *; lia|].
         split; [intros Hcalm; rewrite Hsnap, (frame_storage Hf12 Hcalm); reflexivity|].
         split; [exact Hclear|].
         intros ups playlist Hups. rewrite Hlisting in Hups.
         injection Hups as <-. intros. auto.
       - destruct Hr as [Hstop Hf3].
         split; [pose proof (frame_time Hf12); pose proof (frame_time Hf3);
                 simpl in *; lia|].
         split; [rewrite (frame_settings Hf3); apply (frame_settings Hf12)|].
         split; [reflexivity|].
         split.
         + rewrite app_assoc. apply stopsAtCheck_later; [|exact Hstop].
           apply outside_unaborted, (frame_events Hf12).
         + assert (Hall : frame env (fun _ => True) w w3 ((ev1 ++ ev2) ++ ev0)).
           { eapply frame_trans; [|exact Hf3].
             change (ev1 ++ ev2) with ([] ++ (ev1 ++ ev2)).
             eapply frame_trans; [apply (@frame_step _ w w0); reflexivity|].
             eapply frame_weaken; [|exact Hf12]. auto. }
           rewrite app_assoc.
           rewrite <- (app_nil_r ((ev1 ++ ev2) ++ ev0)).
           eapply frame_trans; [exact Hall|]. apply frame_step; reflexivity. }
  apply ends_bind, ends_gets. apply ends_bind, ends_emit.
  destruct (aborted w2) eqn:Hab.
  { unfold ends; simpl. split; [reflexivity|]. split.
    - exists []. split; [reflexivity|constructor].
    - split; simpl; auto. }
  apply ends_bind, ends_readCache; [apply getModifiedPlaylists_reads|].
  set (modifiedPlaylistIds := fst (PlaylistCache.getModifiedPlaylists (storage w2))).
  apply ends_bind.
  destruct (classify_run settings searchIds modifiedPlaylistIds
              (JS.sort byLastModifiedDate (filter editable userPlaylists)) [] [] 0 w2)
    as (states & toFetch & hits & Hclass & _ & Hstale).
  unfold ends at 1. rewrite Hclass. cbv beta iota. simpl fst. simpl snd.
  apply ends_bind, ends_modify.
  set (w2' := setCacheUsed (0 <? hits)%nat w2).
  assert (Hsettings : forall w3,
            PlaylistCache.settingsItem (storage w3) = PlaylistCache.settingsItem (storage w2') ->
            fst (PlaylistCache.getSettings (storage w3)) = settings).
  { intros w3 E. apply getSettings_ext. rewrite E. apply (frame_settings Hf12). }
  apply ends_bind.
  apply ends_weaken with (post := fun r w3 ev =>
    match r with
    | Ok None => stopsAtCheck ev /\ frame env (fun _ => True) w2' w3 ev
    | Ok (Some _) =>
        Forall (fun e => e <> AbortCheck true) ev /\
        (suspensions w2' <= suspensions w3)%nat /\
        PlaylistCache.settingsItem (storage w3) = PlaylistCache.settingsItem (storage w2') /\
        (forall playlist,
           In playlist toFetch -> PlaylistCache.enabled settings = true ->
           exists entry,
             storedEntry (storage w3) (playlist_id playlist) = Some entry /\
             PlaylistCache.cachedAt entry = clock env (suspensions w3))
    | Throw => False
    end).
  { destruct (0 <? List.length toFetch)%nat eqn:Hsome.
    2: { apply ends_ret. split; [constructor|]. split; [lia|]. split; [reflexivity|].
         intros playlist Hin. destruct toFetch; [destruct Hin|discriminate]. }
    apply ends_bind. eapply ends_weaken; [apply runBatches_ends|].
    intros [[[states' toCache]|]|] w3 ev3 [Hf3 Hr]; [| |contradiction].
    2: { apply ends_ret. rewrite app_nil_r. auto. }
    destruct Hr as [Hq3 Hids]. simpl in Hids.
    apply ends_bind.
    destruct ((0 <? List.length toCache)%nat && PlaylistCache.enabled settings) eqn:Hguard.
    - apply ends_bind. apply ends_gets. apply ends_writeCache. apply ends_ret.
      simpl. rewrite ?app_nil_r.
      pose proof (updatePlaylists_frame (clock env (suspensions w3)) toCache
                    (storage w3)) as [Hus Hum].
      split; [apply Forall_app; split;
              [apply unaborted_not_seen, Hq3|constructor; [discriminate|constructor]]|].
      split; [apply (frame_time Hf3)|].
      split; [rewrite Hus; apply (frame_settings Hf3)|].
      intros playlist Hin Hon.
      apply updatePlaylists_stamps.
      + rewrite Hsettings; [exact Hon|apply (frame_settings Hf3)].
      + rewrite Hids. apply in_map, Hin.
    - apply ends_ret. apply ends_ret. simpl. rewrite ?app_nil_r.
      split; [apply unaborted_not_seen, Hq3|].
      split; [apply (frame_time Hf3)|].
      split; [apply (frame_settings Hf3)|].
      intros playlist Hin Hon. rewrite Hon, andb_true_r in Hguard.
      assert (Hlen : List.length (map PlaylistCache.id toCache)
                     = List.length (map playlist_id toFetch)) by (rewrite Hids; reflexivity).
      rewrite !length_map in Hlen. rewrite Hlen in Hguard. congruence. }
  intros [[playlistStates|]|] w3 ev3 Hr; [| |contradiction].
  2: { destruct Hr as [Hstop Hf3]. apply ends_ret. simpl. rewrite app_nil_r.
       split; [reflexivity|]. split.
       - apply (@stopsAtCheck_later [AbortCheck false]);
           [constructor; [right; reflexivity|constructor]|exact Hstop].
       - change (AbortCheck false :: ev3) with ([AbortCheck false] ++ ev3).
         eapply frame_trans; [|exact Hf3]. split; simpl; auto. }
  destruct Hr as (Hq3 & Ht3 & Hs3 & Hfresh).
  apply ends_bind.
  apply ends_weaken with (post := fun r w4 ev4 =>
    r = Ok tt /\ Forall (fun e => e <> AbortCheck true) ev4 /\
    suspensions w4 = suspensions w3 /\
    PlaylistCache.settingsItem (storage w4) = PlaylistCache.settingsItem (storage w3) /\
    PlaylistCache.cacheItem (storage w4) = PlaylistCache.cacheItem (storage w3) /\
    (modifiedPlaylistIds <> [] -> PlaylistCache.modifiedItem (storage w4) = None)).
  { destruct (0 <? List.length modifiedPlaylistIds)%nat eqn:Hany.
    - apply ends_writeCache. simpl. repeat split; auto.
      constructor; [discriminate|constructor].
    - apply ends_ret. repeat split; auto.
      intros Hne. destruct modifiedPlaylistIds; [contradiction|discriminate]. }
  intros r w4 ev4 (-> & Hq4 & Ht4 & Hs4 & Hc4 & Hclear).
  apply ends_bind, ends_modify. apply ends_ret. simpl. rewrite ?app_nil_r.
  split; [discriminate|].
  split; [constructor; [discriminate|apply Forall_app; auto]|].
  split; [simpl in Ht3; lia|].
  split; [rewrite Hs4, Hs3; reflexivity|].
  split; [reflexivity|].
  split; [exact Hclear|].
  intros playlist Hin Hed Hsnap Hon.
  destruct (Hfresh playlist) as (entry & Hentry & Hat); [|exact Hon|].
  - apply Hstale.
    + apply sort_In, filter_In. auto.
    + apply includesStr_In, Hsnap.
  - exists entry. unfold storedEntry in *. rewrite Hc4, Ht4. auto.
Qed.

End ModalLogic.

(* ------------------------------------------------------------------ *)
(** * The reconciliation pass *)

Section PassProperties.

Import Modal.
Open Scope string_scope.
Open Scope list_scope.
Open Scope Z_scope.

Lemma run_eta {A : Type} (run : Result A * World * list event) :
  run = (outcomeOf run, worldOf run, eventsOf run).
Proof. destruct run as [[r w] ev]. reflexivity. Qed.

Lemma loadPlaylists_passEnds (env : Env) (w : World) :
  passEnds env w (outcomeOf (loadPlaylists env w)) (worldOf (loadPlaylists env w))
           (eventsOf (loadPlaylists env w)).
Proof.
  eapply ends_run; [apply loadPlaylists_ends|apply run_eta].
Qed.

(** C3, as the code has it.  The abort flag is read once after the
    playlist listing has arrived and once before each batch, not before
    the page fetches.  A batch that finds the flag set when it is about to
    start does nothing but return.  The pass is cancelled exactly when one
    of its checks sees the flag; the check that saw it is then the last
    thing the pass does, nothing was written before it, and the cache, the
    settings and (unless another task marked playlists meanwhile) the
    whole storage are as they were. *)
Theorem loadPlaylists_stops_at_abort_check (env : Env) (w : World) :
  let run := loadPlaylists env w in
  (forall playlistsToFetch searchIds i states toCache w1,
     (i < List.length playlistsToFetch)%nat -> aborted w1 = true ->
     runBatches env playlistsToFetch searchIds i states toCache w1
       = (Ok None, w1, [AbortCheck true])) /\
  (aborted w = true -> libraryPlaylists env <> None -> outcomeOf run = Ok Cancelled) /\
  (In (AbortCheck true) (eventsOf run) <-> outcomeOf run = Ok Cancelled) /\
  (outcomeOf run = Ok Cancelled ->
     (exists before,
        eventsOf run = before ++ [AbortCheck true] /\
        Forall (fun e => outside e \/ e = AbortCheck false) before) /\
     PlaylistCache.cacheItem (storage (worldOf run)) = PlaylistCache.cacheItem (storage w) /\
     PlaylistCache.settingsItem (storage (worldOf run))
       = PlaylistCache.settingsItem (storage w) /\
     ((forall n, concurrentMark env n = None) -> storage (worldOf run) = storage w)).
Proof.
  intros run. split.
  { intros playlistsToFetch searchIds i states toCache w1 Hi Hab.
    funelim (runBatches env playlistsToFetch searchIds i states toCache w1).
    - rewrite Hab. reflexivity.
    - pose proof (proj1 (Nat.ltb_ge _ _) e). lia. }
  pose proof (loadPlaylists_passEnds env w) as (_ & _ & Hfirst & Hends).
  fold run in Hfirst, Hends.
  split; [exact Hfirst|]. split.
  - destruct (outcomeOf run) as [[snapshot| |]|]; try contradiction.
    + destruct Hends as (Hq & _). split; [|discriminate].
      intros Hin. rewrite Forall_forall in Hq. destruct (Hq _ Hin). reflexivity.
    + destruct Hends as ((before & -> & _) & _). split; [reflexivity|].
      intros _. apply in_or_app. right. left. reflexivity.
    + split; [|discriminate].
      intros Hin. rewrite Forall_forall in Hends. destruct (Hends _ Hin). reflexivity.
  - intros E. rewrite E in Hends. destruct Hends as [Hstop Hf].
    split; [exact Hstop|]. split; [apply Hf|]. split; apply Hf.
Qed.

(** The user closes the modal while the playlist listing is being
    fetched: the pass is cancelled and the storage is as it was. *)
Lemma loadPlaylists_stops_at_abort_check_witness :
  let run :=
    loadPlaylists (withClose 1 (calmEnv "i.song" [gymPlaylist] (fun _ => oneTrack)))
                  (mounted (markedStorage ["p.gym"]) []) in
  outcomeOf run = Ok Cancelled /\
  storage (worldOf run) = markedStorage ["p.gym"].
Proof.
  intros run.
  destruct (loadPlaylists_stops_at_abort_check
              (withClose 1 (calmEnv "i.song" [gymPlaylist] (fun _ => oneTrack)))
              (mounted (markedStorage ["p.gym"]) []))
    as (_ & _ & Hseen & Hquiet).
  assert (Hc : outcomeOf run = Ok Cancelled).
  { apply Hseen. vm_compute. auto. }
  split; [exact Hc|].
  apply (Hquiet Hc). intros n. reflexivity.
Defined.

(** C2, as the code has it.  A pass that completes with a non-empty
    snapshot removes the whole persisted Modified-Set, not the snapshot's
    ids one by one: afterwards the set is empty, whatever was marked during
    the pass.  The snapshot is the Modified-Set of the start of the pass
    when nobody marks playlists meanwhile.  Every id of the snapshot that
    is an editable playlist of the listing has, when caching is enabled, a
    cache entry stamped with the time of the upsert, which comes after at
    least one suspension of the pass: later than the start of the pass on
    a clock that advances. *)
Theorem loadPlaylists_completed_clears_whole_set (env : Env) (w : World)
    (snapshot : list string) :
  let run := loadPlaylists env w in
  outcomeOf run = Ok (Completed snapshot) ->
  (snapshot <> [] ->
     PlaylistCache.modifiedItem (storage (worldOf run)) = None /\
     modifiedAfter run = []) /\
  ((forall n, concurrentMark env n = None) ->
     snapshot = fst (PlaylistCache.getModifiedPlaylists (storage w))) /\
  (forall userPlaylists playlist,
     libraryPlaylists env = Some userPlaylists ->
     In playlist userPlaylists -> editable playlist = true ->
     In (playlist_id playlist) snapshot ->
     PlaylistCache.enabled (fst (PlaylistCache.getSettings (storage w))) = true ->
     exists entry,
       storedEntry (storage (worldOf run)) (playlist_id playlist) = Some entry /\
       PlaylistCache.cachedAt entry = clock env (suspensions (worldOf run)) /\
       (suspensions w < suspensions (worldOf run))%nat /\
       ((forall n m, (n < m)%nat -> clock env n < clock env m) ->
        clock env (suspensions w) < PlaylistCache.cachedAt entry)).
Proof.
  intros run E.
  pose proof (loadPlaylists_passEnds env w) as (_ & _ & _ & Hends). fold run in Hends.
  rewrite E in Hends. destruct Hends as (_ & Hlater & Hsnap & Hclear & Hfresh).
  split; [|split; [exact Hsnap|]].
  - intros Hne. specialize (Hclear Hne). split; [exact Hclear|].
    unfold modifiedAfter. rewrite getModifiedPlaylists_run, Hclear. reflexivity.
  - intros userPlaylists playlist Hl Hin Hed Hs Hon.
    destruct (Hfresh userPlaylists playlist Hl Hin Hed Hs Hon) as (entry & He & Hat).
    exists entry. repeat split; auto.
    intros Hclock. rewrite Hat. apply Hclock, Hlater.
Qed.

(** Scenario C: "Gym" was marked modified; the next pass fetches it,
    stamps its cache entry with the time of the upsert and empties the
    Modified-Set. *)
Lemma loadPlaylists_completed_clears_whole_set_witness :
  let run :=
    loadPlaylists (calmEnv "i.song" [gymPlaylist] (fun _ => oneTrack))
                  (mounted (markedStorage ["p.gym"]) []) in
  modifiedAfter run = [] /\
  exists entry,
    storedEntry (storage (worldOf run)) "p.gym" = Some entry /\
    PlaylistCache.cachedAt entry = 2000.
Proof.
  intros run.
  destruct (@loadPlaylists_completed_clears_whole_set
              (calmEnv "i.song" [gymPlaylist] (fun _ => oneTrack))
              (mounted (markedStorage ["p.gym"]) []) ["p.gym"] eq_refl)
    as (Hclear & _ & Hfresh).
  split; [apply Hclear; discriminate|].
  destruct (Hfresh [gymPlaylist] gymPlaylist eq_refl (or_introl eq_refl) eq_refl
                   (or_introl eq_refl) eq_refl)
    as (entry & He & Hat & _).
  exists entry. split; [exact He|exact Hat].
Defined.

End PassProperties.

(* ------------------------------------------------------------------ *)
(** * The mutation pipeline *)

Section MutationProperties.

Import Modal.
Open Scope string_scope.
Open Scope list_scope.
Open Scope Z_scope.

Variable env : Env.

Lemma await_requests (e : event) (w : World) :
  ends (await env e) w (fun _ _ ev => forall r, In (Request r) ev -> e = Request r).
Proof.
  unfold ends, await. intros r Hin. simpl in Hin.
  destruct Hin as [E|Hin]; [exact E|].
  apply in_app_or in Hin.
  destruct Hin as [Hin|Hin];
    [destruct (concurrentMark env (S (suspensions w)))
    |destruct (match closePressedAt env with Some k => _ | None => _ end)];
    simpl in Hin; intuition discriminate.
Qed.

Lemma addSongToPlaylist_ends (playlistId : string) (w : World) :
  ends (addSongToPlaylist env playlistId) w (fun _ w' ev => frame env outside w w' ev).
Proof.
  unfold addSongToPlaylist. destruct (negb (musicTokens env)).
  - unfold ends; simpl. apply frame_refl.
  - apply ends_bind. eapply ends_weaken; [apply (await_frame env outside); simpl; auto|].
    intros r w' ev [-> Hf].
    destruct (postOk env playlistId); unfold ends; simpl; rewrite app_nil_r; exact Hf.
Qed.

Lemma filterTracks_remaining (songIdStr : string) (tracks : list Track) (index : nat)
    (foundIndex : option nat) :
  fst (filterTracks songIdStr tracks index foundIndex)
  = filter (fun track => negb (isMatch songIdStr track)) tracks.
Proof.
  revert index foundIndex. induction tracks as [|track rest IH]; intros index foundIndex.
  - reflexivity.
  - simpl. specialize (IH (S index)).
    destruct (filterTracks songIdStr rest (S index) _) as [remaining found] eqn:E.
    match type of E with
    | filterTracks _ _ _ ?fi = _ => specialize (IH fi); rewrite E in IH
    end.
    simpl in IH. subst remaining. destruct (negb (isMatch songIdStr track)); reflexivity.
Qed.

Lemma filterTracks_found (songIdStr : string) (tracks : list Track) (index : nat)
    (foundIndex : option nat) :
  snd (filterTracks songIdStr tracks index foundIndex)
  = match foundIndex with
    | Some k => Some k
    | None => option_map (Nat.add index) (JS.findIndex (isMatch songIdStr) tracks)
    end.
Proof.
  revert index foundIndex. induction tracks as [|track rest IH]; intros index foundIndex.
  - destruct foundIndex; reflexivity.
  - simpl. specialize (IH (S index)).
    destruct (filterTracks songIdStr rest (S index) _) as [remaining found] eqn:E.
    match type of E with
    | filterTracks _ _ _ ?fi = _ => specialize (IH fi); rewrite E in IH
    end.
    simpl in *. subst found.
    destruct foundIndex as [k|]; [reflexivity|].
    destruct (isMatch songIdStr track); simpl.
    + rewrite Nat.add_0_r. reflexivity.
    + destruct (JS.findIndex (isMatch songIdStr) rest); simpl; [|reflexivity].
      rewrite Nat.add_succ_r. reflexivity.
Qed.

Lemma findIndex_some {A : Type} (f : A -> bool) (l : list A) (k : nat) :
  JS.findIndex f l = Some k -> existsb f l = true.
Proof.
  revert k. induction l as [|x rest IH]; intros k; simpl; [discriminate|].
  destruct (f x); [reflexivity|].
  destruct (JS.findIndex f rest) as [j|]; [|discriminate].
  intros _. simpl. eapply IH. reflexivity.
Qed.

Lemma removeSongFromPlaylist_ends (playlistId : string) (w : World) :
  ends (removeSongFromPlaylist env playlistId) w
       (fun _ w' ev =>
          frame env outside w w' ev /\
          forall p data,
            In (Request (PutPlaylistTracks p data)) ev ->
            p = playlistId /\
            data = map refOf (filter (fun track => negb (isMatch (songId env) track))
                                     (fetchedTracks env playlistId w)) /\
            existsb (isMatch (songId env)) (fetchedTracks env playlistId w) = true).
Proof.
  unfold removeSongFromPlaylist. apply ends_bind.
  eapply ends_weaken; [apply fetchTracks_ends|].
  intros r w1 ev1 [-> Hf1]. fold (fetchedTracks env playlistId w).
  assert (Hno : forall p data, ~ In (Request (PutPlaylistTracks p data)) ev1).
  { intros p data Hin. pose proof (frame_events Hf1) as Hev.
    rewrite Forall_forall in Hev. apply (Hev _ Hin). }
  pose proof (filterTracks_remaining (songId env) (fetchedTracks env playlistId w) 0 None)
    as Hrem.
  pose proof (filterTracks_found (songId env) (fetchedTracks env playlistId w) 0 None)
    as Hfound.
  destruct (filterTracks (songId env) (fetchedTracks env playlistId w) 0 None)
    as [remainingTracks foundIndex].
  simpl in Hrem, Hfound. subst remainingTracks.
  assert (Hout : frame env outside w w1 ev1)
    by (eapply frame_weaken; [apply paging_outside|exact Hf1]).
  destruct foundIndex as [k|].
  2: { unfold ends; simpl. rewrite app_nil_r. split; [exact Hout|].
       intros p data Hin. destruct (Hno _ _ Hin). }
  assert (Hsome : existsb (isMatch (songId env)) (fetchedTracks env playlistId w) = true).
  { destruct (JS.findIndex (isMatch (songId env)) (fetchedTracks env playlistId w)) eqn:E;
      [|discriminate].
    eapply findIndex_some, E. }
  destruct (negb (musicTokens env)).
  { unfold ends; simpl. rewrite app_nil_r. split; [exact Hout|].
    intros p data Hin. destruct (Hno _ _ Hin). }
  apply ends_bind.
  set (put := Request (PutPlaylistTracks playlistId _)).
  pose proof (await_frame env outside put w1 I I (fun _ => I)) as Ha.
  pose proof (@await_requests put w1) as Hr.
  unfold ends in Ha, Hr |- *. destruct (await env put w1) as [[r2 w2] ev2].
  destruct Ha as [-> Hf2].
  assert (Hall : forall p data,
            In (Request (PutPlaylistTracks p data)) (ev1 ++ ev2) ->
            p = playlistId /\
            data = map refOf (filter (fun track => negb (isMatch (songId env) track))
                                     (fetchedTracks env playlistId w)) /\
            existsb (isMatch (songId env)) (fetchedTracks env playlistId w) = true).
  { intros p data Hin. apply in_app_or in Hin. destruct Hin as [Hin|Hin].
    - destruct (Hno _ _ Hin).
    - apply Hr in Hin. subst put. injection Hin as <- <-. auto. }
  destruct (putOk env playlistId _); simpl; rewrite app_nil_r;
    (split; [eapply frame_trans; eauto|exact Hall]).
Qed.

(** C4, as the code has it.  Whenever [removeSongFromPlaylist] issues the
    full-list replace call, the list it sends is the fetched track list
    without any of the entries that match the song, the other entries in
    their order; and it issues the call only when some entry matches. *)
Theorem removeSong_excludes_every_match (playlistId : string) (w : World)
    (data : list TrackRef) :
  In (Request (PutPlaylistTracks playlistId data))
     (eventsOf (removeSongFromPlaylist env playlistId w)) ->
  data = map refOf (filter (fun track => negb (isMatch (songId env) track))
                           (fetchedTracks env playlistId w)) /\
  existsb (isMatch (songId env)) (fetchedTracks env playlistId w) = true.
Proof.
  intros Hin.
  pose proof (removeSongFromPlaylist_ends playlistId w) as H. unfold ends in H.
  destruct (removeSongFromPlaylist env playlistId w) as [[r w'] ev].
  destruct H as [_ H]. apply (H _ _ Hin).
Qed.

Lemma pushIfNew_In (modified : list string) (x i : string) :
  In i (PlaylistCache.pushIfNew modified x) <-> In i modified \/ i = x.
Proof.
  unfold PlaylistCache.pushIfNew.
  destruct (JS.includesStr modified x) eqn:E; simpl.
  - apply includesStr_In in E. split; [auto|]. intros [H| ->]; assumption.
  - rewrite in_app_iff. simpl. intuition.
Qed.

Lemma marks_In (playlistIds modified : list string) (i : string) :
  In i (fold_left PlaylistCache.pushIfNew playlistIds modified)
  <-> In i modified \/ In i playlistIds.
Proof.
  revert modified. induction playlistIds as [|x rest IH]; intros modified; simpl.
  - tauto.
  - rewrite IH, pushIfNew_In. intuition.
Qed.

Lemma markPlaylistsModified_adds (playlistIds : list string)
    (ls : PlaylistCache.localStorage) (i : string) :
  markable (PlaylistCache.modifiedItem ls) -> In i playlistIds ->
  In i (fst (PlaylistCache.getModifiedPlaylists
               (snd (PlaylistCache.markPlaylistsModified playlistIds ls)))).
Proof.
  intros Hm Hin. rewrite getModifiedPlaylists_run.
  unfold PlaylistCache.markPlaylistsModified, PlaylistCache.bind, PlaylistCache.getItem.
  destruct ls as [c s [[text|modified]|]]; simpl in *.
  - rewrite Hm. simpl. apply marks_In. auto.
  - apply marks_In. auto.
  - apply marks_In. auto.
Qed.

Lemma changesFrom_ids (index : nat) (rows : list PlaylistCheckState) :
  map (fun c => id (snd c)) (changesFrom index rows) = map id (filter changed rows).
Proof.
  revert index. induction rows as [|p rest IH]; intros index; simpl; [reflexivity|].
  unfold changed at 1. destruct (negb (Bool.eqb (isInPlaylist p) (originalState p)));
    simpl; rewrite IH; reflexivity.
Qed.

Lemma applyLoop_ends (changes : list (nat * PlaylistCheckState))
    (modifiedIds : list string) (w : World) :
  ends (applyLoop env changes modifiedIds) w
       (fun r w' ev =>
          frame env outside w w' ev /\
          match r with
          | Ok ids => ids = modifiedIds ++ map (fun c => id (snd c)) changes
          | Throw => True
          end).
Proof.
  revert modifiedIds w.
  induction changes as [|[index playlist] rest IH]; intros modifiedIds w; simpl.
  - apply ends_ret. rewrite app_nil_r. split; [apply frame_refl|reflexivity].
  - apply ends_bind.
    apply ends_weaken with (post := fun _ w1 ev1 => frame env outside w w1 ev1).
    { destruct (isInPlaylist playlist).
      - apply addSongToPlaylist_ends.
      - eapply ends_weaken; [apply removeSongFromPlaylist_ends|].
        intros r w1 ev1 [Hf _]. exact Hf. }
    intros [[]|] w1 ev1 Hf1; [|auto].
    apply ends_bind. unfold commitState. apply ends_modify.
    apply ends_bind.
    apply ends_weaken with (post := fun r w2 ev2 =>
      r = Ok tt /\ frame env outside w1 w2 ev2).
    { destruct rest.
      - apply ends_ret. split; [reflexivity|]. apply frame_step; reflexivity.
      - eapply ends_weaken; [apply delay_frame|].
        intros r w2 ev2 [-> Hf2]. split; [reflexivity|].
        change ev2 with ([] ++ ev2).
        eapply frame_trans; [|exact Hf2]. apply frame_step; reflexivity. }
    intros r w2 ev2 [-> Hf2].
    eapply ends_weaken; [apply IH|].
    intros r w3 ev3 [Hf3 Hr]. simpl. split.
    + eapply frame_trans; [exact Hf1|]. eapply frame_trans; eauto.
    + destruct r; [|exact I]. rewrite Hr, <- app_assoc. reflexivity.
Qed.

(** C1, as the code has it.  When every call of the batch succeeds, the
    ids of all changed playlists are added to the Modified-Set by one call
    of [markPlaylistsModified], made after the last call of the batch and
    just before the modal closes: nothing is written before it.  With a
    persisted Modified-Set that is missing or parses, every changed
    playlist is in the set afterwards. *)
Theorem applyChanges_marks_after_last_call (w : World) :
  let run := applyChanges env w in
  outcomeOf run = Ok Applied ->
  markable (PlaylistCache.modifiedItem (storage w)) ->
  (exists before,
     eventsOf run =
       before ++ [CacheWrite (MarkPlaylistsModified (map id (filter changed (playlists w))));
                  ModalClosed] /\
     Forall outside before) /\
  (forall p, In p (playlists w) -> isInPlaylist p <> originalState p ->
             In (id p) (modifiedAfter run)).
Proof.
  intros run.
  assert (H : ends (applyChanges env) w (fun r w' ev =>
    r = Ok Applied ->
    markable (PlaylistCache.modifiedItem (storage w)) ->
    (exists before,
       ev = before ++ [CacheWrite (MarkPlaylistsModified (map id (filter changed (playlists w))));
                       ModalClosed] /\
       Forall outside before) /\
    (forall i, In i (map id (filter changed (playlists w))) ->
               In i (fst (PlaylistCache.getModifiedPlaylists (storage w')))))).
  { unfold applyChanges. apply ends_bind. unfold hasChanges. apply ends_gets.
    destruct (negb (existsb _ (playlists w))).
    { unfold ends; simpl. discriminate. }
    apply ends_bind, ends_modify. apply ends_tryCatch.
    apply ends_bind, ends_gets. apply ends_bind.
    eapply ends_weaken; [apply applyLoop_ends|].
    intros [ids|] w1 ev1 [Hf Hr].
    2: { unfold ends; simpl. discriminate. }
    simpl in Hr. rewrite changesFrom_ids in Hr. subst ids.
    apply ends_bind, ends_writeCache. unfold ends; simpl. intros _ Hm. split.
    - exists ev1. split; [reflexivity|apply (frame_events Hf)].
    - intros i Hi. apply markPlaylistsModified_adds; [|exact Hi].
      apply (frame_markable Hf). exact Hm. }
  intros E Hm. unfold ends in H. fold run in H.
  rewrite (run_eta run) in H. destruct (H E Hm) as [Hev Hin].
  split; [exact Hev|].
  intros p Hp Hneq. apply Hin. apply in_map, filter_In. split; [exact Hp|].
  unfold changed. destruct (isInPlaylist p), (originalState p); simpl; congruence.
Qed.

End MutationProperties.

Section MutationWitnesses.

Import Modal.
Open Scope string_scope.
Open Scope list_scope.
Open Scope Z_scope.

(** The song is ticked for "Gym" and for "Run" and both appends succeed:
    both playlists are in the Modified-Set afterwards. *)
Lemma applyChanges_marks_after_last_call_witness :
  let run :=
    applyChanges (calmEnv "i.song" [] (fun _ => []))
                 (mounted emptyStorage [ticked "p.gym" "Gym"; ticked "p.run" "Run"]) in
  In "p.gym" (modifiedAfter run) /\ In "p.run" (modifiedAfter run).
Proof.
  intros run.
  destruct (@applyChanges_marks_after_last_call
              (calmEnv "i.song" [] (fun _ => []))
              (mounted emptyStorage [ticked "p.gym" "Gym"; ticked "p.run" "Run"])
              eq_refl I)
    as [_ Hall].
  split.
  - apply (Hall (ticked "p.gym" "Gym")); [simpl; auto|discriminate].
  - apply (Hall (ticked "p.run" "Run")); [simpl; auto|discriminate].
Defined.

(** The song ("777") is removed from a playlist that holds it twice and
    one other track: the list sent is that other track alone. *)
Lemma removeSong_excludes_every_match_witness :
  [mkTrackRef "i.123" "library-songs"] =
  map refOf
    (filter (fun track => negb (isMatch "777" track))
            [libraryTrack "777"; libraryTrack "123"; libraryTrack "777"]).
Proof.
  exact (proj1 (@removeSong_excludes_every_match
    (calmEnv "777" []
       (fun _ => [libraryTrack "777"; libraryTrack "123"; libraryTrack "777"]))
    "p.gym" (mounted emptyStorage []) [mkTrackRef "i.123" "library-songs"]
    (or_intror (or_introl eq_refl)))).
Defined.

End MutationWitnesses.

(* ------------------------------------------------------------------ *)
(** * Round trips of the cache *)

Section CacheRoundTrips.

Import PlaylistCache.
Open Scope list_scope.
Open Scope Z_scope.

(** The entry [updatePlaylists] stores for [playlist] at the time [now]. *)
(* vocabulary: goes to definitions part *)

Lemma pushIfNew_prefix (modified : list string) (x : string) :
  exists added, pushIfNew modified x = modified ++ added.
Proof.
  unfold pushIfNew. destruct (negb (JS.includesStr modified x)).
  - eexists. reflexivity.
  - exists []. rewrite app_nil_r. reflexivity.
Qed.

Lemma marks_prefix (playlistIds modified : list string) :
  exists added, fold_left pushIfNew playlistIds modified = modified ++ added.
Proof.
  revert modified. induction playlistIds as [|x rest IH]; intros modified; simpl.
  - exists []. rewrite app_nil_r. reflexivity.
  - destruct (pushIfNew_prefix modified x) as [a1 E1].
    destruct (IH (pushIfNew modified x)) as [a2 E2].
    exists (a1 ++ a2). rewrite E2, E1, app_assoc. reflexivity.
Qed.

Lemma pushIfNew_NoDup (modified : list string) (x : string) :
  NoDup modified -> NoDup (pushIfNew modified x).
Proof.
  intros Hnd. unfold pushIfNew.
  destruct (JS.includesStr modified x) eqn:E; simpl; [exact Hnd|].
  assert (Hx : ~ In x modified).
  { intros Hin. apply includesStr_In in Hin. congruence. }
  apply NoDup_app; [exact Hnd|constructor; [intros []|constructor]|].
  intros a Ha [<-|[]]. exact (Hx Ha).
Qed.

Lemma marks_NoDup (playlistIds modified : list string) :
  NoDup modified -> NoDup (fold_left pushIfNew playlistIds modified).
Proof.
  revert modified. induction playlistIds as [|x rest IH]; intros modified Hnd; simpl.
  - exact Hnd.
  - apply IH, pushIfNew_NoDup, Hnd.
Qed.

Lemma pushIfNew_known (modified : list string) (x : string) :
  In x modified -> pushIfNew modified x = modified.
Proof.
  intros Hin. unfold pushIfNew. apply includesStr_In in Hin. rewrite Hin. reflexivity.
Qed.

Lemma marks_known (playlistIds modified : list string) :
  (forall x, In x playlistIds -> In x modified) ->
  fold_left pushIfNew playlistIds modified = modified.
Proof.
  induction playlistIds as [|x rest IH]; intros Hall; simpl; [reflexivity|].
  rewrite pushIfNew_known by (apply Hall; simpl; auto).
  apply IH. intros y Hy. apply Hall. simpl. auto.
Qed.

(** X1.  [markPlaylistsModified] leaves the cache and the settings as
    they are.  The Modified-Set read afterwards is the one read before
    with ids appended at its end; it has no duplicate if it had none; and
    marking the same ids once more changes nothing.  When the persisted
    record is missing, empty or parses, the set afterwards holds exactly
    the ids it held and the ids marked; when the record does not parse,
    the storage is not changed at all. *)
Theorem markPlaylistsModified_extends_set (playlistIds : list string) (ls : localStorage) :
  let before := fst (getModifiedPlaylists ls) in
  let ls' := snd (markPlaylistsModified playlistIds ls) in
  let after := fst (getModifiedPlaylists ls') in
  cacheItem ls' = cacheItem ls /\
  settingsItem ls' = settingsItem ls /\
  (exists added, after = before ++ added) /\
  (NoDup before -> NoDup after) /\
  markPlaylistsModified playlistIds ls' = (tt, ls') /\
  (markable (modifiedItem ls) ->
   forall i, In i after <-> In i before \/ In i playlistIds) /\
  (~ markable (modifiedItem ls) -> ls' = ls).
Proof.
  intros before ls' after. subst before ls' after.
  rewrite !getModifiedPlaylists_run.
  unfold markPlaylistsModified, bind, getItem.
  assert (Hwritten : forall c s modified,
    let ls1 := {| cacheItem := c; settingsItem := s;
                  modifiedItem := Some (Doc (fold_left pushIfNew playlistIds modified)) |} in
    (exists added, fold_left pushIfNew playlistIds modified = modified ++ added) /\
    (NoDup modified -> NoDup (fold_left pushIfNew playlistIds modified)) /\
    (let (_, ls2) := setItem MODIFIED_PLAYLISTS_KEY
                       (Doc (fold_left pushIfNew playlistIds
                               (fold_left pushIfNew playlistIds modified))) ls1 in
     (tt, ls2)) = (tt, ls1) /\
    (forall i, In i (fold_left pushIfNew playlistIds modified)
               <-> In i modified \/ In i playlistIds)).
  { intros c s modified. simpl.
    split; [apply marks_prefix|]. split; [apply marks_NoDup|].
    split; [|apply marks_In].
    rewrite marks_known; [reflexivity|]. intros x Hx. apply marks_In. auto. }
  destruct ls as [c s [[text|modified]|]]; simpl.
  - destruct (JS.truthy text) eqn:E; simpl.
    + rewrite E. simpl.
      split; [reflexivity|]. split; [reflexivity|].
      split; [exists []; reflexivity|]. split; [auto|]. split; [reflexivity|].
      split; [intros H; congruence|reflexivity].
    + destruct (Hwritten c s []) as (Hp & Hn & Hi & Hm). simpl in *.
      split; [reflexivity|]. split; [reflexivity|].
      split; [exact Hp|]. split; [exact Hn|]. split; [exact Hi|].
      split; [intros _; exact Hm|]. intros H. destruct H. reflexivity.
  - destruct (Hwritten c s modified) as (Hp & Hn & Hi & Hm). simpl in *.
    split; [reflexivity|]. split; [reflexivity|].
    split; [exact Hp|]. split; [exact Hn|]. split; [exact Hi|].
    split; [intros _; exact Hm|]. intros H. destruct H. exact I.
  - destruct (Hwritten c s []) as (Hp & Hn & Hi & Hm). simpl in *.
    split; [reflexivity|]. split; [reflexivity|].
    split; [exact Hp|]. split; [exact Hn|]. split; [exact Hi|].
    split; [intros _; exact Hm|]. intros H. destruct H. exact I.
Qed.

Lemma upsert_ids (t : Z) (cache : list CachedPlaylist) (p : CachedPlaylist) :
  map id (upsert t cache p) = pushIfNew (map id cache) (id p).
Proof.
  induction cache as [|x rest IH].
  - reflexivity.
  - rewrite upsert_cons. unfold pushIfNew, JS.includesStr. simpl.
    rewrite (String.eqb_sym (id p) (id x)).
    destruct (String.eqb (id x) (id p)) eqn:E; simpl.
    + apply String.eqb_eq in E. rewrite E. reflexivity.
    + rewrite IH. unfold pushIfNew, JS.includesStr.
      destruct (existsb (String.eqb (id p)) (map id rest)); reflexivity.
Qed.

Lemma upserts_ids (t : Z) (playlists cache : list CachedPlaylist) :
  map id (fold_left (upsert t) playlists cache)
  = fold_left pushIfNew (map id playlists) (map id cache).
Proof.
  revert cache. induction playlists as [|p rest IH]; intros cache; simpl.
  - reflexivity.
  - rewrite IH, upsert_ids. reflexivity.
Qed.

Lemma upsert_find_same (t : Z) (cache : list CachedPlaylist) (p : CachedPlaylist) :
  find (fun q => String.eqb (id q) (id p)) (upsert t cache p)
  = Some {| id := id p; name := name p; tracks := tracks p;
            lastModified := lastModified p; artworkUrl := artworkUrl p;
            cachedAt := t |}.
Proof.
  induction cache as [|x rest IH].
  - unfold upsert. simpl. rewrite String.eqb_refl. reflexivity.
  - rewrite upsert_cons.
    destruct (String.eqb (id x) (id p)) eqn:E.
    + unfold upsert. simpl. rewrite String.eqb_refl. reflexivity.
    + simpl. rewrite E. exact IH.
Qed.

Lemma upsert_find_other (t : Z) (cache : list CachedPlaylist) (p : CachedPlaylist)
    (i : string) :
  id p <> i ->
  find (fun q => String.eqb (id q) i) (upsert t cache p)
  = find (fun q => String.eqb (id q) i) cache.
Proof.
  intros Hne. apply String.eqb_neq in Hne.
  induction cache as [|x rest IH].
  - unfold upsert. simpl. rewrite Hne. reflexivity.
  - rewrite upsert_cons.
    destruct (String.eqb (id x) (id p)) eqn:E.
    + unfold upsert. simpl. rewrite Hne.
      apply String.eqb_eq in E. rewrite E, Hne. reflexivity.
    + simpl. destruct (String.eqb (id x) i); [reflexivity|exact IH].
Qed.

Lemma upserts_find_other (t : Z) (playlists cache : list CachedPlaylist) (i : string) :
  ~ In i (map id playlists) ->
  find (fun q => String.eqb (id q) i) (fold_left (upsert t) playlists cache)
  = find (fun q => String.eqb (id q) i) cache.
Proof.
  revert cache. induction playlists as [|p rest IH]; intros cache Hnot; simpl.
  - reflexivity.
  - rewrite IH by (intros H; apply Hnot; simpl; auto).
    apply upsert_find_other. intros E. apply Hnot. simpl. auto.
Qed.

Lemma updatePlaylists_run (t : Z) (playlists : list CachedPlaylist) (ls : localStorage) :
  enabled (fst (getSettings ls)) = true ->
  updatePlaylists t playlists ls =
  (tt, {| cacheItem := Some (Doc (fold_left (upsert t) playlists (fst (getCache ls))));
          settingsItem := settingsItem ls;
          modifiedItem := modifiedItem ls |}).
Proof.
  intros Hon. unfold updatePlaylists, bind.
  rewrite getSettings_run, Hon. simpl. rewrite getCache_run, Hon. reflexivity.
Qed.

(** X2.  With caching enabled, what [updatePlaylists] has written
    at time [now] is read back: for the last entry [p] of its id in the
    batch, a [getCachedPlaylist] at a time [t] within the expiration limit
    of [now] returns [p] with [cachedAt = now], and [isSongInPlaylist]
    answers whether the tracks of [p] include the song id. *)
Theorem updatePlaylists_then_getCachedPlaylist (now t : Z)
    (before after : list CachedPlaylist) (p : CachedPlaylist) (songId : string)
    (ls : localStorage) :
  enabled (fst (getSettings ls)) = true ->
  t - now <= expirationMinutes (fst (getSettings ls)) * 60 * 1000 ->
  ~ In (id p) (map id after) ->
  let ls' := snd (updatePlaylists now (before ++ p :: after) ls) in
  let entry := {| id := id p; name := name p; tracks := tracks p;
                  lastModified := lastModified p; artworkUrl := artworkUrl p;
                  cachedAt := now |} in
  getCachedPlaylist t (id p) ls' = (Some entry, ls') /\
  isSongInPlaylist t (id p) songId ls' = (Some (JS.includesStr (tracks p) songId), ls').
Proof.
  intros Hon Hfresh Hlast ls' entry.
  assert (Hget : getCachedPlaylist t (id p) ls' = (Some entry, ls')).
  { subst ls'. rewrite updatePlaylists_run by exact Hon. simpl.
    rewrite getCachedPlaylist_run.
    match goal with
    | |- context [getSettings ?l] =>
        replace (fst (getSettings l)) with (fst (getSettings ls))
          by (apply getSettings_ext; reflexivity)
    end.
    rewrite Hon. unfold storedEntry. simpl.
    rewrite fold_left_app. simpl.
    rewrite upserts_find_other by exact Hlast.
    rewrite upsert_find_same. simpl.
    destruct (Z.gtb_spec (t - now) (expirationMinutes (fst (getSettings ls)) * 60 * 1000));
      [lia|reflexivity]. }
  split; [exact Hget|].
  unfold isSongInPlaylist, bind. rewrite Hget. reflexivity.
Qed.

(** "Gym" is upserted at 3600000 ms and looked up at the same time: the
    entry read back is the one given, stamped with that time. *)
Lemma updatePlaylists_then_getCachedPlaylist_witness :
  fst (getCachedPlaylist 3600000 "p.gym"
         (snd (updatePlaylists 3600000 [gym 0] (storageWith [gym 0] None))))
  = Some (gym 3600000).
Proof.
  assert (Hfresh : 3600000 - 3600000 <= 5 * 60 * 1000) by lia.
  assert (Hlast : ~ In "p.gym"%string (@nil string)) by (intros []).
  exact (f_equal fst
           (proj1 (@updatePlaylists_then_getCachedPlaylist 3600000 3600000 [] []
                     (gym 0) "i.abc" (storageWith [gym 0] None) eq_refl Hfresh Hlast))).
Defined.

(** X3.  With caching enabled, [updatePlaylists] leaves the settings
    and the Modified-Set as they are and keeps, for every id outside the
    batch, the entry stored for it.  The ids of the record it writes are
    the old ones in their order, followed by new ones: exactly the old ids
    and the ids of the batch, and none twice if none was there twice. *)
Theorem updatePlaylists_keeps_other_entries (now : Z) (playlists : list CachedPlaylist)
    (ls : localStorage) :
  enabled (fst (getSettings ls)) = true ->
  let old := fst (getCache ls) in
  let ls' := snd (updatePlaylists now playlists ls) in
  settingsItem ls' = settingsItem ls /\
  modifiedItem ls' = modifiedItem ls /\
  exists cache',
    cacheItem ls' = Some (Doc cache') /\
    (forall i, ~ In i (map id playlists) -> storedEntry ls' i
               = find (fun p => String.eqb (id p) i) old) /\
    (exists added, map id cache' = map id old ++ added) /\
    (forall i, In i (map id cache') <-> In i (map id old) \/ In i (map id playlists)) /\
    (NoDup (map id old) -> NoDup (map id cache')).
Proof.
  intros Hon old ls'. subst ls'. rewrite updatePlaylists_run by exact Hon. simpl.
  fold old. split; [reflexivity|]. split; [reflexivity|].
  eexists. split; [reflexivity|]. unfold storedEntry. simpl.
  split; [intros i Hi; apply upserts_find_other, Hi|].
  rewrite upserts_ids.
  split; [apply marks_prefix|].
  split; [intros i; apply marks_In|apply marks_NoDup].
Qed.

(** "Run" is upserted into a cache that holds "Gym": the entry of "Gym"
    is the one that was there. *)
Lemma updatePlaylists_keeps_other_entries_witness :
  storedEntry (snd (updatePlaylists 3600000
                      [{| id := "p.run"; name := "Run"; tracks := []; lastModified := 0;
                          artworkUrl := None; cachedAt := 0 |}]
                      (storageWith [gym 3480000] None))) "p.gym"
  = Some (gym 3480000).
Proof.
  destruct (@updatePlaylists_keeps_other_entries 3600000
              [{| id := "p.run"; name := "Run"; tracks := []; lastModified := 0;
                  artworkUrl := None; cachedAt := 0 |}]
              (storageWith [gym 3480000] None) eq_refl)
    as (_ & _ & cache' & _ & Hkeep & _).
  rewrite Hkeep; [reflexivity|].
  simpl. intros [E|[]]. discriminate.
Defined.

(** X4.  After [saveSettings(s)], [getSettings] returns the settings
    it returned before with the fields that [s] gives replaced; the cache
    and the Modified-Set are as they were; saving [s] again, or saving an
    object without fields, changes nothing more. *)
Theorem saveSettings_then_getSettings (settings : PartialSettings) (ls : localStorage) :
  let ls' := snd (saveSettings settings ls) in
  fst (getSettings ls') = spread (fst (getSettings ls)) settings /\
  cacheItem ls' = cacheItem ls /\
  modifiedItem ls' = modifiedItem ls /\
  saveSettings settings ls' = (tt, ls') /\
  saveSettings {| enabled_opt := None; expirationMinutes_opt := None |} ls' = (tt, ls').
Proof.
  intros ls'. subst ls'. rewrite !saveSettings_run. simpl.
  split; [reflexivity|]. split; [reflexivity|]. split; [reflexivity|].
  unfold spread. simpl.
  destruct settings as [[b|] [m|]]; simpl; split; reflexivity.
Qed.

Lemma length_filter_le {A : Type} (f : A -> bool) (l : list A) :
  (List.length (filter f l) <= List.length l)%nat.
Proof.
  induction l as [|x rest IH]; simpl; [lia|]. destruct (f x); simpl; lia.
Qed.

Lemma length_filter_zero {A : Type} (f : A -> bool) (l : list A) :
  List.length (filter f l) = 0%nat <-> forall x, In x l -> f x = false.
Proof.
  induction l as [|x rest IH]; simpl.
  - split; [intros _ x []|reflexivity].
  - destruct (f x) eqn:E; simpl.
    + split; [discriminate|]. intros H. rewrite (H x) in E by auto. discriminate.
    + rewrite IH. split.
      * intros H y [<-|Hy]; auto.
      * intros H y Hy. apply H. auto.
Qed.

Lemma oldest_fold (cache : list CachedPlaylist) (init : Z) :
  let m := fold_left (fun oldest p => if cachedAt p <? oldest then cachedAt p else oldest)
                     cache init in
  m <= init /\
  (forall p, In p cache -> m <= cachedAt p) /\
  (m = init \/ exists p, In p cache /\ cachedAt p = m).
Proof.
  revert init. induction cache as [|x rest IH]; intros init; simpl.
  - split; [lia|]. split; [intros p []|auto].
  - set (next := if cachedAt x <? init then cachedAt x else init).
    destruct (IH next) as (Hle & Hall & Hex).
    assert (Hnext : next <= init /\ next <= cachedAt x /\
                    (next = init \/ next = cachedAt x)).
    { subst next. destruct (Z.ltb_spec (cachedAt x) init); lia. }
    split; [lia|]. split.
    + intros p [<-|Hp]; [lia|auto].
    + destruct Hex as [E|(p & Hp & E)].
      * destruct Hnext as (_ & _ & [E'|E']).
        -- left. lia.
        -- right. exists x. split; [auto|lia].
      * right. exists p. auto.
Qed.

Lemma find_id_In (cache : list CachedPlaylist) (p : CachedPlaylist) :
  In p cache ->
  exists q, find (fun x => String.eqb (id x) (id p)) cache = Some q /\
            In q cache /\ id q = id p.
Proof.
  induction cache as [|x rest IH]; intros Hin; [destruct Hin|]. simpl.
  destruct (String.eqb (id x) (id p)) eqn:E.
  - exists x. apply String.eqb_eq in E. auto.
  - destruct Hin as [->|Hin]; [rewrite String.eqb_refl in E; discriminate|].
    destruct (IH Hin) as (q & Hq & Hqin & Hid). exists q. auto.
Qed.

Lemma getStats_run (stringifiedLength : list CachedPlaylist -> nat) (now : Z)
    (ls : localStorage) :
  let cache := fst (getCache ls) in
  let limit := expirationMinutes (fst (getSettings ls)) * 60 * 1000 in
  getStats stringifiedLength now ls =
    ({| totalPlaylists := List.length cache;
        expiredPlaylists :=
          List.length (filter (fun p => now - cachedAt p >? limit) cache);
        modifiedPlaylists := List.length (fst (getModifiedPlaylists ls));
        cacheSizeKB := JS.roundDiv (textLength stringifiedLength (cacheItem ls)) 1024;
        oldestCache :=
          match cache with
          | [] => None
          | first :: _ =>
              Some (fold_left (fun oldest p => if cachedAt p <? oldest then cachedAt p
                                               else oldest) cache (cachedAt first))
          end |}, ls).
Proof.
  intros cache limit. unfold getStats, bind. subst cache limit.
  rewrite (surjective_pairing (getCache ls)).
  replace (snd (getCache ls)) with ls by (rewrite getCache_run; reflexivity).
  rewrite getSettings_run, getModifiedPlaylists_run. reflexivity.
Qed.

(** X5.  [getStats] leaves the storage as it is.  Its total is the
    number of entries [getCache] returns and its modified count the length
    of the Modified-Set; the expired count is at most the total, and it is
    zero exactly when every entry is within the expiration limit at the
    time of the call, in which case [getCachedPlaylist] finds an entry for
    the id of every entry.  [oldestCache] is null exactly when
    [getCache] returns no entry, and otherwise the least [cachedAt] of the
    entries. *)
Theorem getStats_figures (stringifiedLength : list CachedPlaylist -> nat) (now : Z)
    (ls : localStorage) :
  let cache := fst (getCache ls) in
  let limit := expirationMinutes (fst (getSettings ls)) * 60 * 1000 in
  let figures := fst (getStats stringifiedLength now ls) in
  snd (getStats stringifiedLength now ls) = ls /\
  totalPlaylists figures = List.length cache /\
  modifiedPlaylists figures = List.length (fst (getModifiedPlaylists ls)) /\
  (expiredPlaylists figures <= totalPlaylists figures)%nat /\
  (expiredPlaylists figures = 0%nat <->
   forall p, In p cache -> now - cachedAt p <= limit) /\
  (expiredPlaylists figures = 0%nat ->
   forall p, In p cache ->
   exists q, fst (getCachedPlaylist now (id p) ls) = Some q /\ id q = id p) /\
  match oldestCache figures with
  | None => cache = []
  | Some oldest =>
      (exists p, In p cache /\ cachedAt p = oldest) /\
      (forall p, In p cache -> oldest <= cachedAt p)
  end.
Proof.
  intros cache limit figures.
  pose proof (getStats_run stringifiedLength now ls) as Hrun.
  cbv zeta in Hrun. fold cache in Hrun. fold limit in Hrun.
  assert (Hzero : List.length (filter (fun p => now - cachedAt p >? limit) cache) = 0%nat
                  <-> forall p, In p cache -> now - cachedAt p <= limit).
  { rewrite length_filter_zero. split; intros H p Hp; specialize (H p Hp).
    - destruct (Z.gtb_spec (now - cachedAt p) limit); [discriminate|lia].
    - destruct (Z.gtb_spec (now - cachedAt p) limit); [lia|reflexivity]. }
  subst figures. rewrite Hrun. simpl.
  split; [reflexivity|]. split; [reflexivity|]. split; [reflexivity|].
  split; [apply length_filter_le|]. split; [exact Hzero|]. split.
  - intros Hnone p Hp.
    assert (Hon : enabled (fst (getSettings ls)) = true).
    { subst cache. rewrite getCache_run in Hp. simpl in Hp.
      destruct (enabled (fst (getSettings ls))); [reflexivity|destruct Hp]. }
    assert (Hcache : cache = match cacheItem ls with Some (Doc c) => c | _ => [] end).
    { subst cache. rewrite getCache_run, Hon. reflexivity. }
    destruct (find_id_In cache p Hp) as (q & Hq & Hqin & Hid).
    exists q. split; [|exact Hid].
    apply getCachedPlaylist_returns. split; [|split; [exact Hon|]].
    + unfold storedEntry. rewrite Hcache in Hq, Hp.
      destruct (cacheItem ls) as [[text|c]|]; try destruct Hp. exact Hq.
    + apply Hzero; assumption.
  - destruct cache as [|first rest] eqn:E; [reflexivity|].
    destruct (oldest_fold (first :: rest) (cachedAt first)) as (Hle & Hall & Hex).
    split; [|exact Hall].
    destruct Hex as [Heq|Hex]; [|exact Hex].
    exists first. split; [simpl; auto|]. symmetry. exact Heq.
Qed.

(** X6.  [clearCache] keeps the settings and removes the two other
    records: afterwards [getCache] and [getModifiedPlaylists] return empty
    arrays, [getCachedPlaylist] and [isSongInPlaylist] answer null for
    every playlist at every time, every figure of [getStats] is zero with
    no oldest entry, and clearing again changes nothing. *)
Theorem clearCache_empties (stringifiedLength : list CachedPlaylist -> nat) (now : Z)
    (ls : localStorage) :
  let ls' := snd (clearCache ls) in
  settingsItem ls' = settingsItem ls /\
  getCache ls' = ([], ls') /\
  getModifiedPlaylists ls' = ([], ls') /\
  (forall playlistId, getCachedPlaylist now playlistId ls' = (None, ls')) /\
  (forall playlistId songId, isSongInPlaylist now playlistId songId ls' = (None, ls')) /\
  getStats stringifiedLength now ls' =
    ({| totalPlaylists := 0; expiredPlaylists := 0; modifiedPlaylists := 0;
        cacheSizeKB := 0; oldestCache := None |}, ls') /\
  clearCache ls' = (tt, ls').
Proof.
  intros ls'.
  assert (Hc : getCache ls' = ([], ls')).
  { rewrite getCache_run. destruct (enabled (fst (getSettings ls'))); reflexivity. }
  assert (Hg : forall playlistId, getCachedPlaylist now playlistId ls' = (None, ls')).
  { intros playlistId. rewrite getCachedPlaylist_run.
    destruct (enabled (fst (getSettings ls'))); reflexivity. }
  split; [reflexivity|]. split; [exact Hc|]. split; [reflexivity|].
  split; [exact Hg|]. split.
  - intros playlistId songId. unfold isSongInPlaylist, bind. rewrite Hg. reflexivity.
  - split; [|reflexivity].
    unfold getStats, bind. rewrite Hc, getSettings_run. reflexivity.
Qed.

End CacheRoundTrips.

(* ------------------------------------------------------------------ *)
(** * The settings page *)

Section SettingsPage.

Import PlaylistCache.
Open Scope string_scope.
Open Scope list_scope.
Open Scope Z_scope.

(** X7.  [formatDate]: null is shown as "Never"; a date less than
    a minute old, or in the future, as "Just now"; then the age in whole
    minutes (1 to 59), in whole hours (1 to 23), or in whole days, rounded
    down. *)
Theorem formatDate_ranges (now date : Z) :
  let age := now - date in
  SettingsModal.formatDate now None = "Never" /\
  (age < 60000 -> SettingsModal.formatDate now (Some date) = "Just now") /\
  (60000 <= age < 3600000 ->
   SettingsModal.formatDate now (Some date) = (JS.showInt (age / 60000) ++ "m ago")%string /\
   1 <= age / 60000 <= 59) /\
  (3600000 <= age < 86400000 ->
   SettingsModal.formatDate now (Some date) = (JS.showInt (age / 3600000) ++ "h ago")%string /\
   1 <= age / 3600000 <= 23) /\
  (86400000 <= age ->
   SettingsModal.formatDate now (Some date) = (JS.showInt (age / 86400000) ++ "d ago")%string /\
   1 <= age / 86400000).
Proof.
  intros age. unfold SettingsModal.formatDate, JS.floorDiv. fold age.
  assert (Hh : age / 60000 / 60 = age / 3600000) by (rewrite Z.div_div by lia; reflexivity).
  assert (Hd : age / 60000 / 60 / 24 = age / 86400000)
    by (rewrite !Z.div_div by lia; reflexivity).
  rewrite Hd, Hh.
  split; [reflexivity|]. split; [|split; [|split]]; intros Hage.
  all: destruct (Z.ltb_spec (age / 60000) 1);
    [|destruct (Z.ltb_spec (age / 60000) 60);
      [|destruct (Z.ltb_spec (age / 3600000) 24)]].
  all: try (exfalso; Z.div_mod_to_equations; lia).
  all: try reflexivity.
  all: split; [reflexivity|Z.div_mod_to_equations; lia].
Qed.

Lemma loadSettings_run (st : SettingsModal.State) (ls : localStorage) :
  let cached := fst (getSettings ls) in
  let opened := fst (SettingsModal.loadSettings st ls) in
  snd (SettingsModal.loadSettings st ls) = ls /\
  SettingsModal.settings opened = cached /\
  SettingsModal.stats opened = SettingsModal.stats st /\
  SettingsModal.saveSuccess opened = SettingsModal.saveSuccess st /\
  (SettingsModal.selectedPreset opened = -1 /\
   SettingsModal.customMinutes opened = expirationMinutes cached \/
   SettingsModal.selectedPreset opened = expirationMinutes cached /\
   SettingsModal.customMinutes opened = SettingsModal.customMinutes st /\
   In (expirationMinutes cached) [1; 5; 15; 30; 60]).
Proof.
  intros cached opened. subst opened.
  unfold SettingsModal.loadSettings, bind. rewrite getSettings_run. fold cached.
  destruct (find _ SettingsModal.presetOptions) as [preset|] eqn:E.
  - apply find_some in E. destruct E as [Hin Heq]. apply Z.eqb_eq in Heq.
    destruct (Z.eqb_spec (snd preset) (-1)) as [Hc|Hp]; simpl.
    + repeat (split; [reflexivity|]). left. auto.
    + repeat (split; [reflexivity|]). right.
      split; [exact Heq|]. split; [reflexivity|].
      rewrite <- Heq. simpl in Hin.
      destruct Hin as [<-|[<-|[<-|[<-|[<-|[<-|[]]]]]]]; simpl in *; auto 6.
      contradiction.
  - simpl. repeat (split; [reflexivity|]). left. auto.
Qed.

Lemma onMounted_run (stringifiedLength : list CachedPlaylist -> nat) (now : Z)
    (st : SettingsModal.State) (ls : localStorage) :
  let cached := fst (getSettings ls) in
  let opened := fst (SettingsModal.onMounted stringifiedLength now st ls) in
  snd (SettingsModal.onMounted stringifiedLength now st ls) = ls /\
  SettingsModal.settings opened = cached /\
  SettingsModal.stats opened = fst (getStats stringifiedLength now ls) /\
  (SettingsModal.selectedPreset opened = -1 /\
   SettingsModal.customMinutes opened = expirationMinutes cached \/
   SettingsModal.selectedPreset opened = expirationMinutes cached /\
   SettingsModal.customMinutes opened = SettingsModal.customMinutes st /\
   In (expirationMinutes cached) [1; 5; 15; 30; 60]).
Proof.
  intros cached opened. subst opened.
  destruct (loadSettings_run st ls) as (Hls & Hset & _ & _ & Hsel).
  unfold SettingsModal.onMounted, SettingsModal.loadStats, bind.
  destruct (SettingsModal.loadSettings st ls) as [st1 ls1]. simpl in *. subst ls1.
  rewrite getStats_run. simpl. auto.
Qed.

(** X8.  The settings page: once it is mounted, the preset list, or
    the custom field when the list shows "Custom", shows the persisted
    expiration time, and the statistics are those of [getStats].
    Whatever the user then does with the list, the custom field and the
    switch, [saveSettings] persists exactly the settings the page holds,
    so that [getSettings] returns them; with no edit it persists what
    [getSettings] returned.  The cache and the Modified-Set are not
    touched, and an expiration time that was positive stays positive. *)
Theorem settings_page_saves_what_it_shows
    (stringifiedLength : list CachedPlaylist -> nat) (now : Z)
    (standalone : option bool) (onClose : bool)
    (edits : list SettingsModal.edit) (st : SettingsModal.State) (ls : localStorage) :
  let opened := SettingsModal.onMounted stringifiedLength now st ls in
  let edited := fold_left SettingsModal.perform edits (fst opened) in
  let saved := SettingsModal.saveSettings standalone onClose edited (snd opened) in
  let shown := if SettingsModal.selectedPreset (fst opened) =? -1
               then SettingsModal.customMinutes (fst opened)
               else SettingsModal.selectedPreset (fst opened) in
  shown = expirationMinutes (fst (getSettings ls)) /\
  SettingsModal.stats (fst opened) = fst (getStats stringifiedLength now ls) /\
  fst (getSettings (snd saved)) = SettingsModal.settings edited /\
  (edits = [] -> fst (getSettings (snd saved)) = fst (getSettings ls)) /\
  cacheItem (snd saved) = cacheItem ls /\
  modifiedItem (snd saved) = modifiedItem ls /\
  (0 < expirationMinutes (fst (getSettings ls)) ->
   0 < expirationMinutes (fst (getSettings (snd saved)))).
Proof.
  intros opened edited saved shown.
  destruct (onMounted_run stringifiedLength now st ls) as (Hls & Hset & Hstats & Hsel).
  fold opened in Hls, Hset, Hstats, Hsel.
  assert (Hsaved : fst (getSettings (snd saved)) = SettingsModal.settings edited /\
                   cacheItem (snd saved) = cacheItem ls /\
                   modifiedItem (snd saved) = modifiedItem ls).
  { subst saved. unfold SettingsModal.saveSettings, bind.
    rewrite Hls, saveSettings_run. simpl.
    split; [destruct (SettingsModal.settings edited); reflexivity|].
    split; reflexivity. }
  destruct Hsaved as (Hget & Hc & Hm).
  split.
  { subst shown. destruct Hsel as [[-> ->]|(-> & _ & Hin)]; [reflexivity|].
    destruct (Z.eqb_spec (expirationMinutes (fst (getSettings ls))) (-1)) as [E|_];
      [|reflexivity].
    rewrite E in Hin. simpl in Hin. intuition discriminate. }
  split; [exact Hstats|]. split; [exact Hget|]. split.
  { intros ->. rewrite Hget. subst edited. simpl. exact Hset. }
  split; [exact Hc|]. split; [exact Hm|].
  intros Hpos. rewrite Hget. subst edited. rewrite <- Hset in Hpos.
  clear - Hpos. revert Hpos. generalize (fst opened) as s.
  induction edits as [|e rest IH]; intros s Hpos; simpl; [exact Hpos|].
  apply IH. destruct e as [entry|minutes|on]; simpl.
  - destruct (nth_error SettingsModal.presetOptions entry) as [preset|] eqn:E;
      [|exact Hpos].
    unfold SettingsModal.handlePresetChange. simpl.
    destruct (Z.eqb_spec (snd preset) (-1)); simpl; [exact Hpos|].
    apply nth_error_In in E. simpl in E.
    destruct E as [<-|[<-|[<-|[<-|[<-|[<-|[]]]]]]]; simpl in *; lia.
  - unfold SettingsModal.handleCustomChange. simpl.
    destruct (Z.gtb_spec minutes 0); simpl; [lia|exact Hpos].
  - exact Hpos.
Qed.

(** X9.  The button "Clear Cache" of the settings page: when the
    user declines the confirmation nothing changes.  When the user
    confirms, the cache record and the Modified-Set are removed and the
    settings record is kept, every lookup misses, the figures the page
    shows are all zero with the oldest entry shown as "Never", and the
    settings the page holds are as they were. *)
Theorem settings_page_clearCache (stringifiedLength : list CachedPlaylist -> nat)
    (now : Z) (st : SettingsModal.State) (ls : localStorage) :
  let declined := SettingsModal.clearCache stringifiedLength false now st ls in
  let confirmed := SettingsModal.clearCache stringifiedLength true now st ls in
  let ls' := snd confirmed in
  declined = (st, ls) /\
  cacheItem ls' = None /\ modifiedItem ls' = None /\
  settingsItem ls' = settingsItem ls /\
  getCache ls' = ([], ls') /\
  getModifiedPlaylists ls' = ([], ls') /\
  (forall t playlistId songId, isSongInPlaylist t playlistId songId ls' = (None, ls')) /\
  SettingsModal.stats (fst confirmed)
    = {| totalPlaylists := 0; expiredPlaylists := 0; modifiedPlaylists := 0;
         cacheSizeKB := 0; oldestCache := None |} /\
  SettingsModal.formatDate now (oldestCache (SettingsModal.stats (fst confirmed)))
    = "Never" /\
  SettingsModal.settings (fst confirmed) = SettingsModal.settings st /\
  SettingsModal.selectedPreset (fst confirmed) = SettingsModal.selectedPreset st /\
  SettingsModal.customMinutes (fst confirmed) = SettingsModal.customMinutes st.
Proof.
  intros declined confirmed ls'.
  set (cleared := {| cacheItem := None; settingsItem := settingsItem ls;
                     modifiedItem := None |}).
  assert (Hc : getCache cleared = ([], cleared)).
  { rewrite getCache_run. destruct (enabled (fst (getSettings cleared))); reflexivity. }
  assert (Hstats : getStats stringifiedLength now cleared =
            ({| totalPlaylists := 0; expiredPlaylists := 0; modifiedPlaylists := 0;
                cacheSizeKB := 0; oldestCache := None |}, cleared)).
  { unfold getStats, bind. rewrite Hc, getSettings_run. reflexivity. }
  assert (Hrun : confirmed =
            (SettingsModal.mkState (SettingsModal.settings st)
               {| totalPlaylists := 0; expiredPlaylists := 0; modifiedPlaylists := 0;
                  cacheSizeKB := 0; oldestCache := None |}
               (SettingsModal.selectedPreset st) (SettingsModal.customMinutes st)
               (SettingsModal.saveSuccess st), cleared)).
  { subst confirmed. unfold SettingsModal.clearCache, SettingsModal.loadStats, bind.
    simpl. fold cleared. rewrite Hstats. reflexivity. }
  subst ls'. rewrite Hrun. simpl.
  split; [reflexivity|]. split; [reflexivity|]. split; [reflexivity|].
  split; [reflexivity|]. split; [exact Hc|]. split; [reflexivity|].
  split; [|repeat split].
  intros t playlistId songId. unfold isSongInPlaylist, bind.
  rewrite getCachedPlaylist_run.
  destruct (enabled (fst (getSettings cleared))); reflexivity.
Qed.

End SettingsPage.

(* ------------------------------------------------------------------ *)
(** * Fetching and checking one playlist *)

Section FetchProperties.

Import Modal.
Open Scope string_scope.
Open Scope list_scope.
Open Scope Z_scope.

Variable env : Env.

Lemma firstn_then_firstn_skipn {A : Type} (l : list A) (a b : nat) :
  firstn a l ++ firstn b (skipn a l) = firstn (a + b) l.
Proof.
  revert l. induction a as [|a IH]; intros l; simpl; [reflexivity|].
  destruct l as [|x rest]; simpl.
  - rewrite firstn_nil. reflexivity.
  - rewrite IH. reflexivity.
Qed.

Lemma v3_tracks_fails (playlistId : string) (offset : Z) (w w1 : World)
    (ev1 : list event) :
  v3_tracks env playlistId offset w = (Throw, w1, ev1) ->
  playlistTracks env playlistId offset = None.
Proof.
  unfold v3_tracks, bind, await.
  destruct (playlistTracks env playlistId offset) as [page|]; simpl;
    [discriminate|reflexivity].
Qed.

Lemma fetchAllTracks_paged (playlistId : string) (all : list Track) (offset : Z)
    (allTracks : list Track) (w : World) (page cap : nat) :
  (forall o, 0 <= o ->
     playlistTracks env playlistId o = Some (firstn page (skipn (Z.to_nat o) all)) \/
     (List.length all <= Z.to_nat o)%nat /\ playlistTracks env playlistId o = None) ->
  (page <= 100 <= page)%nat -> (cap <= 1100 <= cap)%nat ->
  forall k : nat,
    offset = 100 * Z.of_nat k -> (k <= 10)%nat ->
    (Z.to_nat offset <= List.length all)%nat ->
    allTracks = firstn (Z.to_nat offset) all ->
    fst (fst (fetchAllTracks env playlistId offset allTracks w)) = firstn cap all.
Proof.
  intros Hserved Hpg Hcap.
  funelim (fetchAllTracks env playlistId offset allTracks w);
    intros k Hk Hk10 Hlen Hacc; cbn [fst snd].
  all: assert (Hoff : 0 <= offset) by lia.
  all: destruct (Hserved offset Hoff) as [Hpage|[Hend Hnone]].
  all: match goal with
       | E : v3_tracks _ _ _ _ = (Ok _, _, _) |- _ =>
           pose proof (v3_tracks_page env _ _ _ E) as Hgot
       | E : v3_tracks _ _ _ _ = (Throw, _, _) |- _ =>
           pose proof (@v3_tracks_fails _ _ _ _ _ E) as Hgot
       end.
  all: try congruence.
  all: set (n := Z.to_nat offset) in *.
  all: try assert (Htracks : tracks = firstn page (skipn n all)) by congruence.
  - (* the page fails: past the end *)
    rewrite Hacc, !firstn_all2 by lia. reflexivity.
  - (* an empty page *)
    assert (Hnil : List.length tracks = 0%nat).
    { apply Nat.eqb_eq. assumption. }
    rewrite Htracks, length_firstn, length_skipn in Hnil.
    rewrite Hacc, !firstn_all2 by lia. reflexivity.
  - (* the cap *)
    assert (Hten : k = 10%nat).
    { pose proof e as Hc. unfold limit in Hc. rewrite Z.gtb_ltb in Hc.
      apply Z.ltb_lt in Hc. lia. }
    rewrite Hacc, Htracks, firstn_then_firstn_skipn.
    f_equal. subst n. lia.
  - (* more pages or a short page *)
    assert (Hnonzero : List.length tracks <> 0%nat).
    { apply Nat.eqb_neq. assumption. }
    destruct (Z.eqb_spec (Z.of_nat (List.length tracks)) limit) as [Hfull|Hshort].
    + destruct (fetchAllTracks env playlistId (offset + limit) (allTracks ++ tracks) w1)
        as [[got w2] ev2] eqn:Enext.
      cbn [fst snd] in *.
      unfold limit in *.
      assert (Hlen' : (100 <= List.length all - n)%nat).
      { rewrite Htracks, length_firstn, length_skipn in Hfull. lia. }
      apply (H all page cap Hserved Hpg Hcap (S k)).
      * lia.
      * pose proof e as Hc. rewrite Z.gtb_ltb in Hc. apply Z.ltb_ge in Hc. lia.
      * lia.
      * rewrite Hacc, Htracks, firstn_then_firstn_skipn. f_equal. subst n. lia.
    + cbn [fst snd]. unfold limit in *.
      assert (Hrest : (List.length all - n < 100)%nat).
      { rewrite Htracks, length_firstn, length_skipn in Hshort. lia. }
      rewrite Hacc, Htracks, firstn_then_firstn_skipn, !firstn_all2 by lia.
      reflexivity.
Qed.

(** X10.  Against a library that serves the tracks [all] of a
    playlist in pages of 100 and answers a page past the end with an error
    or with an empty page, the [while (hasMore)] loop returns the first
    1100 tracks of the playlist in their order: the whole playlist when it
    has at most 1100 tracks. *)
Theorem fetchTracks_returns_first_1100 (playlistId : string) (all : list Track)
    (w : World) :
  (forall offset, 0 <= offset ->
     playlistTracks env playlistId offset
       = Some (firstn (Z.to_nat limit) (skipn (Z.to_nat offset) all)) \/
     (List.length all <= Z.to_nat offset)%nat /\
     playlistTracks env playlistId offset = None) ->
  outcomeOf (fetchTracks env playlistId w) = Ok (firstn 1100 all) /\
  ((List.length all <= 1100)%nat -> outcomeOf (fetchTracks env playlistId w) = Ok all).
Proof.
  intros Hserved.
  assert (H : outcomeOf (fetchTracks env playlistId w) = Ok (firstn 1100 all)).
  { unfold fetchTracks, outcomeOf.
    pose proof (@fetchAllTracks_paged playlistId all 0 [] w (Z.to_nat limit) 1100
                  Hserved (conj (le_n _) (le_n _)) (conj (le_n _) (le_n _)) 0%nat
                  eq_refl) as Hp.
    destruct (fetchAllTracks env playlistId 0 [] w) as [[got w1] ev1].
    cbn [fst snd] in *. rewrite Hp; [reflexivity|lia|simpl; lia|reflexivity]. }
  split; [exact H|].
  intros Hlen. rewrite H, firstn_all2 by exact Hlen. reflexivity.
Qed.

Lemma fetchAllTracks_failed_page (playlistId : string) (offset : Z)
    (allTracks : list Track) (w : World) :
  playlistTracks env playlistId offset = None ->
  fst (fst (fetchAllTracks env playlistId offset allTracks w)) = allTracks.
Proof.
  intros Hnone.
  funelim (fetchAllTracks env playlistId offset allTracks w); cbn [fst snd].
  1: reflexivity.
  all: match goal with
       | E : v3_tracks _ _ _ _ = (Ok _, _, _) |- _ =>
           pose proof (v3_tracks_page env _ _ _ E) as Hgot
       end; congruence.
Qed.

Lemma allIdsOf_truthy (allTracks : list Track) (i : string) :
  In i (allIdsOf allTracks) -> JS.truthy i = true.
Proof.
  unfold allIdsOf. rewrite in_flat_map. intros ([a b] & _ & Hin). simpl in Hin.
  apply in_app_or in Hin.
  destruct Hin as [Hin|Hin];
    [destruct (JS.truthy a) eqn:E|destruct (JS.truthy b) eqn:E];
    simpl in Hin; intuition congruence.
Qed.

(** X11.  [checkSongInPlaylistWithCache] always returns: [found]
    says whether some search id matches some id of the fetched tracks, and
    the cache entry it returns carries the id and the name it was given,
    the ids of the fetched tracks, none of them empty, and the time of
    its end as [lastModified] and [cachedAt].  Its only requests are for the pages of
    that playlist.  When the first page fails, it returns [found = false]
    with an entry that has no tracks. *)
Theorem checkSongInPlaylistWithCache_result (playlistId playlistName : string)
    (searchIds : list string) (w : World) :
  let run := checkSongInPlaylistWithCache env playlistId playlistName searchIds w in
  let allIds := allIdsOf (fetchedTracks env playlistId w) in
  let t := clock env (suspensions (worldOf run)) in
  exists found,
    outcomeOf run
      = Ok (found, PlaylistCache.mkCachedPlaylist playlistId playlistName allIds t None t) /\
    (found = true <->
     exists searchId trackId,
       In searchId searchIds /\ In trackId allIds /\ idMatches searchId trackId = true) /\
    ~ In "" allIds /\
    Forall (paging playlistId) (eventsOf run) /\
    (playlistTracks env playlistId 0 = None -> allIds = [] /\ found = false).
Proof.
  intros run allIds t.
  exists (existsb (fun searchId => existsb (idMatches searchId) allIds) searchIds).
  pose proof (fetchTracks_ends env playlistId w) as Hf. unfold ends in Hf.
  subst run t allIds. unfold checkSongInPlaylistWithCache, bind, fetchedTracks in *.
  destruct (fetchTracks env playlistId w) as [[r w1] ev1].
  destruct Hf as [-> Hf]. simpl. rewrite app_nil_r.
  split; [reflexivity|]. split.
  { rewrite existsb_exists. split.
    - intros (s & Hs & Hm). apply existsb_exists in Hm. destruct Hm as (i & Hi & Hm).
      exists s, i. auto.
    - intros (s & i & Hs & Hi & Hm). exists s. split; [exact Hs|].
      apply existsb_exists. exists i. auto. }
  split.
  { intros Hin. apply allIdsOf_truthy in Hin. discriminate. }
  split; [apply (frame_events Hf)|].
  intros Hnone. rewrite (fetchAllTracks_failed_page _ _ _ _ Hnone). simpl.
  split; [reflexivity|].
  induction searchIds as [|s rest IH]; [reflexivity|exact IH].
Qed.

Lemma getCachedPlaylist_any_song (t : Z) (playlistId s1 s2 : string)
    (ls : PlaylistCache.localStorage) :
  fst (PlaylistCache.isSongInPlaylist t playlistId s1 ls) = None ->
  fst (PlaylistCache.isSongInPlaylist t playlistId s2 ls) = None.
Proof.
  unfold PlaylistCache.isSongInPlaylist, PlaylistCache.bind.
  destruct (PlaylistCache.getCachedPlaylist t playlistId ls) as [[p|] ls'];
    [discriminate|reflexivity].
Qed.

Lemma cachedVerdict_none (playlistId : string) (searchIds : list string) (w : World)
    (s : string) :
  fst (PlaylistCache.isSongInPlaylist (clock env (suspensions w)) playlistId s (storage w))
    = None ->
  cachedVerdict env playlistId searchIds w = (Ok None, w, []).
Proof.
  intros Hnone. induction searchIds as [|s' rest IH]; simpl; [reflexivity|].
  unfold bind, now, gets. rewrite readCache_run by apply isSongInPlaylist_reads.
  rewrite (getCachedPlaylist_any_song _ _ _ s' _ Hnone), IH. reflexivity.
Qed.

Lemma cachedVerdict_first (playlistId searchId : string) (rest : list string) (w : World) :
  cachedVerdict env playlistId (searchId :: rest) w
  = (Ok (fst (PlaylistCache.isSongInPlaylist (clock env (suspensions w)) playlistId
                searchId (storage w))), w, []).
Proof.
  simpl. unfold bind at 1 2, now, gets.
  rewrite readCache_run by apply isSongInPlaylist_reads.
  destruct (fst (PlaylistCache.isSongInPlaylist _ playlistId searchId (storage w)))
    as [b|] eqn:E; [reflexivity|].
  rewrite (cachedVerdict_none _ _ _ _ E). reflexivity.
Qed.

(** X12.  The loop of [loadPlaylists] that asks the cache for each
    search id in turn takes the answer of [isSongInPlaylist] for the first
    search id, whatever the other ids are, and changes nothing: it has a
    verdict exactly when [getCachedPlaylist] has an entry, and the verdict
    is whether the tracks of the entry include the first search id. *)
Theorem cachedVerdict_asks_first_id_only (playlistId searchId : string)
    (rest : list string) (w : World) :
  let run := cachedVerdict env playlistId (searchId :: rest) w in
  let t := clock env (suspensions w) in
  run = (Ok (fst (PlaylistCache.isSongInPlaylist t playlistId searchId (storage w))), w, [])
  /\
  (forall verdict,
     outcomeOf run = Ok (Some verdict) <->
     exists entry,
       fst (PlaylistCache.getCachedPlaylist t playlistId (storage w)) = Some entry /\
       verdict = JS.includesStr (PlaylistCache.tracks entry) searchId).
Proof.
  intros run t. subst run. rewrite cachedVerdict_first. fold t.
  split; [reflexivity|]. intros verdict. unfold outcomeOf. simpl.
  unfold PlaylistCache.isSongInPlaylist, PlaylistCache.bind.
  destruct (PlaylistCache.getCachedPlaylist t playlistId (storage w)) as [[p|] ls'];
    simpl.
  - split.
    + intros E. injection E as <-. eauto.
    + intros (entry & E & ->). injection E as <-. reflexivity.
  - split; [discriminate|]. intros (entry & E & _). discriminate.
Qed.

End FetchProperties.

Section FetchWitnesses.

Import Modal.
Open Scope string_scope.
Open Scope list_scope.
Open Scope Z_scope.

Lemma served_pages (all : list Track) (offset : Z) :
  served all offset = Some (firstn (Z.to_nat limit) (skipn (Z.to_nat offset) all)) \/
  (List.length all <= Z.to_nat offset)%nat /\ served all offset = None.
Proof.
  unfold served. destruct (Nat.ltb_spec (Z.to_nat offset) (List.length all)); auto.
Qed.

(** A playlist of 250 tracks, served in three pages, comes back whole. *)
Lemma fetchTracks_returns_first_1100_witness :
  outcomeOf (fetchTracks (calmEnv "777" [] (fun _ => longList 250)) "p.gym"
                         (mounted emptyStorage []))
  = Ok (longList 250).
Proof.
  apply (@fetchTracks_returns_first_1100
           (calmEnv "777" [] (fun _ => longList 250)) "p.gym" (longList 250)
           (mounted emptyStorage []) (fun offset _ => served_pages (longList 250) offset)).
  unfold longList. rewrite repeat_length. lia.
Defined.

End FetchWitnesses.

(* ------------------------------------------------------------------ *)
(** * The rows of the modal *)

Section SortProperties.

Open Scope list_scope.
Open Scope Z_scope.

Variable A : Type.
Variable cmp : A -> A -> Z.

Lemma insertSorted_Permutation (x : A) (l : list A) :
  Permutation (JS.insertSorted cmp x l) (x :: l).
Proof.
  induction l as [|y rest IH]; simpl; [reflexivity|].
  destruct (cmp x y >? 0); [|reflexivity].
  rewrite IH. apply perm_swap.
Qed.

Lemma sort_Permutation (l : list A) : Permutation (JS.sort cmp l) l.
Proof.
  unfold JS.sort. induction l as [|x rest IH]; simpl; [reflexivity|].
  rewrite insertSorted_Permutation, IH. reflexivity.
Qed.

Variable R : A -> A -> Prop.
Hypothesis R_cmp : forall a b, R a b <-> cmp a b <= 0.
Hypothesis R_total : forall a b, R a b \/ R b a.
Hypothesis R_trans : forall a b c, R a b -> R b c -> R a c.

Lemma insertSorted_sorted (x : A) (l : list A) :
  StronglySorted R l -> StronglySorted R (JS.insertSorted cmp x l).
Proof.
  induction l as [|y rest IH]; intros Hs; simpl.
  - constructor; constructor.
  - apply StronglySorted_inv in Hs. destruct Hs as [Hrest Hy].
    destruct (Z.gtb_spec (cmp x y) 0) as [Hgt|Hle].
    + constructor; [apply IH, Hrest|].
      apply Forall_forall. intros z Hz. apply insertSorted_In in Hz.
      destruct Hz as [->|Hz].
      * destruct (R_total y x) as [H|H]; [exact H|]. apply R_cmp in H. lia.
      * rewrite Forall_forall in Hy. apply Hy, Hz.
    + assert (Hxy : R x y) by (apply R_cmp; exact Hle).
      constructor; [constructor; assumption|].
      constructor; [exact Hxy|].
      eapply Forall_impl; [|exact Hy]. intros z Hz. eapply R_trans; eauto.
Qed.

Lemma sort_sorted (l : list A) : StronglySorted R (JS.sort cmp l).
Proof.
  unfold JS.sort. induction l as [|x rest IH]; simpl; [constructor|].
  apply insertSorted_sorted, IH.
Qed.

Lemma sort_of_sorted (l : list A) : StronglySorted R l -> JS.sort cmp l = l.
Proof.
  unfold JS.sort. induction l as [|x rest IH]; intros Hs; simpl; [reflexivity|].
  apply StronglySorted_inv in Hs. destruct Hs as [Hrest Hx].
  rewrite IH by exact Hrest.
  destruct rest as [|y rest']; simpl; [reflexivity|].
  apply Forall_inv in Hx. apply R_cmp in Hx.
  destruct (Z.gtb_spec (cmp x y) 0); [lia|reflexivity].
Qed.

End SortProperties.

Section RowProperties.

Import Modal.
Open Scope string_scope.
Open Scope list_scope.
Open Scope Z_scope.

Lemma listedBefore_cmp (a b : PlaylistCheckState) :
  listedBefore a b <-> membersFirst a b <= 0.
Proof.
  unfold listedBefore, membersFirst.
  destruct (isInPlaylist a), (isInPlaylist b); simpl; split; intros H;
    try lia; intuition (try discriminate; try lia).
Qed.

Lemma listedBefore_total (a b : PlaylistCheckState) :
  listedBefore a b \/ listedBefore b a.
Proof.
  unfold listedBefore.
  destruct (isInPlaylist a), (isInPlaylist b); try tauto;
    destruct (Z.le_ge_cases (lastModified a) (lastModified b)); intuition lia.
Qed.

Lemma listedBefore_trans (a b c : PlaylistCheckState) :
  listedBefore a b -> listedBefore b c -> listedBefore a c.
Proof.
  unfold listedBefore.
  destruct (isInPlaylist a), (isInPlaylist b), (isInPlaylist c);
    intuition (try discriminate; try lia).
Qed.

Section Filtered.

Variable toLowerCase : string -> string.

(** X13.  [filteredPlaylists] shows the rows whose lower-cased name
    includes the lower-cased query, all rows when the query is empty,
    each as often as it is among the rows; the rows that hold the song
    come first, and within each group the most recently modified first.
    With an empty query, rows that are already in this order are shown as
    they are. *)
Theorem filteredPlaylists_sorted_selection (searchQuery : string)
    (rows : list PlaylistCheckState) :
  let shown := filteredPlaylists toLowerCase searchQuery rows in
  let selected :=
    filter (fun p => negb (JS.truthy searchQuery)
                     || JS.includes (toLowerCase (name p)) (toLowerCase searchQuery))
           rows in
  Permutation shown selected /\
  StronglySorted listedBefore shown /\
  (forall p, In p shown <->
             In p rows /\
             (searchQuery = "" \/
              JS.includes (toLowerCase (name p)) (toLowerCase searchQuery) = true)) /\
  (StronglySorted listedBefore rows -> filteredPlaylists toLowerCase "" rows = rows).
Proof.
  intros shown selected.
  assert (Hsel : shown = JS.sort membersFirst selected).
  { subst shown selected. unfold filteredPlaylists.
    destruct (JS.truthy searchQuery); simpl; [reflexivity|].
    f_equal. induction rows as [|p rest IH]; simpl; congruence. }
  split; [rewrite Hsel; apply sort_Permutation|].
  split; [rewrite Hsel; apply (@sort_sorted _ membersFirst listedBefore);
          [apply listedBefore_cmp|apply listedBefore_total|apply listedBefore_trans]|].
  split.
  - intros p. rewrite Hsel, sort_In. subst selected. rewrite filter_In.
    unfold JS.truthy.
    destruct (String.eqb_spec searchQuery "") as [->|Hne]; simpl.
    + tauto.
    + intuition congruence.
  - intros Hs. unfold filteredPlaylists. simpl.
    apply (@sort_of_sorted _ membersFirst listedBefore); [apply listedBefore_cmp|exact Hs].
Qed.

End Filtered.

Lemma updateAt_nth {A : Type} (f : A -> A) (l : list A) (i j : nat) :
  nth_error (updateAt f l i) j
  = if Nat.eqb j i then option_map f (nth_error l j) else nth_error l j.
Proof.
  revert i j. induction l as [|x rest IH]; intros i j; simpl.
  - destruct j, i; simpl; try reflexivity; destruct (Nat.eqb j i); reflexivity.
  - destruct i as [|i], j as [|j]; simpl; try reflexivity. apply IH.
Qed.

Lemma updateAt_twice {A : Type} (f : A -> A) (l : list A) (i : nat) :
  (forall x, f (f x) = x) -> updateAt f (updateAt f l i) i = l.
Proof.
  intros Hf. revert i. induction l as [|x rest IH]; intros i; simpl.
  - destruct i; reflexivity.
  - destruct i as [|i]; simpl; [rewrite Hf|rewrite IH]; reflexivity.
Qed.

Lemma updateAt_count {A : Type} (f : A -> A) (test : A -> bool) (l : list A) (i : nat)
    (x : A) :
  (forall y, test (f y) = negb (test y)) ->
  nth_error l i = Some x ->
  List.length (filter test (updateAt f l i))
  = if test x then (List.length (filter test l) - 1)%nat
    else (List.length (filter test l) + 1)%nat.
Proof.
  intros Hf. revert i. induction l as [|y rest IH]; intros i Hi.
  - destruct i; discriminate.
  - destruct i as [|i]; simpl in *.
    + injection Hi as ->. rewrite Hf. destruct (test x); simpl; lia.
    + assert (Hpos : test x = true -> (0 < List.length (filter test rest))%nat).
      { intros Ex. clear IH. revert i Hi. induction rest as [|z rest' IH']; intros i Hi.
        - destruct i; discriminate.
        - destruct i as [|i]; simpl in *.
          + injection Hi as ->. rewrite Ex. simpl. lia.
          + destruct (test z); simpl; [lia|eauto]. }
      specialize (IH _ Hi).
      destruct (test y); simpl; rewrite IH; destruct (test x);
        try specialize (Hpos eq_refl); lia.
Qed.

(** X14.  [togglePlaylist] on a row negates the tick of that row and
    nothing else: the other rows are as they were, [changesCount] goes
    down by one when the row was pending and up by one when it was not,
    [hasChanges] says whether the count is positive, and a second toggle
    of the row restores the state. *)
Theorem togglePlaylist_flips_one_row (index : nat) (row : PlaylistCheckState)
    (w : World) :
  nth_error (playlists w) index = Some row ->
  let w' := worldOf (togglePlaylist index w) in
  let pending := fun v : World => List.length (filter changed (playlists v)) in
  nth_error (playlists w') index
    = Some (mkPlaylistCheckState (id row) (name row) (negb (isInPlaylist row))
                                 (originalState row) (lastModified row) (artworkUrl row)) /\
  (forall j, j <> index -> nth_error (playlists w') j = nth_error (playlists w) j) /\
  outcomeOf (changesCount w')
    = Ok (if changed row then pending w - 1 else pending w + 1)%nat /\
  outcomeOf (hasChanges w') = Ok (0 <? pending w')%nat /\
  togglePlaylist index w' = (Ok tt, w, []).
Proof.
  intros Hrow w' pending. subst w'. unfold togglePlaylist, modify, worldOf. simpl.
  split; [rewrite updateAt_nth, Nat.eqb_refl, Hrow; reflexivity|].
  split.
  { intros j Hj. rewrite updateAt_nth. apply Nat.eqb_neq in Hj. rewrite Hj. reflexivity. }
  split.
  { unfold changesCount, gets, outcomeOf. simpl. f_equal.
    eapply (@updateAt_count _ _ changed); [|exact Hrow].
    intros y. unfold changed. simpl.
    destruct (isInPlaylist y), (originalState y); reflexivity. }
  split.
  { unfold hasChanges, gets, outcomeOf, pending. simpl. f_equal.
    match goal with
    | |- context [updateAt ?f ?rows ?i] => generalize (updateAt f rows i) as l
    end.
    induction l as [|y rest IH]; simpl; [reflexivity|].
    unfold changed at 1. destruct (negb (Bool.eqb (isInPlaylist y) (originalState y)));
      simpl; [reflexivity|exact IH]. }
  rewrite updateAt_twice.
  - destruct w; reflexivity.
  - intros [i n b o l a]. simpl. rewrite negb_involutive. reflexivity.
Qed.

(** Two ticked rows; the user unticks the second. *)
Lemma togglePlaylist_flips_one_row_witness :
  nth_error
    (playlists (worldOf (togglePlaylist 1
       (mounted emptyStorage [ticked "p.gym" "Gym"; ticked "p.run" "Run"])))) 1
  = Some (mkPlaylistCheckState "p.run" "Run" false false 0 None).
Proof.
  exact (proj1 (@togglePlaylist_flips_one_row 1 (ticked "p.run" "Run")
                  (mounted emptyStorage [ticked "p.gym" "Gym"; ticked "p.run" "Run"])
                  eq_refl)).
Defined.

End RowProperties.

Section ArtworkProperties.

Import Modal.
Open Scope string_scope.

Lemma append_assoc (a b c : string) : (a ++ b) ++ c = a ++ b ++ c.
Proof. induction a as [|x a IH]; simpl; [reflexivity|]. rewrite IH. reflexivity. Qed.

Lemma prefix_append (pat rest : string) : String.prefix pat (pat ++ rest) = true.
Proof.
  induction pat as [|c pat IH]; simpl; [destruct rest; reflexivity|].
  destruct (ascii_dec c c); [exact IH|contradiction].
Qed.

Lemma substring_whole (s : string) : String.substring 0 (String.length s) s = s.
Proof. induction s as [|c s IH]; simpl; [reflexivity|]. rewrite IH. reflexivity. Qed.

Lemma drop_append (pat rest : string) : JS.drop (String.length pat) (pat ++ rest) = rest.
Proof.
  unfold JS.drop. induction pat as [|c pat IH]; simpl.
  - rewrite Nat.sub_0_r. apply substring_whole.
  - exact IH.
Qed.

Lemma plain_append (a b : string) : plain (a ++ b) = plain a && plain b.
Proof.
  induction a as [|c a IH]; simpl; [reflexivity|].
  rewrite IH, andb_assoc. reflexivity.
Qed.

Lemma prefix_plain (pat s : string) :
  String.prefix pat s = true -> plain s = true -> plain pat = true.
Proof.
  revert s. induction pat as [|c pat IH]; intros s Hp Hs; simpl; [reflexivity|].
  destruct s as [|x s]; simpl in *; [discriminate|].
  destruct (ascii_dec c x) as [->|]; [|discriminate].
  apply andb_true_iff in Hs. destruct Hs as [Hx Hs].
  rewrite Hx. simpl. eapply IH; eauto.
Qed.

Lemma replace_unfold (pat rep s : string) :
  JS.replace pat rep s =
  if String.prefix pat s then rep ++ JS.drop (String.length pat) s
  else match s with
       | EmptyString => EmptyString
       | String c rest => String c (JS.replace pat rep rest)
       end.
Proof. destruct s; reflexivity. Qed.

Lemma replace_absent (pat rep s : string) :
  plain s = true -> plain pat = false -> JS.replace pat rep s = s.
Proof.
  intros Hs Hpat. induction s as [|c s IH]; rewrite replace_unfold.
  - destruct (String.prefix pat "") eqn:E; [|reflexivity].
    rewrite (prefix_plain pat "" E Hs) in Hpat. discriminate.
  - destruct (String.prefix pat (String c s)) eqn:E.
    + rewrite (prefix_plain pat (String c s) E Hs) in Hpat. discriminate.
    + simpl in Hs. apply andb_true_iff in Hs. rewrite IH by apply Hs. reflexivity.
Qed.

Lemma replace_first (pat' rep pre post : string) :
  plain pre = true ->
  JS.replace (String "{" pat') rep (pre ++ String "{" pat' ++ post) = pre ++ rep ++ post.
Proof.
  intros Hpre. induction pre as [|c pre IH]; rewrite replace_unfold.
  - cbn [append].
    change (String "{" (pat' ++ post)) with (String "{" pat' ++ post).
    rewrite prefix_append, drop_append. reflexivity.
  - simpl in Hpre. apply andb_true_iff in Hpre. destruct Hpre as [Hc Hpre].
    cbn [append String.prefix].
    destruct (ascii_dec "{" c) as [<-|_]; [discriminate|].
    change (String "{" (pat' ++ post)) with (String "{" pat' ++ post).
    rewrite IH by exact Hpre. reflexivity.
Qed.

(** X15.  The artwork url of a row: in a template with the
    placeholders [{w}], [{h}] and [{f}], in this order, and no other brace,
    each placeholder is filled, with 60, 60 and jpg; a url without a brace
    is left as it is. *)
Theorem artwork60_fills_template (a b c d : string) :
  plain a = true -> plain b = true -> plain c = true -> plain d = true ->
  artwork60 (a ++ "{w}" ++ b ++ "{h}" ++ c ++ "{f}" ++ d)
    = a ++ "60" ++ b ++ "60" ++ c ++ "jpg" ++ d /\
  artwork60 a = a.
Proof.
  intros Ha Hb Hc Hd. unfold artwork60.
  assert (Hplain : forall u v, plain u = true -> plain v = true -> plain (u ++ v) = true).
  { intros u v Hu Hv. rewrite plain_append, Hu, Hv. reflexivity. }
  split.
  - rewrite (replace_first "w}" "60" a _ Ha).
    replace (a ++ "60" ++ b ++ "{h}" ++ c ++ "{f}" ++ d)
      with ((a ++ "60" ++ b) ++ "{h}" ++ c ++ "{f}" ++ d)
      by (rewrite !append_assoc; reflexivity).
    rewrite (replace_first "h}" "60" (a ++ "60" ++ b)) by auto.
    replace ((a ++ "60" ++ b) ++ "60" ++ c ++ "{f}" ++ d)
      with ((a ++ "60" ++ b ++ "60" ++ c) ++ "{f}" ++ d)
      by (rewrite !append_assoc; reflexivity).
    rewrite (replace_first "f}" "jpg" (a ++ "60" ++ b ++ "60" ++ c)) by auto 6.
    rewrite replace_absent; [rewrite !append_assoc; reflexivity| |reflexivity].
    auto 8.
  - rewrite (replace_absent "{w}" "60" a Ha eq_refl),
            (replace_absent "{h}" "60" a Ha eq_refl),
            (replace_absent "{f}" "jpg" a Ha eq_refl),
            (replace_absent ".{f}" ".jpg" a Ha eq_refl).
    reflexivity.
Qed.

(** An artwork template as the library serves it. *)
Lemma artwork60_fills_template_witness :
  artwork60 "https://is1-ssl.mzstatic.com/image/thumb/a.jpg/{w}x{h}bb.{f}"
  = "https://is1-ssl.mzstatic.com/image/thumb/a.jpg/60x60bb.jpg".
Proof.
  exact (proj1 (@artwork60_fills_template
                  "https://is1-ssl.mzstatic.com/image/thumb/a.jpg/" "x" "bb." ""
                  eq_refl eq_refl eq_refl eq_refl)).
Defined.

End ArtworkProperties.

(* ------------------------------------------------------------------ *)
(** * Applying the changes, step by step *)

Section Steps.

Import Modal.
Open Scope string_scope.
Open Scope list_scope.
Open Scope Z_scope.

Variable env : Env.

Lemma sameRefs_refl (w : World) : sameRefs w w.
Proof. repeat split. Qed.

Lemma sameRefs_trans (w w1 w2 : World) :
  sameRefs w w1 -> sameRefs w1 w2 -> sameRefs w w2.
Proof. unfold sameRefs. intuition congruence. Qed.

(** What one suspension does. *)
Lemma await_step (P : event -> Prop) (e : event) (w : World) :
  P e -> P ClosePressed -> (forall ids, P (ConcurrentMark ids)) ->
  ends (await env e) w
       (fun r w' ev =>
          r = Ok tt /\ Forall P ev /\ sameRefs w w' /\ hd_error ev = Some e /\
          delays ev = match e with Delay _ => 1%nat | _ => 0%nat end).
Proof.
  intros He Hc Hm. unfold ends, await. split; [reflexivity|]. split.
  { constructor; [exact He|]. apply Forall_app. split.
    - destruct (concurrentMark env (S (suspensions w))); auto.
    - destruct (match closePressedAt env with Some k => _ | None => _ end); auto. }
  split; [repeat split|]. split; [reflexivity|].
  unfold delays. simpl.
  destruct (concurrentMark env (S (suspensions w)));
    destruct (match closePressedAt env with Some k => _ | None => _ end);
    destruct e; reflexivity.
Qed.

Lemma delays_app (ev1 ev2 : list event) : delays (ev1 ++ ev2) = (delays ev1 + delays ev2)%nat.
Proof. unfold delays. rewrite filter_app, length_app. reflexivity. Qed.

Lemma calling_delays (ev : list event) : Forall calling ev -> delays ev = 0%nat.
Proof.
  unfold delays. induction 1 as [|e rest He _ IH]; [reflexivity|].
  simpl. destruct e; simpl in *; try contradiction; exact IH.
Qed.

Lemma paging_calling (playlistId : string) (e : event) : paging playlistId e -> calling e.
Proof. destruct e as [[]| | | | | | |]; simpl; auto. Qed.

Lemma v3_tracks_step (playlistId : string) (offset : Z) (w : World) :
  ends (v3_tracks env playlistId offset) w
       (fun _ w' ev =>
          sameRefs w w' /\
          hd_error ev = Some (Request (GetPlaylistTracks playlistId offset))).
Proof.
  unfold v3_tracks. apply ends_bind.
  eapply ends_weaken; [apply (await_step (fun _ => True)); auto|].
  intros r w' ev (-> & _ & Hs & Hhd & _). unfold ends.
  destruct (playlistTracks env playlistId offset); simpl; rewrite app_nil_r; auto.
Qed.

Lemma fetchAllTracks_step (playlistId : string) (offset : Z) (allTracks : list Track)
    (w : World) :
  sameRefs w (snd (fst (fetchAllTracks env playlistId offset allTracks w))) /\
  hd_error (snd (fetchAllTracks env playlistId offset allTracks w))
    = Some (Request (GetPlaylistTracks playlistId offset)).
Proof.
  funelim (fetchAllTracks env playlistId offset allTracks w).
  all: pose proof (v3_tracks_step playlistId offset w) as Hv; unfold ends in Hv.
  all: match goal with
       | E : v3_tracks _ _ _ _ = _ |- _ => rewrite E in Hv
       end; cbn [fst snd]; auto.
  destruct (Z.of_nat (List.length tracks) =? limit); cbn [fst snd]; auto.
  destruct (fetchAllTracks env playlistId (offset + limit) (allTracks ++ tracks) w1)
    as [[all w2] ev2].
  cbn [fst snd] in *. destruct Hv as [Hs Hhd]. destruct H as [Hs2 _]. split.
  - eapply sameRefs_trans; eauto.
  - destruct ev1; [discriminate|exact Hhd].
Qed.

Lemma fetchTracks_step (playlistId : string) (w : World) :
  ends (fetchTracks env playlistId) w
       (fun r w' ev =>
          r = Ok (fetchedTracks env playlistId w) /\
          Forall (paging playlistId) ev /\ sameRefs w w' /\
          hd_error ev = Some (Request (GetPlaylistTracks playlistId 0))).
Proof.
  pose proof (fetchTracks_ends env playlistId w) as Hf.
  pose proof (fetchAllTracks_step playlistId 0 [] w) as Hs.
  unfold ends, fetchTracks, fetchedTracks in *.
  destruct (fetchAllTracks env playlistId 0 [] w) as [[all w1] ev1].
  destruct Hf as [_ Hf]. cbn [fst snd] in *.
  split; [reflexivity|]. split; [apply (frame_events Hf)|]. exact Hs.
Qed.

Lemma addSongToPlaylist_step (playlistId : string) (w : World) :
  ends (addSongToPlaylist env playlistId) w
       (fun r w' ev =>
          sameRefs w w' /\ Forall calling ev /\
          (forall r, In (Request r) ev -> r = PostPlaylistTracks playlistId (songId env)) /\
          (musicTokens env = false -> ev = [] /\ r = Throw)).
Proof.
  unfold addSongToPlaylist. destruct (musicTokens env); simpl.
  - apply ends_bind.
    pose proof (await_step calling
                  (Request (PostPlaylistTracks playlistId (songId env))) w I I
                  (fun _ => I)) as Ha.
    pose proof (@await_requests env
                  (Request (PostPlaylistTracks playlistId (songId env))) w) as Hr.
    unfold ends in *. destruct (await env _ w) as [[r1 w1] ev1].
    destruct Ha as (-> & Hc & Hs & _).
    assert (Hreq : forall r, In (Request r) ev1
                             -> r = PostPlaylistTracks playlistId (songId env)).
    { intros r Hin. specialize (Hr r Hin). congruence. }
    destruct (postOk env playlistId); simpl; rewrite app_nil_r;
      (split; [exact Hs|split; [exact Hc|split; [exact Hreq|discriminate]]]).
  - unfold ends; simpl. split; [apply sameRefs_refl|]. split; [constructor|].
    split; [intros r []|auto].
Qed.

Lemma findIndex_none {A : Type} (f : A -> bool) (l : list A) :
  JS.findIndex f l = None -> existsb f l = false.
Proof.
  induction l as [|x rest IH]; simpl; [reflexivity|].
  destruct (f x); [discriminate|].
  destruct (JS.findIndex f rest); [discriminate|]. intros _. apply IH. reflexivity.
Qed.

Lemma removeSongFromPlaylist_step (playlistId : string) (w : World) :
  ends (removeSongFromPlaylist env playlistId) w
       (fun r w' ev =>
          sameRefs w w' /\ Forall calling ev /\
          (forall r, In (Request r) ev ->
                     (exists offset, r = GetPlaylistTracks playlistId offset) \/
                     (exists data, r = PutPlaylistTracks playlistId data)) /\
          (existsb (isMatch (songId env)) (fetchedTracks env playlistId w) = false ->
           r = Ok tt /\ forall p data, ~ In (Request (PutPlaylistTracks p data)) ev) /\
          (existsb (isMatch (songId env)) (fetchedTracks env playlistId w) = true ->
           musicTokens env = true ->
           exists data, In (Request (PutPlaylistTracks playlistId data)) ev) /\
          (musicTokens env = false ->
           forall p data, ~ In (Request (PutPlaylistTracks p data)) ev)).
Proof.
  unfold removeSongFromPlaylist. apply ends_bind.
  eapply ends_weaken; [apply fetchTracks_step|].
  intros r w1 ev1 (-> & Hpg & Hs1 & _).
  assert (Hc1 : Forall calling ev1).
  { eapply Forall_impl; [|exact Hpg]. apply paging_calling. }
  assert (Hreq1 : forall r, In (Request r) ev1 ->
                            exists offset, r = GetPlaylistTracks playlistId offset).
  { intros r Hin. rewrite Forall_forall in Hpg. specialize (Hpg _ Hin).
    destruct r; simpl in Hpg; try contradiction. subst. eauto. }
  assert (Hno : forall p data, ~ In (Request (PutPlaylistTracks p data)) ev1).
  { intros p data Hin. destruct (Hreq1 _ Hin) as [o E]. discriminate. }
  pose proof (filterTracks_found (songId env) (fetchedTracks env playlistId w) 0 None)
    as Hfound.
  destruct (filterTracks (songId env) (fetchedTracks env playlistId w) 0 None)
    as [remainingTracks foundIndex].
  simpl in Hfound. subst foundIndex.
  destruct (JS.findIndex (isMatch (songId env)) (fetchedTracks env playlistId w))
    as [k|] eqn:Efind; simpl.
  2: { apply findIndex_none in Efind. unfold ends; simpl. rewrite app_nil_r.
       split; [exact Hs1|]. split; [exact Hc1|]. split; [intros r Hin; left; auto|].
       split; [auto|]. split; [congruence|auto]. }
  apply findIndex_some in Efind.
  destruct (musicTokens env); simpl.
  2: { unfold ends; simpl. rewrite app_nil_r.
       split; [exact Hs1|]. split; [exact Hc1|]. split; [intros r Hin; left; auto|].
       split; [congruence|]. split; [discriminate|auto]. }
  apply ends_bind.
  set (put := Request (PutPlaylistTracks playlistId (map refOf remainingTracks))).
  pose proof (await_step calling put w1 I I (fun _ => I)) as Ha.
  pose proof (@await_requests env put w1) as Hr.
  unfold ends in *. destruct (await env put w1) as [[r2 w2] ev2].
  destruct Ha as (-> & Hc2 & Hs2 & Hhd & _).
  assert (Hput : In put ev2).
  { destruct ev2 as [|e rest]; [discriminate|]. injection Hhd as ->. left. reflexivity. }
  destruct (putOk env playlistId _); simpl; rewrite app_nil_r.
  all: split; [eapply sameRefs_trans; eauto|].
  all: split; [apply Forall_app; auto|].
  all: split; [intros r Hin; apply in_app_or in Hin; destruct Hin as [Hin|Hin];
               [left; auto|right; specialize (Hr r Hin); subst put;
                injection Hr as <-; eauto]|].
  all: split; [congruence|].
  all: split; [intros _ _; eexists; apply in_or_app; right; exact Hput|discriminate].
Qed.

Lemma delay_step (ms : Z) (w : World) :
  ends (delay env ms) w
       (fun r w' ev =>
          r = Ok tt /\ sameRefs w w' /\ delays ev = 1%nat /\
          (forall r, ~ In (Request r) ev)).
Proof.
  pose proof (await_step (fun _ => True) (Delay ms) w I I (fun _ => I)) as Ha.
  pose proof (@await_requests env (Delay ms) w) as Hr.
  unfold ends, delay in *. destruct (await env (Delay ms) w) as [[r w'] ev].
  destruct Ha as (-> & _ & Hs & _ & Hd).
  split; [reflexivity|]. split; [exact Hs|]. split; [exact Hd|].
  intros r Hin. specialize (Hr r Hin). discriminate.
Qed.

End Steps.

Section ApplyProperties.

Import Modal.
Open Scope string_scope.
Open Scope list_scope.
Open Scope Z_scope.

Variable env : Env.

Lemma committed_unchanged (p : PlaylistCheckState) :
  changed p = false -> committed p = p.
Proof.
  unfold changed, committed. destruct p as [i n b o l a]. simpl.
  destruct b, o; simpl; congruence.
Qed.

Lemma committed_settled (p : PlaylistCheckState) : changed (committed p) = false.
Proof. unfold changed, committed. simpl. destruct (isInPlaylist p); reflexivity. Qed.

Lemma updateAt_middle {A : Type} (f : A -> A) (pre : list A) (x : A) (rest : list A) :
  updateAt f (pre ++ x :: rest) (List.length pre) = pre ++ f x :: rest.
Proof. induction pre as [|y pre IH]; simpl; [reflexivity|]. rewrite IH. reflexivity. Qed.

Lemma operation_step (playlist : PlaylistCheckState) (w : World) :
  ends (operation env playlist) w
       (fun r w' ev =>
          sameRefs w w' /\ Forall calling ev /\
          (forall r, In (Request r) ev ->
             match r with
             | PostPlaylistTracks p s =>
                 p = id playlist /\ s = songId env /\ isInPlaylist playlist = true
             | GetPlaylistTracks p _ | PutPlaylistTracks p _ =>
                 p = id playlist /\ isInPlaylist playlist = false
             | _ => False
             end) /\
          (musicTokens env = false ->
           forall r, In (Request r) ev -> exists p o, r = GetPlaylistTracks p o)).
Proof.
  unfold operation. destruct (isInPlaylist playlist).
  - eapply ends_weaken; [apply addSongToPlaylist_step|].
    intros r w' ev (Hs & Hc & Hreq & Hno). split; [exact Hs|]. split; [exact Hc|]. split.
    + intros q Hin. rewrite (Hreq q Hin). auto.
    + intros Hoff q Hin. destruct (Hno Hoff) as [-> _]. destruct Hin.
  - eapply ends_weaken; [apply removeSongFromPlaylist_step|].
    intros r w' ev (Hs & Hc & Hreq & _ & _ & Hno). split; [exact Hs|].
    split; [exact Hc|]. split.
    + intros q Hin. destruct (Hreq q Hin) as [[o ->]|[data ->]]; auto.
    + intros Hoff q Hin. destruct (Hreq q Hin) as [[o ->]|[data ->]]; [eauto|].
      destruct (Hno Hoff _ _ Hin).
Qed.

Lemma applyLoop_rows (suffix : list PlaylistCheckState) (pre : list PlaylistCheckState)
    (modifiedIds : list string) (w : World) :
  playlists w = pre ++ suffix ->
  ends (applyLoop env (changesFrom (List.length pre) suffix) modifiedIds) w
       (fun r w' ev =>
          loading w' = loading w /\ processing w' = processing w /\
          cacheUsed w' = cacheUsed w /\
          (forall q, In (Request q) ev ->
             exists row, In row suffix /\ changed row = true /\
               match q with
               | PostPlaylistTracks p s =>
                   p = id row /\ s = songId env /\ isInPlaylist row = true
               | GetPlaylistTracks p _ | PutPlaylistTracks p _ =>
                   p = id row /\ isInPlaylist row = false
               | _ => False
               end) /\
          (musicTokens env = false ->
           forall q, In (Request q) ev -> exists p o, q = GetPlaylistTracks p o) /\
          match r with
          | Ok _ => playlists w' = pre ++ map committed suffix
          | Throw =>
              exists done rest,
                suffix = done ++ rest /\
                playlists w' = pre ++ map committed done ++ rest /\
                existsb changed rest = true
          end).
Proof.
  revert pre modifiedIds w.
  induction suffix as [|p rest IH]; intros pre modifiedIds w Hrows.
  { simpl. apply ends_ret.
    split; [reflexivity|]. split; [reflexivity|]. split; [reflexivity|].
    split; [intros q []|]. split; [intros _ q []|].
    simpl. rewrite Hrows. reflexivity. }
  simpl. fold (changed p). destruct (changed p) eqn:Ech.
  2: { specialize (IH (pre ++ [p]) modifiedIds w).
       rewrite length_app, Nat.add_comm in IH. simpl in IH.
       eapply ends_weaken; [apply IH; rewrite <- app_assoc; exact Hrows|].
       intros r w' ev (Hl & Hp & Hc & Hreq & Hoff & Hr).
       split; [exact Hl|]. split; [exact Hp|]. split; [exact Hc|]. split.
       { intros q Hin. destruct (Hreq q Hin) as (row & Hrow & Hx). exists row.
         split; [right; exact Hrow|exact Hx]. }
       split; [exact Hoff|].
       destruct r as [ids|].
       - rewrite Hr, <- app_assoc. simpl. rewrite committed_unchanged by exact Ech.
         reflexivity.
       - destruct Hr as (done & rest' & -> & Hw' & Hpending).
         exists (p :: done), rest'. split; [reflexivity|].
         split; [|exact Hpending].
         rewrite Hw', <- app_assoc. simpl. rewrite committed_unchanged by exact Ech.
         reflexivity. }
  simpl. apply ends_bind. fold (operation env p).
  eapply ends_weaken; [apply operation_step|].
  intros r1 w1 ev1 ((Hrows1 & Hl1 & Hp1 & Hc1) & _ & Hreq1 & Hoff1).
  assert (Hhere : forall q, In (Request q) ev1 ->
            exists row, In row (p :: rest) /\ changed row = true /\
              match q with
              | PostPlaylistTracks i s =>
                  i = id row /\ s = songId env /\ isInPlaylist row = true
              | GetPlaylistTracks i _ | PutPlaylistTracks i _ =>
                  i = id row /\ isInPlaylist row = false
              | _ => False
              end).
  { intros q Hin. exists p. split; [left; reflexivity|]. split; [exact Ech|].
    apply Hreq1, Hin. }
  destruct r1 as [[]|].
  2: { split; [exact Hl1|]. split; [exact Hp1|]. split; [exact Hc1|].
       split; [exact Hhere|]. split; [exact Hoff1|].
       exists [], (p :: rest). split; [reflexivity|].
       split; [rewrite Hrows1; exact Hrows|]. simpl. rewrite Ech. reflexivity. }
  apply ends_bind. unfold commitState. apply ends_modify.
  apply ends_bind.
  apply ends_weaken with (post := fun r w2 ev2 =>
    r = Ok tt /\ (forall q, ~ In (Request q) ev2) /\
    playlists w2 = (pre ++ [committed p]) ++ rest /\
    loading w2 = loading w /\ processing w2 = processing w /\
    cacheUsed w2 = cacheUsed w).
  { assert (Hafter : updateAt (fun q => mkPlaylistCheckState (id q) (name q)
                                (isInPlaylist q) (isInPlaylist q) (lastModified q)
                                (artworkUrl q))
                              (playlists w1) (List.length pre)
                     = (pre ++ [committed p]) ++ rest).
    { rewrite Hrows1, Hrows, <- app_assoc. apply (updateAt_middle committed). }
    destruct (changesFrom (S (List.length pre)) rest).
    - apply ends_ret. simpl. rewrite Hafter. repeat split; auto.
    - eapply ends_weaken; [apply delay_step|].
      intros r w2 ev2 (-> & (Hr2 & Hl2 & Hp2 & Hc2) & _ & Hno). simpl in *.
      rewrite Hr2, Hl2, Hp2, Hc2, Hafter. repeat split; auto. }
  intros r w2 ev2 (-> & Hno2 & Hrows2 & Hl2 & Hp2 & Hc2).
  specialize (IH (pre ++ [committed p]) (modifiedIds ++ [id p]) w2).
  rewrite length_app, Nat.add_comm in IH. simpl in IH.
  eapply ends_weaken; [apply IH; exact Hrows2|].
  intros r w3 ev3 (Hl3 & Hp3 & Hc3 & Hreq3 & Hoff3 & Hr3). simpl.
  split; [congruence|]. split; [congruence|]. split; [congruence|]. split.
  { intros q Hin. apply in_app_or in Hin. destruct Hin as [Hin|Hin]; [auto|].
    apply in_app_or in Hin. destruct Hin as [Hin|Hin]; [destruct (Hno2 _ Hin)|].
    destruct (Hreq3 q Hin) as (row & Hrow & Hx). exists row.
    split; [right; exact Hrow|exact Hx]. }
  split.
  { intros Hoff q Hin. apply in_app_or in Hin. destruct Hin as [Hin|Hin]; [auto|].
    apply in_app_or in Hin. destruct Hin as [Hin|Hin]; [destruct (Hno2 _ Hin)|auto]. }
  destruct r as [ids|].
  - rewrite Hr3, <- app_assoc. reflexivity.
  - destruct Hr3 as (done & rest' & -> & Hw' & Hpending).
    exists (p :: done), rest'. split; [reflexivity|]. split; [|exact Hpending].
    rewrite Hw', <- app_assoc. reflexivity.
Qed.

Lemma hasChanges_run (w : World) :
  hasChanges w = (Ok (existsb changed (playlists w)), w, []).
Proof. reflexivity. Qed.

Lemma committed_rows_settled (rows : list PlaylistCheckState) :
  existsb changed (map committed rows) = false.
Proof.
  induction rows as [|p rest IH]; simpl; [reflexivity|].
  rewrite committed_settled. exact IH.
Qed.

Lemma ends_conj {A : Type} (m : M A) (w : World)
    (P Q : Result A -> World -> list event -> Prop) :
  ends m w P -> ends m w Q -> ends m w (fun r w' ev => P r w' ev /\ Q r w' ev).
Proof. unfold ends. destruct (m w) as [[r w'] ev]. auto. Qed.

Lemma applyChanges_ends (w : World) : ends (applyChanges env) w (applyEnds env w).
Proof.
  unfold applyChanges. apply ends_bind. unfold ends at 1. rewrite hasChanges_run.
  destruct (existsb changed (playlists w)) eqn:Eany; simpl.
  2: { unfold ends, applyEnds; simpl. split; [intros q [E|[]]; discriminate|].
       split; [intros _ q [E|[]]; discriminate|]. auto. }
  apply ends_bind, ends_modify. apply ends_tryCatch.
  apply ends_bind, ends_gets. apply ends_bind.
  set (w0 := setProcessing true w).
  eapply ends_weaken;
    [apply ends_conj;
     [apply (@applyLoop_rows (playlists w0) [] [] w0 eq_refl)
     |apply (applyLoop_ends env (changesFrom 0 (playlists w0)) [] w0)]|].
  intros r w1 ev1 [(Hl & Hp & Hc & Hreq & Hoff & Hr) [Hf Hids]].
  destruct r as [ids|].
  - rewrite changesFrom_ids in Hids. simpl in Hids.
    apply ends_bind, ends_writeCache. apply ends_bind. unfold closeModal.
    apply ends_bind, ends_modify. apply ends_emit. apply ends_ret.
    unfold applyEnds. simpl. rewrite ?app_nil_r.
    assert (Hin : forall q, In (Request q) (ev1 ++ [CacheWrite (MarkPlaylistsModified ids);
                                                   ModalClosed]) -> In (Request q) ev1).
    { intros q Hin. apply in_app_or in Hin. destruct Hin as [Hin|[E|[E|[]]]];
        [exact Hin|discriminate|discriminate]. }
    split; [intros q Hq; apply Hreq, Hin, Hq|].
    split; [intros Hno q Hq; apply (Hoff Hno), Hin, Hq|].
    split; [exact Hl|]. split; [exact Hc|].
    split; [exact Hr|]. split; [reflexivity|]. split; [exact Hp|].
    intros Hm row Hrow Hch. apply markPlaylistsModified_adds.
    + apply (frame_markable Hf). exact Hm.
    + rewrite Hids. apply in_map, filter_In. auto.
  - apply ends_bind, ends_emit. apply ends_bind, ends_modify. apply ends_ret.
    unfold applyEnds. simpl. rewrite ?app_nil_r.
    assert (Hin : forall q, In (Request q)
                    (ev1 ++ [Alert "Failed to update playlists. Please try again."])
                  -> In (Request q) ev1).
    { intros q Hin. apply in_app_or in Hin. destruct Hin as [Hin|[E|[]]];
        [exact Hin|discriminate]. }
    split; [intros q Hq; apply Hreq, Hin, Hq|].
    split; [intros Hno q Hq; apply (Hoff Hno), Hin, Hq|].
    split; [exact Hl|]. split; [exact Hc|].
    split; [destruct Hr as (done & rest & E & Hw' & Hpend); exists done, rest; auto|].
    split; [reflexivity|].
    exists ev1. split; [reflexivity|apply (frame_events Hf)].
Qed.

End ApplyProperties.

Section ApplyTheorems.

Import Modal.
Open Scope string_scope.
Open Scope list_scope.
Open Scope Z_scope.

Lemma applyChanges_applyEnds (env : Env) (w : World) :
  applyEnds env w (outcomeOf (applyChanges env w)) (worldOf (applyChanges env w))
            (eventsOf (applyChanges env w)).
Proof. eapply ends_run; [apply applyChanges_ends|apply run_eta]. Qed.

(** X16.  [applyChanges] calls the remote library for changed rows
    only: an append is made for a row that is ticked and was not, with the
    song of the modal; a page fetch or a replace is made for a row that is
    not ticked and was.  It never asks for the playlist listing or for the
    library song.  When the MusicKit tokens are missing, its only requests
    are page fetches. *)
Theorem applyChanges_calls_changed_rows_only (env : Env) (w : World) :
  let run := applyChanges env w in
  (forall playlistId s,
     In (Request (PostPlaylistTracks playlistId s)) (eventsOf run) ->
     s = songId env /\
     exists row, In row (playlists w) /\ id row = playlistId /\
                 isInPlaylist row = true /\ originalState row = false) /\
  (forall playlistId data,
     In (Request (PutPlaylistTracks playlistId data)) (eventsOf run) ->
     exists row, In row (playlists w) /\ id row = playlistId /\
                 isInPlaylist row = false /\ originalState row = true) /\
  (forall playlistId offset,
     In (Request (GetPlaylistTracks playlistId offset)) (eventsOf run) ->
     exists row, In row (playlists w) /\ id row = playlistId /\
                 isInPlaylist row = false /\ originalState row = true) /\
  (forall q, In (Request q) (eventsOf run) ->
     q <> GetLibraryPlaylists /\ forall c, q <> GetLibrarySongs c) /\
  (musicTokens env = false ->
   forall q, In (Request q) (eventsOf run) ->
   exists playlistId offset, q = GetPlaylistTracks playlistId offset).
Proof.
  intros run. pose proof (applyChanges_applyEnds env w) as (Hreq & Hoff & _).
  fold run in Hreq, Hoff.
  assert (Hrow : forall row b, changed row = true -> isInPlaylist row = b ->
                               originalState row = negb b).
  { intros row b Hch <-. unfold changed in Hch.
    destruct (isInPlaylist row), (originalState row); simpl in *; congruence. }
  split; [|split; [|split; [|split]]].
  - intros p s Hin. destruct (Hreq _ Hin) as (row & Hrow' & Hch & -> & -> & Hin').
    split; [reflexivity|]. exists row. repeat split; auto. apply (Hrow row true); auto.
  - intros p data Hin. destruct (Hreq _ Hin) as (row & Hrow' & Hch & -> & Hin').
    exists row. repeat split; auto. apply (Hrow row false); auto.
  - intros p o Hin. destruct (Hreq _ Hin) as (row & Hrow' & Hch & -> & Hin').
    exists row. repeat split; auto. apply (Hrow row false); auto.
  - intros q Hin. destruct (Hreq _ Hin) as (row & _ & _ & Hq).
    destruct q; try contradiction; split; try discriminate; intros c; discriminate.
  - exact Hoff.
Qed.

(** X17.  The three ends of [applyChanges].  With no changed row it
    closes the modal and does nothing else.  When every call succeeds,
    every row is committed (its original state is its tick), no change is
    left, and the modal is closed while [processing] stays set.  When a
    call fails, the rows before the failing one are committed, the failing
    row and the rows after it are as they were, changes are left,
    [processing] is reset, and the run ends with the alert, before which
    the cache is not written. *)
Theorem applyChanges_outcomes (env : Env) (w : World) :
  let run := applyChanges env w in
  let w' := worldOf run in
  match outcomeOf run with
  | Ok NothingToApply =>
      outcomeOf (hasChanges w) = Ok false /\ eventsOf run = [ModalClosed] /\
      w' = setAborted true w
  | Ok Applied =>
      outcomeOf (hasChanges w) = Ok true /\
      playlists w' = map committed (playlists w) /\
      outcomeOf (hasChanges w') = Ok false /\
      aborted w' = true /\ processing w' = true
  | Ok ApplyFailed =>
      outcomeOf (hasChanges w) = Ok true /\
      (exists done rest,
         playlists w = done ++ rest /\
         playlists w' = map committed done ++ rest /\
         existsb changed rest = true) /\
      outcomeOf (hasChanges w') = Ok true /\
      processing w' = false /\
      (exists before,
         eventsOf run = before ++ [Alert "Failed to update playlists. Please try again."] /\
         Forall outside before)
  | Throw => False
  end.
Proof.
  intros run w'.
  pose proof (applyChanges_applyEnds env w) as (_ & _ & _ & _ & Hr).
  fold run in Hr. fold w' in Hr.
  assert (Hany : outcomeOf run <> Ok NothingToApply ->
                 outcomeOf (hasChanges w) = Ok true).
  { subst run. unfold applyChanges, bind at 1. rewrite hasChanges_run.
    destruct (existsb changed (playlists w)) eqn:E; [reflexivity|].
    intros H. exfalso. apply H. reflexivity. }
  destruct (outcomeOf run) as [[| |]|].
  - destruct Hr as (Hnone & Hev & Hw). rewrite hasChanges_run. unfold outcomeOf. simpl.
    rewrite Hnone. auto.
  - destruct Hr as (Hrows & Ha & Hp & _).
    split; [apply Hany; discriminate|]. split; [exact Hrows|].
    split; [|auto]. rewrite hasChanges_run. unfold outcomeOf. simpl.
    rewrite Hrows, committed_rows_settled. reflexivity.
  - destruct Hr as ((done & rest & E & Hw' & Hpend) & Hp & Hev).
    split; [apply Hany; discriminate|].
    split; [exists done, rest; auto|]. split; [|auto].
    rewrite hasChanges_run. unfold outcomeOf. simpl.
    rewrite Hw', existsb_app, Hpend, orb_true_r. reflexivity.
  - exact Hr.
Qed.

End ApplyTheorems.

(* ------------------------------------------------------------------ *)
(** * The modal without the cache *)

Section Sibling.

Import Modal.
Open Scope string_scope.
Open Scope list_scope.
Open Scope Z_scope.

Variable env : Env.

Lemma fetchAllTracks_collected (playlistId : string) (offset : Z)
    (allTracks : list Track) (w : World) :
  forall rounds : nat,
    (1 <= rounds)%nat -> 1000 < offset + 100 * Z.of_nat rounds ->
    fst (fst (fetchAllTracks env playlistId offset allTracks w))
    = collected (playlistTracks env playlistId) rounds offset allTracks.
Proof.
  funelim (fetchAllTracks env playlistId offset allTracks w);
    intros rounds Hone Hcap; cbn [fst snd].
  all: destruct rounds as [|rounds]; [lia|]; cbn [collected].
  all: match goal with
       | E : v3_tracks _ _ _ _ = (Ok _, _, _) |- _ =>
           rewrite (v3_tracks_page env _ _ _ E)
       | E : v3_tracks _ _ _ _ = (Throw, _, _) |- _ =>
           rewrite (@v3_tracks_fails _ _ _ _ _ _ E)
       end.
  - reflexivity.
  - rewrite Heq. reflexivity.
  - rewrite Heq. rewrite e. reflexivity.
  - rewrite Heq. rewrite e.
    destruct (Z.of_nat (List.length tracks) =? limit); [|reflexivity].
    destruct (fetchAllTracks env playlistId (offset + limit) (allTracks ++ tracks) w1)
      as [[all w2] ev2].
    cbn [fst snd] in *. apply H.
    + pose proof e as Hc. unfold limit in Hc. rewrite Z.gtb_ltb in Hc.
      apply Z.ltb_ge in Hc. lia.
    + unfold limit. lia.
Qed.

Lemma fetchedTracks_any_world (playlistId : string) (w1 w2 : World) :
  fetchedTracks env playlistId w1 = fetchedTracks env playlistId w2.
Proof.
  unfold fetchedTracks.
  rewrite !(@fetchAllTracks_collected playlistId 0 [] _ 11%nat) by lia.
  reflexivity.
Qed.

Lemma sibling_checkSong_run (playlistId playlistName : string) (w : World) :
  outcomeOf (PlaylistManagerModal.checkSongInPlaylist env playlistId playlistName w)
  = Ok (existsb (isMatch (songId env)) (fetchedTracks env playlistId w)) /\
  Forall (paging playlistId)
         (eventsOf (PlaylistManagerModal.checkSongInPlaylist env playlistId playlistName w)).
Proof.
  pose proof (fetchTracks_step env playlistId w) as Hf.
  unfold PlaylistManagerModal.checkSongInPlaylist, bind, ends, outcomeOf, eventsOf in *.
  destruct (fetchTracks env playlistId w) as [[r w1] ev1].
  destruct Hf as (-> & Hpg & _). simpl. rewrite app_nil_r. auto.
Qed.

(** X18.  In the modal without the cache, with the MusicKit tokens
    present: [checkSongInPlaylist] always returns, and it reports the song
    as found in a playlist exactly when [removeSongFromPlaylist] on that
    playlist sends a replace call; when it reports the song as absent, the
    removal succeeds with page fetches as its only requests. *)
Theorem sibling_check_agrees_with_removal (playlistId playlistName : string)
    (w1 w2 : World) :
  musicTokens env = true ->
  let check := PlaylistManagerModal.checkSongInPlaylist env playlistId playlistName w1 in
  let removal := removeSongFromPlaylist env playlistId w2 in
  (exists found, outcomeOf check = Ok found) /\
  (outcomeOf check = Ok true <->
   exists data, In (Request (PutPlaylistTracks playlistId data)) (eventsOf removal)) /\
  (outcomeOf check = Ok false ->
   outcomeOf removal = Ok tt /\
   forall q, In (Request q) (eventsOf removal) ->
             exists offset, q = GetPlaylistTracks playlistId offset).
Proof.
  intros Htok check removal.
  destruct (sibling_checkSong_run playlistId playlistName w1) as [Hcheck _].
  fold check in Hcheck.
  pose proof (removeSongFromPlaylist_step env playlistId w2) as Hrem.
  unfold ends in Hrem. fold removal in Hrem.
  rewrite (run_eta removal) in Hrem.
  destruct Hrem as (_ & _ & Hreq & Hnone & Hsome & _).
  rewrite (fetchedTracks_any_world playlistId w2 w1) in Hnone, Hsome.
  rewrite Hcheck. split; [eauto|].
  destruct (existsb (isMatch (songId env)) (fetchedTracks env playlistId w1)).
  - split; [split; [intros _; apply Hsome; auto|reflexivity]|discriminate].
  - destruct (Hnone eq_refl) as [Hok Hno]. split.
    + split; [discriminate|]. intros [data Hin]. destruct (Hno _ _ Hin).
    + intros _. split; [exact Hok|].
      intros q Hin. destruct (Hreq q Hin) as [Hget|[data ->]]; [exact Hget|].
      destruct (Hno _ _ Hin).
Qed.

Lemma changesFrom_length (index : nat) (rows : list PlaylistCheckState) :
  List.length (changesFrom index rows) = List.length (filter changed rows).
Proof.
  rewrite <- (length_map (fun c => id (snd c))), changesFrom_ids, length_map.
  reflexivity.
Qed.

Lemma operation_frame (playlist : PlaylistCheckState) (w : World) :
  ends (operation env playlist) w (fun _ w' ev => frame env outside w w' ev).
Proof.
  unfold operation. destruct (isInPlaylist playlist).
  - apply addSongToPlaylist_ends.
  - eapply ends_weaken; [apply removeSongFromPlaylist_ends|].
    intros r w' ev [Hf _]. exact Hf.
Qed.

Lemma sibling_applyLoop_ends (shouldDelay : bool)
    (changes : list (nat * PlaylistCheckState)) (w : World) :
  ends (PlaylistManagerModal.applyLoop env shouldDelay changes) w
       (fun r w' ev =>
          sameRefs w w' /\ frame env outside w w' ev /\
          (shouldDelay = false -> delays ev = 0%nat) /\
          (delays ev <= List.length changes - 1)%nat /\
          (r = Ok tt -> shouldDelay = true ->
           delays ev = (List.length changes - 1)%nat)).
Proof.
  revert w. induction changes as [|[index playlist] rest IH]; intros w; simpl.
  - apply ends_ret. split; [apply sameRefs_refl|]. split; [apply frame_refl|]. auto.
  - apply ends_bind. fold (operation env playlist).
    eapply ends_weaken; [apply ends_conj; [apply operation_step|apply operation_frame]|].
    intros r1 w1 ev1 [(Hs1 & Hc1 & _) Hf1].
    assert (Hd1 : delays ev1 = 0%nat) by (apply calling_delays, Hc1).
    destruct r1 as [[]|].
    2: { split; [exact Hs1|]. split; [exact Hf1|]. rewrite Hd1.
         split; [auto|]. split; [lia|discriminate]. }
    apply ends_bind.
    apply ends_weaken with (post := fun r w2 ev2 =>
      r = Ok tt /\ sameRefs w1 w2 /\ frame env outside w1 w2 ev2 /\
      delays ev2 = match rest with
                   | [] => 0%nat
                   | _ :: _ => if shouldDelay then 1%nat else 0%nat
                   end).
    { destruct rest as [|c rest'].
      - apply ends_ret. split; [reflexivity|]. split; [apply sameRefs_refl|].
        split; [apply frame_refl|reflexivity].
      - destruct shouldDelay.
        + eapply ends_weaken; [apply ends_conj; [apply delay_step|apply delay_frame]|].
          intros r w2 ev2 [(-> & Hs & Hone & _) [_ Hf]]. auto.
        + apply ends_ret. split; [reflexivity|]. split; [apply sameRefs_refl|].
          split; [apply frame_refl|reflexivity]. }
    intros r w2 ev2 (-> & Hs2 & Hf2 & Hd2).
    eapply ends_weaken; [apply IH|].
    intros r w3 ev3 (Hs3 & Hf3 & Hoff3 & Hle3 & Hall3). simpl.
    split; [eapply sameRefs_trans; [exact Hs1|eapply sameRefs_trans; eauto]|].
    split; [eapply frame_trans; [exact Hf1|eapply frame_trans; eauto]|].
    rewrite !delays_app, Hd1, Hd2.
    destruct rest as [|c rest']; simpl in *.
    + split; [intros ->; rewrite Hoff3; auto|]. split; [lia|].
      intros -> ->. specialize (Hall3 eq_refl eq_refl). lia.
    + split; [intros ->; rewrite Hoff3; auto|].
      split; [destruct shouldDelay; lia|].
      intros -> ->. specialize (Hall3 eq_refl eq_refl). lia.
Qed.

Lemma outside_no_write (ev : list event) (c : cacheCall) :
  Forall outside ev -> ~ In (CacheWrite c) ev.
Proof. intros Hall Hin. rewrite Forall_forall in Hall. apply (Hall _ Hin). Qed.

(** X19.  [applyChanges] of the modal without the cache waits
    between two changes only when there are more than five changes: with
    five changes or fewer it never waits, it waits at most once less than
    there are changes, and exactly that often when more than five changes
    all succeed.  It never writes to the cache, leaves the cache record as
    it is, and does not commit the rows. *)
Theorem sibling_applyChanges_delays_over_five (w : World) :
  let run := PlaylistManagerModal.applyChanges env w in
  let changes := List.length (filter changed (playlists w)) in
  ((changes <= 5)%nat -> delays (eventsOf run) = 0%nat) /\
  (delays (eventsOf run) <= changes - 1)%nat /\
  (outcomeOf run = Ok Applied -> (5 < changes)%nat ->
   delays (eventsOf run) = (changes - 1)%nat) /\
  (forall c, ~ In (CacheWrite c) (eventsOf run)) /\
  playlists (worldOf run) = playlists w /\
  PlaylistCache.cacheItem (storage (worldOf run)) = PlaylistCache.cacheItem (storage w) /\
  ((forall n, concurrentMark env n = None) -> storage (worldOf run) = storage w).
Proof.
  intros run changes.
  assert (H : ends (PlaylistManagerModal.applyChanges env) w (fun r w' ev =>
    ((changes <= 5)%nat -> delays ev = 0%nat) /\
    (delays ev <= changes - 1)%nat /\
    (r = Ok Applied -> (5 < changes)%nat -> delays ev = (changes - 1)%nat) /\
    (forall c, ~ In (CacheWrite c) ev) /\
    playlists w' = playlists w /\
    PlaylistCache.cacheItem (storage w') = PlaylistCache.cacheItem (storage w) /\
    ((forall n, concurrentMark env n = None) -> storage w' = storage w))).
  { unfold PlaylistManagerModal.applyChanges. apply ends_bind. unfold ends at 1.
    rewrite hasChanges_run.
    destruct (existsb changed (playlists w)) eqn:Eany; simpl.
    2: { unfold ends, delays; simpl. split; [reflexivity|]. split; [lia|].
         split; [discriminate|]. split; [intros c [E|[]]; discriminate|]. auto. }
    apply ends_bind, ends_modify. apply ends_tryCatch.
    apply ends_bind, ends_gets. set (w0 := setProcessing true w).
    apply ends_bind.
    eapply ends_weaken; [apply sibling_applyLoop_ends|].
    intros r w1 ev1 ((Hrows & _) & Hf & Hoff & Hle & Hall).
    rewrite changesFrom_length in Hle, Hall. simpl in Hle, Hall, Hrows.
    fold changes in Hle, Hall.
    assert (Hfive : (changes <= 5)%nat -> delays ev1 = 0%nat).
    { intros Hc. apply Hoff. rewrite changesFrom_length. apply Nat.ltb_ge.
      simpl. exact Hc. }
    assert (Hmore : (5 < changes)%nat -> (5 <? List.length (changesFrom 0 (playlists w0)))%nat
                                          = true).
    { intros Hc. rewrite changesFrom_length. apply Nat.ltb_lt. exact Hc. }
    assert (Hcache : PlaylistCache.cacheItem (storage w1)
                     = PlaylistCache.cacheItem (storage w)) by apply (frame_cache Hf).
    assert (Hst : (forall n, concurrentMark env n = None) -> storage w1 = storage w).
    { intros Hq. apply (frame_storage Hf Hq). }
    destruct r as [[]|].
    - unfold closeModal. apply ends_bind. apply ends_bind, ends_modify.
      apply ends_emit. apply ends_ret. simpl.
      rewrite !delays_app. change (delays [ModalClosed]) with 0%nat.
      rewrite Nat.add_0_r.
      split; [exact Hfive|]. split; [exact Hle|].
      split; [intros _ Hc; apply Hall; [reflexivity|apply Nat.ltb_lt; exact Hc]|].
      split; [|auto].
      intros c Hin. apply in_app_or in Hin.
      destruct Hin as [Hin|[E|[]]]; [|discriminate].
      apply (outside_no_write c (frame_events Hf) Hin).
    - apply ends_bind, ends_emit. apply ends_bind, ends_modify. apply ends_ret. simpl.
      rewrite !delays_app.
      change (delays [Alert "Failed to update playlists. Please try again."]) with 0%nat.
      rewrite Nat.add_0_r.
      split; [exact Hfive|]. split; [exact Hle|]. split; [discriminate|].
      split; [|auto].
      intros c Hin. apply in_app_or in Hin.
      destruct Hin as [Hin|[E|[]]]; [|discriminate].
      apply (outside_no_write c (frame_events Hf) Hin). }
  unfold ends in H. fold run in H. rewrite (run_eta run) in H. exact H.
Qed.

End Sibling.

Section SiblingWitnesses.

Import Modal.
Open Scope string_scope.
Open Scope list_scope.
Open Scope Z_scope.

(** "Gym" holds the library copy of the catalog song 777: the check
    finds the song, and the removal sends the replace call. *)
Lemma sibling_check_agrees_with_removal_witness :
  outcomeOf (PlaylistManagerModal.checkSongInPlaylist
               (calmEnv "777" [] (fun _ => oneTrack)) "p.gym" "Gym"
               (mounted emptyStorage [])) = Ok true /\
  exists data,
    In (Request (PutPlaylistTracks "p.gym" data))
       (eventsOf (removeSongFromPlaylist (calmEnv "777" [] (fun _ => oneTrack)) "p.gym"
                    (mounted emptyStorage []))).
Proof.
  assert (Hcheck : outcomeOf (PlaylistManagerModal.checkSongInPlaylist
               (calmEnv "777" [] (fun _ => oneTrack)) "p.gym" "Gym"
               (mounted emptyStorage [])) = Ok true) by (vm_compute; reflexivity).
  split; [exact Hcheck|].
  destruct (@sibling_check_agrees_with_removal (calmEnv "777" [] (fun _ => oneTrack))
              "p.gym" "Gym" (mounted emptyStorage []) (mounted emptyStorage []) eq_refl)
    as (_ & Hiff & _).
  apply Hiff. exact Hcheck.
Defined.

End SiblingWitnesses.

(* ------------------------------------------------------------------ *)
(** * A pass, step by step *)

Section PassSteps.

Import Modal.
Open Scope string_scope.
Open Scope list_scope.
Open Scope Z_scope.

Variable env : Env.

Lemma classify_spec (settings : PlaylistCache.CacheSettings) (searchId : string)
    (rest modifiedPlaylistIds : list string) (sortedPlaylists : list Playlist)
    (playlistStates : list PlaylistCheckState) (playlistsToFetch : list Playlist)
    (cacheHits : nat) (w : World) :
  let answer := cacheAnswer settings searchId modifiedPlaylistIds
                            (clock env (suspensions w)) (storage w) in
  classify env settings (searchId :: rest) modifiedPlaylistIds sortedPlaylists
           playlistStates playlistsToFetch cacheHits w
  = (Ok (playlistStates ++ hitRows answer sortedPlaylists,
         playlistsToFetch ++ misses answer sortedPlaylists,
         (cacheHits + List.length (hitRows answer sortedPlaylists))%nat), w, []).
Proof.
  intros answer. revert playlistStates playlistsToFetch cacheHits.
  induction sortedPlaylists as [|playlist others IH];
    intros playlistStates playlistsToFetch cacheHits.
  - simpl. unfold ret. rewrite !app_nil_r, Nat.add_0_r. reflexivity.
  - cbn [classify]. unfold bind at 1.
    assert (Hans : answer playlist =
              if JS.includesStr modifiedPlaylistIds (playlist_id playlist) then None
              else if PlaylistCache.enabled settings
                   then fst (PlaylistCache.isSongInPlaylist (clock env (suspensions w))
                               (playlist_id playlist) searchId (storage w))
                   else None) by reflexivity.
    unfold hitRows, misses. cbn [flat_map filter]. fold (hitRows answer others).
    fold (misses answer others).
    destruct (JS.includesStr modifiedPlaylistIds (playlist_id playlist)); cbn [negb].
    + unfold ret at 1. rewrite Hans, IH. cbn [app]. rewrite <- app_assoc. reflexivity.
    + rewrite cachedVerdict_first.
      destruct (fst (PlaylistCache.isSongInPlaylist _ (playlist_id playlist) searchId
                       (storage w))) as [verdict|].
      * destruct (PlaylistCache.enabled settings); rewrite Hans, IH; cbn [app List.length].
        -- rewrite <- app_assoc, Nat.add_succ_r. reflexivity.
        -- rewrite <- app_assoc. reflexivity.
      * assert (Hnone : answer playlist = None).
        { rewrite Hans. destruct (PlaylistCache.enabled settings); reflexivity. }
        rewrite Hnone, IH. cbn [app]. rewrite <- app_assoc. reflexivity.
Qed.

Lemma checkSong_step (playlistId playlistName : string) (searchIds : list string)
    (w : World) :
  ends (checkSongInPlaylistWithCache env playlistId playlistName searchIds) w
       (fun r w' ev =>
          sameRefs w w' /\
          (exists cached, r = Ok (foundIn env searchIds playlistId, cached)) /\
          Forall (paging playlistId) ev /\
          hd_error ev = Some (Request (GetPlaylistTracks playlistId 0))).
Proof.
  unfold checkSongInPlaylistWithCache. apply ends_bind.
  eapply ends_weaken; [apply fetchTracks_step|].
  intros r w' ev (-> & Hpg & Hs & Hhd). unfold ends; simpl. rewrite app_nil_r.
  split; [exact Hs|]. split; [|auto].
  unfold foundIn, fetchedIds, fetchedTracks.
  rewrite (@fetchAllTracks_collected env playlistId 0 [] w 11%nat) by lia.
  eauto.
Qed.

Lemma checkSong_cached (playlistId playlistName : string) (searchIds : list string)
    (w : World) :
  ends (checkSongInPlaylistWithCache env playlistId playlistName searchIds) w
       (fun r _ _ =>
          exists found cached,
            r = Ok (found, cached) /\ PlaylistCache.id cached = playlistId /\
            PlaylistCache.tracks cached = fetchedIds env playlistId).
Proof.
  unfold checkSongInPlaylistWithCache. apply ends_bind.
  eapply ends_weaken; [apply fetchTracks_step|].
  intros r w' ev (-> & _). unfold ends; simpl.
  do 2 eexists. split; [reflexivity|]. split; [reflexivity|].
  unfold fetchedIds, fetchedTracks.
  rewrite (@fetchAllTracks_collected env playlistId 0 [] w 11%nat) by lia.
  reflexivity.
Qed.

Lemma hd_error_In {A : Type} (l : list A) (x : A) : hd_error l = Some x -> In x l.
Proof. destruct l; [discriminate|]. intros E. injection E as ->. left. reflexivity. Qed.

Lemma checkBatch_step (batch : list Playlist) (searchIds : list string)
    (playlistsToCache : list PlaylistCache.CachedPlaylist) (w : World) :
  ends (checkBatch env batch searchIds playlistsToCache) w
       (fun r w' ev =>
          sameRefs w w' /\
          (exists toCache, r = Ok (map (fetchedRow env searchIds) batch, toCache)) /\
          (forall q, In (Request q) ev ->
             exists p offset, In p batch /\ q = GetPlaylistTracks (playlist_id p) offset) /\
          (forall p, In p batch ->
             In (Request (GetPlaylistTracks (playlist_id p) 0)) ev)).
Proof.
  revert playlistsToCache w.
  induction batch as [|playlist others IH]; intros playlistsToCache w; simpl.
  - apply ends_ret. split; [apply sameRefs_refl|]. split; [eexists; reflexivity|].
    split; [intros q []|intros p []].
  - apply ends_bind. eapply ends_weaken; [apply checkSong_step|].
    intros r w1 ev1 (Hs1 & (cached & ->) & Hpg & Hhd). simpl.
    apply ends_bind. eapply ends_weaken; [apply IH|].
    intros r2 w2 ev2 (Hs2 & (toCache & ->) & Hreq & Hall).
    apply ends_ret. simpl. rewrite app_nil_r.
    split; [eapply sameRefs_trans; eauto|].
    split; [eexists; reflexivity|].
    split.
    + intros q Hin. apply in_app_or in Hin. destruct Hin as [Hin|Hin].
      * rewrite Forall_forall in Hpg. specialize (Hpg _ Hin).
        destruct q; simpl in Hpg; try contradiction. subst. eauto.
      * destruct (Hreq q Hin) as (p & o & Hp & ->). eauto.
    + intros p [<-|Hp]; apply in_or_app; [left; apply hd_error_In, Hhd|right; auto].
Qed.

Lemma runBatches_step (playlistsToFetch : list Playlist) (searchIds : list string)
    (i : nat) (playlistStates : list PlaylistCheckState)
    (playlistsToCache : list PlaylistCache.CachedPlaylist) (w : World) :
  ends (runBatches env playlistsToFetch searchIds i playlistStates playlistsToCache) w
       (fun r w' ev =>
          sameRefs w w' /\
          (forall q, In (Request q) ev ->
             exists p offset,
               In p (skipn i playlistsToFetch) /\
               q = GetPlaylistTracks (playlist_id p) offset) /\
          match r with
          | Ok (Some (states, _)) =>
              states = playlistStates
                       ++ map (fetchedRow env searchIds) (skipn i playlistsToFetch) /\
              (forall p, In p (skipn i playlistsToFetch) ->
                 In (Request (GetPlaylistTracks (playlist_id p) 0)) ev)
          | _ => True
          end).
Proof.
  unfold ends.
  funelim (runBatches env playlistsToFetch searchIds i playlistStates playlistsToCache w).
  2: { split; [apply sameRefs_refl|]. split; [intros q []|].
       rewrite skipn_all2 by (apply Nat.ltb_ge; assumption).
       split; [rewrite app_nil_r; reflexivity|intros p []]. }
  destruct (aborted w) eqn:Hab.
  { split; [apply sameRefs_refl|]. split; [intros q [E|[]]; discriminate|exact I]. }
  pose proof (checkBatch_step (JS.slice playlistsToFetch i (i + batchSize))
                searchIds playlistsToCache w) as Hb.
  unfold ends in Hb.
  destruct (checkBatch env _ searchIds playlistsToCache w) as [[rb w1] ev1].
  destruct Hb as (Hs1 & (toCache & ->) & Hreq1 & Hall1).
  set (batchRows := map (fetchedRow env searchIds)
                        (JS.slice playlistsToFetch i (i + batchSize))) in *.
  set (pause := if (i + batchSize <? List.length playlistsToFetch)%nat
                   && negb (aborted w1)
                then delay env 100 else ret tt).
  assert (Hp : ends pause w1 (fun _ w2 ev2 => sameRefs w1 w2 /\
                                              forall q, ~ In (Request q) ev2)).
  { subst pause.
    destruct ((i + batchSize <? List.length playlistsToFetch)%nat && negb (aborted w1)).
    - eapply ends_weaken; [apply delay_step|]. intros ? ? ? (_ & Hs & _ & Hno). auto.
    - unfold ends; simpl. split; [apply sameRefs_refl|intros q []]. }
  unfold ends in Hp. destruct (pause w1) as [[rp w2] ev2]. destruct Hp as [Hs2 Hno2].
  specialize (H (Ok (batchRows, toCache), w1) ev1 (Ok (batchRows, toCache)) w1
                (batchRows, toCache) batchRows toCache (rp, w2) ev2 rp w2).
  destruct (runBatches env playlistsToFetch searchIds (i + batchSize)
              (playlistStates ++ batchRows) toCache w2) as [[r w3] ev3].
  destruct H as (Hs3 & Hreq3 & Hr3).
  pose proof (slice_skipn playlistsToFetch i) as Hcut.
  split; [eapply sameRefs_trans; [exact Hs1|eapply sameRefs_trans; eauto]|].
  split.
  { intros q [E|Hin]; [discriminate|].
    apply in_app_or in Hin. destruct Hin as [Hin|Hin].
    - destruct (Hreq1 q Hin) as (p & o & Hp & ->). exists p, o. split; [|reflexivity].
      rewrite <- Hcut. apply in_or_app. auto.
    - apply in_app_or in Hin. destruct Hin as [Hin|Hin]; [destruct (Hno2 _ Hin)|].
      destruct (Hreq3 q Hin) as (p & o & Hp & ->). exists p, o. split; [|reflexivity].
      rewrite <- Hcut. apply in_or_app. auto. }
  destruct r as [[[states toCache']|]|]; try exact I.
  destruct Hr3 as (-> & Hall3). split.
  - subst batchRows. rewrite <- app_assoc, <- map_app, Hcut. reflexivity.
  - intros p Hp. rewrite <- Hcut in Hp. apply in_app_or in Hp. right.
    apply in_or_app. destruct Hp as [Hp|Hp]; [left; auto|].
    right. apply in_or_app. right. auto.
Qed.

Lemma checkBatch_cached (batch : list Playlist) (searchIds : list string)
    (playlistsToCache : list PlaylistCache.CachedPlaylist) (w : World) :
  ends (checkBatch env batch searchIds playlistsToCache) w
       (fun r _ _ =>
          forall rows toCache, r = Ok (rows, toCache) ->
          exists entries,
            toCache = playlistsToCache ++ entries /\
            Forall2 (cachedFor env) batch entries).
Proof.
  revert playlistsToCache w.
  induction batch as [|playlist others IH]; intros playlistsToCache w; simpl.
  - apply ends_ret. intros rows toCache E. injection E as _ <-.
    exists []. rewrite app_nil_r. auto.
  - apply ends_bind. eapply ends_weaken; [apply checkSong_cached|].
    intros r w1 ev1 (found & cached & -> & Hid & Htracks). simpl.
    apply ends_bind. eapply ends_weaken; [apply IH|].
    intros [[rows2 toCache2]|] w2 ev2 Hr; [|discriminate].
    apply ends_ret. intros rows toCache E. injection E as _ <-.
    destruct (Hr _ _ eq_refl) as (entries & -> & Hall).
    exists (cached :: entries). rewrite <- app_assoc. split; [reflexivity|].
    constructor; [split; assumption|exact Hall].
Qed.

Lemma runBatches_cached (playlistsToFetch : list Playlist) (searchIds : list string)
    (i : nat) (playlistStates : list PlaylistCheckState)
    (playlistsToCache : list PlaylistCache.CachedPlaylist) (w : World) :
  ends (runBatches env playlistsToFetch searchIds i playlistStates playlistsToCache) w
       (fun r _ _ =>
          forall states toCache, r = Ok (Some (states, toCache)) ->
          exists entries,
            toCache = playlistsToCache ++ entries /\
            Forall2 (cachedFor env) (skipn i playlistsToFetch) entries).
Proof.
  unfold ends.
  funelim (runBatches env playlistsToFetch searchIds i playlistStates playlistsToCache w).
  2: { intros states toCache E. injection E as _ <-. exists [].
       rewrite app_nil_r, skipn_all2 by (apply Nat.ltb_ge; assumption). auto. }
  destruct (aborted w) eqn:Hab; [discriminate|].
  pose proof (checkBatch_cached (JS.slice playlistsToFetch i (i + batchSize))
                searchIds playlistsToCache w) as Hb.
  unfold ends in Hb.
  destruct (checkBatch env _ searchIds playlistsToCache w)
    as [[[[batchRows toCache1]|] w1] ev1]; [|discriminate].
  destruct (Hb _ _ eq_refl) as (entries1 & -> & Hall1).
  destruct ((if (i + batchSize <? List.length playlistsToFetch)%nat && negb (aborted w1)
             then delay env 100 else ret tt) w1) as [[rp w2] ev2] eqn:Ep.
  specialize (H (Ok (batchRows, playlistsToCache ++ entries1), w1) ev1
                (Ok (batchRows, playlistsToCache ++ entries1)) w1
                (batchRows, playlistsToCache ++ entries1) batchRows
                (playlistsToCache ++ entries1) (rp, w2) ev2 rp w2).
  destruct (runBatches env playlistsToFetch searchIds (i + batchSize)
              (playlistStates ++ batchRows) (playlistsToCache ++ entries1) w2)
    as [[r w3] ev3].
  intros states toCache E. destruct (H states toCache E) as (entries2 & -> & Hall2).
  exists (entries1 ++ entries2). rewrite app_assoc. split; [reflexivity|].
  rewrite <- (slice_skipn playlistsToFetch i). apply Forall2_app; assumption.
Qed.

(** What [updatePlaylists] stores for an id whose entries of the batch all
    carry the tracks [T]. *)
Lemma upserts_held (t : Z) (T : list string) (i : string)
    (playlists cache : list PlaylistCache.CachedPlaylist) :
  (forall e, In e playlists -> PlaylistCache.id e = i -> PlaylistCache.tracks e = T) ->
  In i (map PlaylistCache.id playlists) \/
  (exists entry,
     find (fun q => String.eqb (PlaylistCache.id q) i) cache = Some entry /\
     PlaylistCache.tracks entry = T /\ PlaylistCache.cachedAt entry = t) ->
  exists entry,
    find (fun q => String.eqb (PlaylistCache.id q) i)
         (fold_left (PlaylistCache.upsert t) playlists cache) = Some entry /\
    PlaylistCache.tracks entry = T /\ PlaylistCache.cachedAt entry = t.
Proof.
  revert cache. induction playlists as [|p rest IH]; intros cache Hall Hin; simpl.
  - destruct Hin as [[]|H]. exact H.
  - apply IH; [intros e He; apply Hall; simpl; auto|].
    destruct (String.eqb_spec (PlaylistCache.id p) i) as [E|Hne].
    + right. rewrite <- E, upsert_find_same. eexists. split; [reflexivity|].
      simpl. split; [|reflexivity]. apply Hall; simpl; auto.
    + destruct Hin as [[E|Hin]|Hheld]; [contradiction|left; exact Hin|].
      right. rewrite upsert_find_other by exact Hne. exact Hheld.
Qed.

Lemma cachedFor_held (t : Z) (fetched : list Playlist)
    (entries : list PlaylistCache.CachedPlaylist) (ls : PlaylistCache.localStorage)
    (p : Playlist) :
  PlaylistCache.enabled (fst (PlaylistCache.getSettings ls)) = true ->
  Forall2 (cachedFor env) fetched entries -> In p fetched ->
  exists entry,
    storedEntry (snd (PlaylistCache.updatePlaylists t entries ls)) (playlist_id p)
      = Some entry /\
    PlaylistCache.tracks entry = fetchedIds env (playlist_id p) /\
    PlaylistCache.cachedAt entry = t.
Proof.
  intros Hon Hall Hin. rewrite updatePlaylists_run by exact Hon.
  unfold storedEntry. simpl. apply upserts_held.
  - intros e He Hid. clear Hin.
    induction Hall as [|q e' fetched' entries' [Hq Ht] _ IH]; [destruct He|].
    destruct He as [<-|He]; [|exact (IH He)]. rewrite Ht, <- Hq, Hid. reflexivity.
  - left. induction Hall as [|q e' fetched' entries' [Hq _] _ IH]; [destruct Hin|].
    simpl. destruct Hin as [<-|Hin]; [left; exact Hq|right; exact (IH Hin)].
Qed.

End PassSteps.

Section PassTrace.

Import Modal.
Open Scope string_scope.
Open Scope list_scope.
Open Scope Z_scope.

Variable env : Env.

(** One suspension for a remote call [q]. *)
Lemma await_call (q : request) (w : World) :
  ends (await env (Request q)) w
       (fun r w' ev =>
          r = Ok tt /\ frame env outside w w' ev /\ sameRefs w w' /\
          suspensions w' = S (suspensions w) /\
          (forall q', In (Request q') ev -> q' = q)).
Proof.
  eapply ends_weaken;
    [apply ends_conj;
     [apply (await_tick env (Request q) w I)
     |apply ends_conj;
      [apply (await_step env (fun _ => True) (Request q) w I I (fun _ => I))
      |apply (@await_requests env (Request q) w)]]|].
  intros r w' ev [(-> & Hf & Ht) [(_ & _ & Hs & _) Hr]].
  split; [reflexivity|]. split; [exact Hf|]. split; [exact Hs|]. split; [exact Ht|].
  intros q' Hin. specialize (Hr q' Hin). congruence.
Qed.

Lemma findLibraryId_step (catalogId : string) (w : World) :
  ends (findLibraryId env catalogId) w
       (fun r w' ev =>
          r = Ok (match librarySongs env catalogId with
                  | Some found => if JS.truthy found then Some found else None
                  | None => None
                  end) /\
          frame env outside w w' ev /\ sameRefs w w' /\
          suspensions w' = S (suspensions w) /\
          (forall q, In (Request q) ev -> q = GetLibrarySongs catalogId)).
Proof.
  unfold findLibraryId. apply ends_bind.
  eapply ends_weaken; [apply await_call|].
  intros r w' ev (-> & Hf & Hs & Ht & Hr).
  destruct (librarySongs env catalogId) as [found|];
    [destruct (JS.truthy found)|];
    unfold ends; simpl; rewrite app_nil_r; auto.
Qed.

Lemma searchIdsOf_first : exists rest, searchIdsOf env = songId env :: rest.
Proof.
  unfold searchIdsOf. destruct (JS.startsWith (songId env) "i."); [eauto|].
  destruct (librarySongs env (songId env)) as [found|];
    [destruct (JS.truthy found)|]; eauto.
Qed.

Lemma loadPlaylists_trace (w : World) : ends (loadPlaylists env) w (passTrace env w).
Proof.
  unfold loadPlaylists. apply ends_tryFinally, ends_tryCatch.
  apply ends_bind, ends_modify.
  apply ends_bind, ends_readCache; [apply getSettings_reads|].
  set (w0 := setLoading true w).
  set (settings := fst (PlaylistCache.getSettings (storage w0))).
  apply ends_bind.
  apply ends_weaken with (post := fun r w1 ev1 =>
    r = Ok (searchIdsOf env) /\
    frame env outside w0 w1 ev1 /\ sameRefs w0 w1 /\
    suspensions w1
      = (suspensions w0 + if JS.startsWith (songId env) "i." then 0 else 1)%nat /\
    (forall q, In (Request q) ev1 -> listing env q)).
  { unfold searchIdsOf. destruct (JS.startsWith (songId env) "i."); simpl.
    - apply ends_ret. split; [reflexivity|]. split; [apply frame_refl|].
      split; [apply sameRefs_refl|]. split; [simpl; lia|intros q []].
    - apply ends_bind. eapply ends_weaken; [apply findLibraryId_step|].
      intros r w1 ev1 (-> & Hf & Hs & Ht & Hq).
      assert (Hl : forall q, In (Request q) (ev1 ++ []) -> listing env q).
      { intros q Hin. rewrite app_nil_r in Hin. right. auto. }
      destruct (librarySongs env (songId env)) as [found|];
        [destruct (JS.truthy found)|];
        apply ends_ret; rewrite app_nil_r in *;
        (split; [reflexivity|split; [exact Hf|split; [exact Hs|split;
           [rewrite Ht; simpl; lia|exact Hl]]]]). }
  intros r w1 ev1 (-> & Hf1 & Hs1 & Ht1 & Hq1).
  destruct searchIdsOf_first as [rest Hids].
  apply ends_bind. eapply ends_weaken; [apply await_call|].
  intros r w2 ev2 (-> & Hf2 & Hs2 & Ht2 & Hq2).
  assert (Hf12 : frame env outside w w2 (ev1 ++ ev2)).
  { change (ev1 ++ ev2) with ([] ++ ev1 ++ ev2).
    eapply frame_trans; [apply (@frame_step env outside w w0); reflexivity|].
    eapply frame_trans; eauto. }
  assert (Hs12 : sameRefs w0 w2) by (eapply sameRefs_trans; eauto).
  assert (Hlisted : suspensions w2 = listedAt env w).
  { unfold listedAt. rewrite Ht2, Ht1. simpl.
    destruct (JS.startsWith (songId env) "i."); lia. }
  assert (Hq12 : forall q, In (Request q) (ev1 ++ ev2) -> listing env q).
  { intros q Hin. apply in_app_or in Hin. destruct Hin as [Hin|Hin]; [auto|].
    left. auto. }
  destruct Hs12 as (Hrows12 & _ & Hproc12 & Hused12). simpl in Hrows12, Hproc12, Hused12.
  destruct (libraryPlaylists env) as [userPlaylists|] eqn:Hlisting.
  2: { unfold ends, passTrace; simpl. rewrite Hlisting, ?app_nil_r.
       split; [reflexivity|]. split; [exact Hproc12|]. split; [reflexivity|].
       split; [exact Hrows12|]. split; [exact Hused12|]. split.
       - intros q Hin. apply in_app_or in Hin.
         destruct Hin as [Hin|[E|[]]]; [auto|discriminate].
       - exists (ev1 ++ ev2). split; [reflexivity|].
         rewrite <- (app_nil_r (ev1 ++ ev2)).
         eapply frame_trans; [exact Hf12|]. apply frame_step; reflexivity. }
  set (sortedPlaylists := JS.sort byLastModifiedDate (filter editable userPlaylists)).
  set (snapshot := fst (PlaylistCache.getModifiedPlaylists (storage w2))).
  set (answer := cacheAnswer settings (songId env) snapshot
                             (clock env (suspensions w2)) (storage w2)).
  apply ends_weaken with (post := fun r w3 ev0 =>
    processing w3 = processing w2 /\
    (forall q, In (Request q) ev0 ->
       exists p offset,
         In p (misses answer sortedPlaylists) /\
         q = GetPlaylistTracks (playlist_id p) offset) /\
    match r with
    | Ok (Completed modifiedPlaylistIds) =>
        modifiedPlaylistIds = snapshot /\
        cacheUsed w3 = (0 <? List.length (hitRows answer sortedPlaylists))%nat /\
        (forall p, In p (misses answer sortedPlaylists) ->
           In (Request (GetPlaylistTracks (playlist_id p) 0)) ev0) /\
        playlists w3
          = JS.sort membersFirst
              (hitRows answer sortedPlaylists
               ++ map (fetchedRow env (searchIdsOf env)) (misses answer sortedPlaylists)) /\
        (PlaylistCache.enabled settings = true ->
         forall p, In p (misses answer sortedPlaylists) ->
           exists entry,
             storedEntry (storage w3) (playlist_id p) = Some entry /\
             PlaylistCache.tracks entry = fetchedIds env (playlist_id p) /\
             PlaylistCache.cachedAt entry = clock env (suspensions w3)) /\
        ((forall n, concurrentMark env n = None) ->
         fst (PlaylistCache.getModifiedPlaylists (storage w3)) = [])
    | Ok Cancelled => playlists w3 = playlists w2
    | _ => False
    end).
  2: { intros r w3 ev0 (Hproc3 & Hreq3 & Hr3).
       assert (Hreq : forall q, In (Request q) (((ev1 ++ ev2) ++ ev0) ++ []) ->
                 listing env q \/
                 exists p offset,
                   In p (misses answer sortedPlaylists) /\
                   q = GetPlaylistTracks (playlist_id p) offset).
       { intros q Hin. rewrite app_nil_r in Hin. apply in_app_or in Hin.
         destruct Hin as [Hin|Hin]; [left; auto|right; auto]. }
       destruct r as [[ids| |]|]; try contradiction;
         unfold ends, passTrace; simpl; rewrite Hlisting.
       - split; [reflexivity|]. split; [congruence|].
         exists w2, (ev1 ++ ev2). split; [exact Hf12|]. split; [exact Hlisted|].
         rewrite <- !app_assoc in Hreq. rewrite <- !app_assoc.
         split; [exact Hreq|].
         destruct Hr3 as (Hsnap & Hused & Hfirst & Hexact & Hheld & Hmod).
         split; [exact Hsnap|]. split; [exact Hused|].
         split; [|split; [exact Hexact|split; [exact Hheld|exact Hmod]]].
         intros p Hp. apply in_or_app. right. apply in_or_app. right.
         apply in_or_app. left. auto.
       - split; [reflexivity|]. split; [congruence|].
         exists w2, (ev1 ++ ev2). split; [exact Hf12|]. split; [exact Hlisted|].
         rewrite <- !app_assoc in Hreq. rewrite <- !app_assoc.
         split; [exact Hreq|]. congruence. }
  apply ends_bind, ends_gets. apply ends_bind, ends_emit.
  destruct (aborted w2) eqn:Hab.
  { apply ends_ret. split; [reflexivity|].
    split; [intros q [E|[]]; discriminate|reflexivity]. }
  apply ends_bind, ends_readCache; [apply getModifiedPlaylists_reads|].
  fold snapshot. apply ends_bind.
  unfold ends at 1. rewrite Hids, classify_spec. fold answer. cbv beta iota.
  rewrite <- Hids.
  cbn [fst snd app Nat.add].
  apply ends_bind, ends_modify.
  set (hits := List.length (hitRows answer sortedPlaylists)).
  set (w2' := setCacheUsed (0 <? hits)%nat w2).
  apply ends_bind.
  apply ends_weaken with (post := fun r w3 ev =>
    sameRefs w2' w3 /\
    (forall q, In (Request q) ev ->
       exists p offset,
         In p (misses answer sortedPlaylists) /\
         q = GetPlaylistTracks (playlist_id p) offset) /\
    match r with
    | Ok (Some states) =>
        states = hitRows answer sortedPlaylists
                 ++ map (fetchedRow env (searchIdsOf env))
                        (misses answer sortedPlaylists) /\
        (forall p, In p (misses answer sortedPlaylists) ->
           In (Request (GetPlaylistTracks (playlist_id p) 0)) ev) /\
        (PlaylistCache.enabled settings = true ->
         forall p, In p (misses answer sortedPlaylists) ->
           exists entry,
             storedEntry (storage w3) (playlist_id p) = Some entry /\
             PlaylistCache.tracks entry = fetchedIds env (playlist_id p) /\
             PlaylistCache.cachedAt entry = clock env (suspensions w3)) /\
        ((forall n, concurrentMark env n = None) ->
         PlaylistCache.modifiedItem (storage w3)
         = PlaylistCache.modifiedItem (storage w2))
    | Ok None => True
    | Throw => False
    end).
  { destruct (0 <? List.length (misses answer sortedPlaylists))%nat eqn:Hsome.
    2: { apply ends_ret. split; [apply sameRefs_refl|]. split; [intros q []|].
         destruct (misses answer sortedPlaylists); [|discriminate].
         split; [simpl; rewrite app_nil_r; reflexivity|].
         split; [intros p []|]. split; [intros _ p []|reflexivity]. }
    apply ends_bind.
    eapply ends_weaken;
      [apply ends_conj;
       [apply runBatches_step
       |apply ends_conj; [apply runBatches_ends|apply runBatches_cached]]|].
    intros [[[states toCache]|]|] w3 ev3 [(Hs3 & Hreq3 & Hr3) [[Hf3 Hne] Hcached]];
      [| |contradiction].
    2: { apply ends_ret. rewrite app_nil_r. simpl in Hreq3. auto. }
    simpl in Hreq3, Hr3. destruct Hr3 as (Hrows3 & Hfirst3).
    destruct (Hcached _ _ eq_refl) as (entries & Hentries & Hall).
    simpl in Hentries, Hall. subst toCache.
    assert (Hset3 : fst (PlaylistCache.getSettings (storage w3)) = settings).
    { apply getSettings_ext. rewrite (frame_settings Hf3). simpl.
      apply (frame_settings Hf12). }
    assert (Hmod3 : (forall n, concurrentMark env n = None) ->
                    PlaylistCache.modifiedItem (storage w3)
                    = PlaylistCache.modifiedItem (storage w2)).
    { intros Hcalm. rewrite (frame_storage Hf3 Hcalm). reflexivity. }
    apply ends_bind.
    destruct ((0 <? List.length entries)%nat && PlaylistCache.enabled settings) eqn:Eup.
    - apply ends_bind. apply ends_gets. apply ends_writeCache. apply ends_ret.
      simpl. rewrite ?app_nil_r. split; [exact Hs3|]. split.
      { intros q Hin. apply in_app_or in Hin.
        destruct Hin as [Hin|[E|[]]]; [auto|discriminate]. }
      split; [exact Hrows3|].
      split; [intros p Hp; apply in_or_app; left; auto|].
      split.
      + intros Hon p Hp. apply cachedFor_held with (fetched := misses answer sortedPlaylists);
          [rewrite Hset3; exact Hon|exact Hall|exact Hp].
      + intros Hcalm.
        destruct (updatePlaylists_frame (clock env (suspensions w3)) entries (storage w3))
          as [_ Hm].
        rewrite Hm. apply Hmod3, Hcalm.
    - apply ends_ret. apply ends_ret. simpl. rewrite ?app_nil_r.
      split; [exact Hs3|]. split; [exact Hreq3|]. split; [exact Hrows3|].
      split; [exact Hfirst3|]. split; [|exact Hmod3].
      intros Hon p Hp. rewrite Hon, andb_true_r in Eup.
      destruct entries; [|discriminate]. inversion Hall as [Hnone|]. 
      rewrite <- Hnone in Hp. destruct Hp. }
  intros [[states|]|] w3 ev3 (Hs3 & Hreq3 & Hr3); [| |contradiction].
  2: { apply ends_ret. simpl. rewrite app_nil_r.
       destruct Hs3 as (Hrows3 & _ & Hproc3 & _). simpl in *.
       split; [exact Hproc3|]. split; [|exact Hrows3].
       intros q [E|Hin]; [discriminate|auto]. }
  destruct Hr3 as (Hrows3 & Hfirst3 & Hheld3 & Hmod3).
  destruct Hs3 as (_ & _ & Hproc3 & Hused3). simpl in Hproc3, Hused3.
  apply ends_bind.
  apply ends_weaken with (post := fun r w4 ev4 =>
    r = Ok tt /\ processing w4 = processing w3 /\ cacheUsed w4 = cacheUsed w3 /\
    (forall q, ~ In (Request q) ev4) /\
    suspensions w4 = suspensions w3 /\
    PlaylistCache.cacheItem (storage w4) = PlaylistCache.cacheItem (storage w3) /\
    PlaylistCache.modifiedItem (storage w4)
    = if (0 <? List.length snapshot)%nat then None
      else PlaylistCache.modifiedItem (storage w3)).
  { destruct (0 <? List.length snapshot)%nat.
    - apply ends_writeCache. simpl.
      split; [reflexivity|]. split; [reflexivity|]. split; [reflexivity|].
      split; [intros q [E|[]]; discriminate|]. auto.
    - apply ends_ret.
      split; [reflexivity|]. split; [reflexivity|]. split; [reflexivity|].
      split; [intros q []|]. auto. }
  intros r w4 ev4 (-> & Hproc4 & Hused4 & Hno4 & Ht4 & Hcache4 & Hmod4).
  apply ends_bind, ends_modify. apply ends_ret. simpl. rewrite ?app_nil_r.
  split; [congruence|]. split.
  { intros q [E|Hin]; [discriminate|]. apply in_app_or in Hin.
    destruct Hin as [Hin|Hin]; [auto|destruct (Hno4 _ Hin)]. }
  split; [reflexivity|]. split; [congruence|].
  split; [intros p Hp; right; apply in_or_app; left; auto|].
  split; [rewrite Hrows3; reflexivity|]. split.
  - intros Hon p Hp. destruct (Hheld3 Hon p Hp) as (entry & He & Htr & Hat).
    exists entry. unfold storedEntry in *. rewrite Hcache4, Ht4. auto.
  - intros Hcalm. rewrite getModifiedPlaylists_run. simpl. rewrite Hmod4.
    destruct (0 <? List.length snapshot)%nat eqn:Esnap; [reflexivity|].
    rewrite (Hmod3 Hcalm).
    assert (Hnil : snapshot = []).
    { destruct snapshot; [reflexivity|discriminate]. }
    unfold snapshot in Hnil. rewrite getModifiedPlaylists_run in Hnil. exact Hnil.
Qed.

End PassTrace.

Section PassTheorems.

Import Modal.
Open Scope string_scope.
Open Scope list_scope.
Open Scope Z_scope.

Lemma loadPlaylists_passTrace (env : Env) (w : World) :
  passTrace env w (outcomeOf (loadPlaylists env w)) (worldOf (loadPlaylists env w))
            (eventsOf (loadPlaylists env w)).
Proof. eapply ends_run; [apply loadPlaylists_trace|apply run_eta]. Qed.

Lemma isSongInPlaylist_ext (t : Z) (playlistId searchId : string)
    (ls1 ls2 : PlaylistCache.localStorage) :
  PlaylistCache.cacheItem ls1 = PlaylistCache.cacheItem ls2 ->
  PlaylistCache.settingsItem ls1 = PlaylistCache.settingsItem ls2 ->
  fst (PlaylistCache.isSongInPlaylist t playlistId searchId ls1)
  = fst (PlaylistCache.isSongInPlaylist t playlistId searchId ls2).
Proof.
  intros Hc Hs. unfold PlaylistCache.isSongInPlaylist, PlaylistCache.bind.
  rewrite !getCachedPlaylist_run. unfold storedEntry.
  rewrite (getSettings_ext _ _ Hs), Hc. simpl.
  destruct (if PlaylistCache.enabled _ then _ else _); reflexivity.
Qed.

Lemma misses_In (answer : Playlist -> option bool) (l : list Playlist) (p : Playlist) :
  In p (misses answer l) <-> In p l /\ answer p = None.
Proof.
  unfold misses. rewrite filter_In. destruct (answer p); intuition discriminate.
Qed.

Lemma hitRows_In (answer : Playlist -> option bool) (l : list Playlist) (p : Playlist)
    (verdict : bool) :
  In p l -> answer p = Some verdict -> In (stateOf p verdict) (hitRows answer l).
Proof.
  intros Hin Hans. unfold hitRows. apply in_flat_map. exists p.
  split; [exact Hin|]. rewrite Hans. left. reflexivity.
Qed.

(** X20.  A pass of [loadPlaylists] fails exactly when the playlist
    listing fails.  Every pass ends with [loading] reset and [processing]
    as it was, and a pass that does not complete leaves the rows as they
    were.  A failed pass ends with the alert; before it, the pass has
    written nothing, has asked for nothing but the listing and the library
    song, and has left the cache and the settings as they were. *)
Theorem loadPlaylists_fails_iff_listing_fails (env : Env) (w : World) :
  let run := loadPlaylists env w in
  let w' := worldOf run in
  (outcomeOf run = Ok Failed <-> libraryPlaylists env = None) /\
  loading w' = false /\ processing w' = processing w /\
  ((forall snapshot, outcomeOf run <> Ok (Completed snapshot)) ->
   playlists w' = playlists w) /\
  (outcomeOf run = Ok Failed ->
   cacheUsed w' = cacheUsed w /\
   (exists before,
      eventsOf run = before ++ [Alert "Error loading playlists. Please make sure you are signed in to Apple Music."] /\
      Forall outside before /\
      forall q, In (Request q) before ->
                q = GetLibraryPlaylists \/ q = GetLibrarySongs (songId env)) /\
   PlaylistCache.cacheItem (storage w') = PlaylistCache.cacheItem (storage w) /\
   PlaylistCache.settingsItem (storage w') = PlaylistCache.settingsItem (storage w) /\
   ((forall n, concurrentMark env n = None) -> storage w' = storage w)).
Proof.
  intros run w'. pose proof (loadPlaylists_passTrace env w) as (Hl & Hp & Hr).
  fold run in Hl, Hp, Hr. fold w' in Hl, Hp, Hr.
  destruct (libraryPlaylists env) as [userPlaylists|].
  - destruct Hr as (w2 & ev2 & _ & _ & _ & Hr).
    split; [split; [|discriminate]|].
    + intros E. rewrite E in Hr. contradiction.
    + split; [exact Hl|]. split; [exact Hp|]. split.
      * intros Hnot. destruct (outcomeOf run) as [[ids| |]|]; try contradiction.
        -- destruct (Hnot ids eq_refl).
        -- exact Hr.
      * intros E. rewrite E in Hr. contradiction.
  - destruct Hr as (E & Hrows & Hused & Hreq & before & Hev & Hf).
    split; [split; auto|]. split; [exact Hl|]. split; [exact Hp|].
    split; [auto|]. intros _. split; [exact Hused|]. split.
    + exists before. split; [exact Hev|]. split; [apply (frame_events Hf)|].
      intros q Hin. apply Hreq. rewrite Hev. apply in_or_app. auto.
    + split; [apply (frame_cache Hf)|]. split; [apply (frame_settings Hf)|].
      apply (frame_storage Hf).
Qed.

Lemma cacheAnswer_ext (settings : PlaylistCache.CacheSettings) (searchId : string)
    (modifiedPlaylistIds : list string) (t : Z) (ls1 ls2 : PlaylistCache.localStorage)
    (playlist : Playlist) :
  PlaylistCache.cacheItem ls1 = PlaylistCache.cacheItem ls2 ->
  PlaylistCache.settingsItem ls1 = PlaylistCache.settingsItem ls2 ->
  cacheAnswer settings searchId modifiedPlaylistIds t ls1 playlist
  = cacheAnswer settings searchId modifiedPlaylistIds t ls2 playlist.
Proof.
  intros Hc Hs. unfold cacheAnswer.
  rewrite (isSongInPlaylist_ext t (playlist_id playlist) searchId ls1 ls2 Hc Hs).
  reflexivity.
Qed.

(** The rows taken from the cache and the rows of the fetched playlists
    are, together, one row for each playlist. *)
Lemma verdict_rows (env : Env) (searchIds : list string)
    (answer : Playlist -> option bool) (l : list Playlist) :
  Permutation
    (hitRows answer l ++ map (fetchedRow env searchIds) (misses answer l))
    (map (fun p => stateOf p match answer p with
                             | Some verdict => verdict
                             | None => foundIn env searchIds (playlist_id p)
                             end) l).
Proof.
  induction l as [|p rest IH]; [constructor|].
  unfold hitRows, misses. cbn [flat_map filter map].
  fold (hitRows answer rest). fold (misses answer rest).
  destruct (answer p) as [verdict|]; cbn [app map].
  - apply perm_skip, IH.
  - apply Permutation_sym, Permutation_cons_app, Permutation_sym, IH.
Qed.

(** X21.  The rows of a completed pass are one row for each
    editable playlist of the listing, and no other row.  The tick of a
    row is the answer of the cache where the pass takes one (the playlist
    is not in the Modified-Set it has read, caching is enabled and the
    entry is fresh when the listing arrives), and otherwise whether the id
    of the song, or of its library copy, matches an id of the tracks
    fetched for the playlist.  The rows are shown with the playlists that
    hold the song first and, within each group, the most recently modified
    first; no row is pending, and [loading] is reset. *)
Theorem loadPlaylists_lists_editable_playlists (env : Env) (w : World)
    (snapshot : list string) (userPlaylists : list Playlist) :
  let run := loadPlaylists env w in
  let rows := playlists (worldOf run) in
  let cached := cacheAnswer (fst (PlaylistCache.getSettings (storage w))) (songId env)
                            snapshot (clock env (listedAt env w)) (storage w) in
  let verdict := fun playlist =>
    match cached playlist with
    | Some answer => answer
    | None => foundIn env (searchIdsOf env) (playlist_id playlist)
    end in
  outcomeOf run = Ok (Completed snapshot) ->
  libraryPlaylists env = Some userPlaylists ->
  Permutation rows (map (fun playlist => stateOf playlist (verdict playlist))
                        (filter editable userPlaylists)) /\
  StronglySorted listedBefore rows /\
  outcomeOf (hasChanges (worldOf run)) = Ok false /\
  loading (worldOf run) = false.
Proof.
  intros run rows cached verdict E Hlisting.
  pose proof (loadPlaylists_passTrace env w) as (Hl & _ & Hr).
  fold run in Hl, Hr. rewrite Hlisting, E in Hr.
  destruct Hr as (w2 & ev2 & Hf & Ht & _ & Hsnap & _ & _ & Hrows & _).
  fold rows in Hrows. rewrite <- Hsnap, Ht in Hrows.
  set (sorted := JS.sort byLastModifiedDate (filter editable userPlaylists)) in *.
  assert (Hperm : Permutation rows
            (map (fun playlist => stateOf playlist (verdict playlist))
                 (filter editable userPlaylists))).
  { rewrite Hrows.
    etransitivity; [apply sort_Permutation|].
    etransitivity; [apply verdict_rows|].
    etransitivity; [apply Permutation_map, sort_Permutation|].
    apply Permutation_refl'. apply map_ext. intros p. unfold verdict, cached.
    rewrite (@cacheAnswer_ext _ _ _ _ _ _ p (frame_cache Hf) (frame_settings Hf)).
    reflexivity. }
  split; [exact Hperm|]. split.
  { rewrite Hrows. apply (@sort_sorted _ membersFirst listedBefore);
      [apply listedBefore_cmp|apply listedBefore_total|apply listedBefore_trans]. }
  split; [|exact Hl].
  rewrite hasChanges_run. unfold outcomeOf. simpl. f_equal. fold rows.
  apply not_true_is_false. intros Hany. apply existsb_exists in Hany.
  destruct Hany as (row & Hin & Hch).
  apply (Permutation_in _ Hperm), in_map_iff in Hin.
  destruct Hin as (p & <- & _).
  unfold changed, stateOf in Hch. simpl in Hch.
  destruct (verdict p); discriminate.
Qed.

Lemma isSongInPlaylist_none (t : Z) (playlistId searchId : string)
    (ls : PlaylistCache.localStorage) :
  fst (PlaylistCache.getCachedPlaylist t playlistId ls) = None ->
  fst (PlaylistCache.isSongInPlaylist t playlistId searchId ls) = None.
Proof.
  unfold PlaylistCache.isSongInPlaylist, PlaylistCache.bind.
  destruct (PlaylistCache.getCachedPlaylist t playlistId ls) as [[p|] ls']; simpl;
    [discriminate|reflexivity].
Qed.

Lemma getCachedPlaylist_ext (t : Z) (playlistId : string)
    (ls1 ls2 : PlaylistCache.localStorage) :
  PlaylistCache.cacheItem ls1 = PlaylistCache.cacheItem ls2 ->
  PlaylistCache.settingsItem ls1 = PlaylistCache.settingsItem ls2 ->
  fst (PlaylistCache.getCachedPlaylist t playlistId ls1)
  = fst (PlaylistCache.getCachedPlaylist t playlistId ls2).
Proof.
  intros Hc Hs. rewrite !getCachedPlaylist_run. unfold storedEntry.
  rewrite (getSettings_ext _ _ Hs), Hc. reflexivity.
Qed.

Lemma hitRows_none (answer : Playlist -> option bool) (l : list Playlist) :
  (forall p, In p l -> answer p = None) -> hitRows answer l = [].
Proof.
  unfold hitRows. induction l as [|p rest IH]; intros Hall; simpl; [reflexivity|].
  rewrite (Hall p) by (left; reflexivity). apply IH. intros q Hq. apply Hall. right. exact Hq.
Qed.

(** A completed pass has asked for the first page of every editable
    playlist the cache did not answer for. *)
Lemma completed_pass_fetches (env : Env) (w : World) (snapshot : list string)
    (userPlaylists : list Playlist) (playlist : Playlist) :
  outcomeOf (loadPlaylists env w) = Ok (Completed snapshot) ->
  libraryPlaylists env = Some userPlaylists ->
  In playlist userPlaylists -> editable playlist = true ->
  In (playlist_id playlist) snapshot \/
  PlaylistCache.enabled (fst (PlaylistCache.getSettings (storage w))) = false \/
  fst (PlaylistCache.getCachedPlaylist (clock env (listedAt env w))
         (playlist_id playlist) (storage w)) = None ->
  In (Request (GetPlaylistTracks (playlist_id playlist) 0))
     (eventsOf (loadPlaylists env w)).
Proof.
  intros E Hlisting Hin Hed Hstale.
  pose proof (loadPlaylists_passTrace env w) as (_ & _ & Hr).
  rewrite Hlisting, E in Hr.
  destruct Hr as (w2 & ev2 & Hf & Ht & _ & -> & _ & Hfirst & _).
  apply Hfirst. apply misses_In. split; [apply sort_In, filter_In; auto|].
  unfold cacheAnswer.
  destruct (JS.includesStr _ (playlist_id playlist)) eqn:Emod; [reflexivity|].
  destruct (PlaylistCache.enabled _) eqn:Eon; [|reflexivity].
  destruct Hstale as [Hs|[Hs|Hs]].
  - apply includesStr_In in Hs. congruence.
  - congruence.
  - apply isSongInPlaylist_none. rewrite Ht.
    rewrite (getCachedPlaylist_ext _ _ _ _ (frame_cache Hf) (frame_settings Hf)).
    exact Hs.
Qed.

(** X22.  When nobody marks playlists during the pass, an editable
    playlist of the listing that is not in the Modified-Set and for which
    the cache has an answer when the listing arrives is never fetched;
    if the pass completes, its row shows the verdict of the cache, and the
    pass reports that the cache was used. *)
Theorem loadPlaylists_uses_fresh_cache_entries (env : Env) (w : World)
    (userPlaylists : list Playlist) (playlist : Playlist) (verdict : bool) :
  (forall n, concurrentMark env n = None) ->
  libraryPlaylists env = Some userPlaylists ->
  In playlist userPlaylists -> editable playlist = true ->
  PlaylistCache.enabled (fst (PlaylistCache.getSettings (storage w))) = true ->
  ~ In (playlist_id playlist) (fst (PlaylistCache.getModifiedPlaylists (storage w))) ->
  fst (PlaylistCache.isSongInPlaylist (clock env (listedAt env w)) (playlist_id playlist)
         (songId env) (storage w)) = Some verdict ->
  let run := loadPlaylists env w in
  (forall offset,
     ~ In (Request (GetPlaylistTracks (playlist_id playlist) offset)) (eventsOf run)) /\
  (forall snapshot,
     outcomeOf run = Ok (Completed snapshot) ->
     In (stateOf playlist verdict) (playlists (worldOf run)) /\
     cacheUsed (worldOf run) = true).
Proof.
  intros Hcalm Hlisting Hin Hed Hon Hunmarked Hfresh run.
  pose proof (loadPlaylists_passTrace env w) as (_ & _ & Hr).
  fold run in Hr. rewrite Hlisting in Hr.
  destruct Hr as (w2 & ev2 & Hf & Ht & Hreq & Hr).
  pose proof (frame_storage Hf Hcalm) as Hsame.
  rewrite Hsame, Ht in Hreq, Hr.
  set (sorted := JS.sort byLastModifiedDate (filter editable userPlaylists)) in *.
  set (answer := cacheAnswer (fst (PlaylistCache.getSettings (storage w))) (songId env)
                   (fst (PlaylistCache.getModifiedPlaylists (storage w)))
                   (clock env (listedAt env w)) (storage w)) in *.
  assert (Hans : forall p, playlist_id p = playlist_id playlist ->
                           answer p = Some verdict).
  { intros p Hid. subst answer. unfold cacheAnswer. rewrite Hid, Hon, Hfresh.
    destruct (JS.includesStr _ (playlist_id playlist)) eqn:Emod; [|reflexivity].
    apply includesStr_In in Emod. contradiction. }
  split.
  - intros offset Hq. destruct (Hreq _ Hq) as [[Hl|Hl]|(p & o & Hp & Hid)];
      try discriminate.
    injection Hid as Hid _. apply misses_In in Hp. destruct Hp as [_ Hnone].
    rewrite (Hans p) in Hnone by (symmetry; exact Hid). discriminate.
  - intros snapshot E. rewrite E in Hr.
    destruct Hr as (_ & Hused & _ & Hrows & _).
    assert (Hrow : In (stateOf playlist verdict) (hitRows answer sorted)).
    { apply hitRows_In; [apply sort_In, filter_In; auto|apply Hans; reflexivity]. }
    split.
    + rewrite Hrows. apply sort_In, in_or_app. left. exact Hrow.
    + rewrite Hused. destruct (hitRows answer sorted); [destruct Hrow|reflexivity].
Qed.

(** X23.  A completed pass has fetched the first page of every
    editable playlist of the listing that is in the Modified-Set snapshot
    it returns, or whose cache entry is missing or expired when the
    listing arrives, and of every editable playlist when caching is
    disabled. *)
Theorem loadPlaylists_fetches_stale_playlists (env : Env) (w : World)
    (snapshot : list string) (userPlaylists : list Playlist) (playlist : Playlist) :
  let run := loadPlaylists env w in
  outcomeOf run = Ok (Completed snapshot) ->
  libraryPlaylists env = Some userPlaylists ->
  In playlist userPlaylists -> editable playlist = true ->
  In (playlist_id playlist) snapshot \/
  PlaylistCache.enabled (fst (PlaylistCache.getSettings (storage w))) = false \/
  fst (PlaylistCache.getCachedPlaylist (clock env (listedAt env w))
         (playlist_id playlist) (storage w)) = None ->
  In (Request (GetPlaylistTracks (playlist_id playlist) 0)) (eventsOf run).
Proof. intros run. apply completed_pass_fetches. Qed.

Lemma refreshPlaylists_run (env : Env) (w : World) :
  let cleared := setStorage (snd (PlaylistCache.clearCache (storage w))) w in
  refreshPlaylists env w
  = (outcomeOf (loadPlaylists env cleared), worldOf (loadPlaylists env cleared),
     CacheWrite ClearCache :: eventsOf (loadPlaylists env cleared)).
Proof.
  intros cleared. subst cleared. unfold refreshPlaylists, bind, writeCache.
  destruct (PlaylistCache.clearCache (storage w)) as [u ls]. simpl.
  destruct (loadPlaylists env _) as [[r w'] ev]. reflexivity.
Qed.

(** After [clearCache] the cache answers for no playlist. *)
Lemma cleared_answers_none
    (settings : PlaylistCache.CacheSettings) (searchId : string)
    (modifiedPlaylistIds : list string) (t : Z) (ls : PlaylistCache.localStorage)
    (p : Playlist) :
  PlaylistCache.cacheItem ls = None ->
  cacheAnswer settings searchId modifiedPlaylistIds t ls p = None.
Proof.
  intros Hnone. unfold cacheAnswer.
  destruct (JS.includesStr _ (playlist_id p)); [reflexivity|].
  destruct (PlaylistCache.enabled settings); [|reflexivity].
  apply isSongInPlaylist_none. rewrite getCachedPlaylist_run.
  unfold storedEntry. rewrite Hnone.
  destruct (PlaylistCache.enabled _); reflexivity.
Qed.

(** X24.  [refreshPlaylists] clears the cache first; if its pass
    completes, the first page of every editable playlist of the listing
    has been fetched, and the pass reports that the cache was not used. *)
Theorem refreshPlaylists_fetches_every_playlist (env : Env) (w : World) :
  let run := refreshPlaylists env w in
  hd_error (eventsOf run) = Some (CacheWrite ClearCache) /\
  forall snapshot userPlaylists,
    outcomeOf run = Ok (Completed snapshot) ->
    libraryPlaylists env = Some userPlaylists ->
    cacheUsed (worldOf run) = false /\
    forall playlist,
      In playlist userPlaylists -> editable playlist = true ->
      In (Request (GetPlaylistTracks (playlist_id playlist) 0)) (eventsOf run).
Proof.
  intros run.
  set (cleared := setStorage (snd (PlaylistCache.clearCache (storage w))) w).
  assert (Hrun : run = (outcomeOf (loadPlaylists env cleared),
                        worldOf (loadPlaylists env cleared),
                        CacheWrite ClearCache :: eventsOf (loadPlaylists env cleared)))
    by apply refreshPlaylists_run.
  assert (Ho : outcomeOf run = outcomeOf (loadPlaylists env cleared))
    by (rewrite Hrun; reflexivity).
  assert (Hw : worldOf run = worldOf (loadPlaylists env cleared))
    by (rewrite Hrun; reflexivity).
  assert (He : eventsOf run = CacheWrite ClearCache :: eventsOf (loadPlaylists env cleared))
    by (rewrite Hrun; reflexivity).
  rewrite Ho, Hw, He. clear Hrun Ho Hw He.
  split; [reflexivity|].
  intros snapshot userPlaylists E Hlisting.
  assert (Hnone : forall t playlistId,
            fst (PlaylistCache.getCachedPlaylist t playlistId (storage cleared)) = None).
  { intros t playlistId. rewrite getCachedPlaylist_run. simpl.
    destruct (PlaylistCache.enabled _); reflexivity. }
  split.
  - pose proof (loadPlaylists_passTrace env cleared) as (_ & _ & Hr).
    rewrite Hlisting, E in Hr.
    destruct Hr as (w2 & ev2 & Hf & Ht & _ & _ & Hused & _).
    rewrite Hused, hitRows_none; [reflexivity|].
    intros p _. unfold cacheAnswer.
    destruct (JS.includesStr _ (playlist_id p)); [reflexivity|].
    destruct (PlaylistCache.enabled _); [|reflexivity].
    apply isSongInPlaylist_none.
    rewrite (getCachedPlaylist_ext _ _ _ _ (frame_cache Hf) (frame_settings Hf)).
    apply Hnone.
  - intros playlist Hin Hed. right.
    apply (@completed_pass_fetches env cleared snapshot userPlaylists playlist
             E Hlisting Hin Hed).
    right. right. apply Hnone.
Qed.

End PassTheorems.

Section PassWitnesses.

Import Modal.
Open Scope string_scope.
Open Scope list_scope.
Open Scope Z_scope.

(** The library lists "Gym", which does not hold the song, and the cache
    is empty: the pass shows the one row, unticked. *)
Lemma loadPlaylists_lists_editable_playlists_witness :
  playlists (worldOf (loadPlaylists
                        (calmEnv "i.song" [gymPlaylist] (fun _ => oneTrack))
                        (mounted emptyStorage [])))
  = [stateOf gymPlaylist false].
Proof.
  destruct (@loadPlaylists_lists_editable_playlists
              (calmEnv "i.song" [gymPlaylist] (fun _ => oneTrack))
              (mounted emptyStorage []) [] [gymPlaylist])
    as (Hperm & _); [vm_compute; reflexivity|reflexivity|].
  apply Permutation_length_1_inv, Permutation_sym. exact Hperm.
Defined.

(** The cache holds a fresh entry of "Gym" with the song among its
    tracks: the pass shows "Gym" ticked and reports the cache as used. *)
Lemma loadPlaylists_uses_fresh_cache_entries_witness :
  let run := loadPlaylists (calmEnv "i.abc" [gymPlaylist] (fun _ => oneTrack))
               (mounted (storageWith [gym 0] None) []) in
  In (stateOf gymPlaylist true) (playlists (worldOf run)) /\
  cacheUsed (worldOf run) = true.
Proof.
  intros run.
  destruct (@loadPlaylists_uses_fresh_cache_entries
              (calmEnv "i.abc" [gymPlaylist] (fun _ => oneTrack))
              (mounted (storageWith [gym 0] None) []) [gymPlaylist] gymPlaylist true)
    as (_ & Hrows).
  - intros n. reflexivity.
  - reflexivity.
  - simpl. auto.
  - reflexivity.
  - reflexivity.
  - simpl. intros [].
  - vm_compute. reflexivity.
  - apply (Hrows []). vm_compute. reflexivity.
Defined.

(** Caching is switched off: "Gym" is fetched although the cache holds
    an entry for it. *)
Lemma loadPlaylists_fetches_stale_playlists_witness :
  In (Request (GetPlaylistTracks "p.gym" 0))
     (eventsOf (loadPlaylists (calmEnv "i.abc" [gymPlaylist] (fun _ => oneTrack))
                  (mounted (storageWith [gym 0] (Some cachingOff)) []))).
Proof.
  apply (@loadPlaylists_fetches_stale_playlists
           (calmEnv "i.abc" [gymPlaylist] (fun _ => oneTrack))
           (mounted (storageWith [gym 0] (Some cachingOff)) []) [] [gymPlaylist] gymPlaylist).
  - vm_compute. reflexivity.
  - reflexivity.
  - simpl. auto.
  - reflexivity.
  - right. left. reflexivity.
Defined.

End PassWitnesses.

(* ------------------------------------------------------------------ *)
(** * A pass of the modal without the cache *)

Section SiblingPass.

Import Modal.
Open Scope string_scope.
Open Scope list_scope.
Open Scope Z_scope.

Variable env : Env.

Lemma calling_writeless (e : event) : calling e -> writeless e.
Proof. destruct e; simpl; intros H call; try contradiction; discriminate. Qed.

Lemma outside_writeless (e : event) : outside e -> writeless e.
Proof. destruct e; simpl; intros H call; try contradiction; discriminate. Qed.

Lemma frame_settled (P : event -> Prop) (w w1 w2 : World) (ev : list event) :
  frame env P w w1 ev ->
  storage w2 = storage w1 -> suspensions w2 = suspensions w1 ->
  aborted w2 = aborted w1 -> frame env P w w2 ev.
Proof.
  intros Hf Hs Ht Ha. rewrite <- (app_nil_r ev).
  eapply frame_trans; [exact Hf|apply frame_step; assumption].
Qed.

Lemma slice_skipn_by {A : Type} (l : list A) (i size : nat) :
  JS.slice l i (i + size) ++ skipn (i + size) l = skipn i l.
Proof.
  unfold JS.slice. replace (i + size - i)%nat with size by lia.
  rewrite Nat.add_comm, <- skipn_skipn. apply firstn_skipn.
Qed.

Lemma sibling_checkSong_step (playlistId playlistName : string) (w : World) :
  ends (PlaylistManagerModal.checkSongInPlaylist env playlistId playlistName) w
       (fun r w' ev =>
          r = Ok (existsb (isMatch (songId env))
                          (collected (playlistTracks env playlistId) 11 0 [])) /\
          sameRefs w w' /\ frame env (paging playlistId) w w' ev).
Proof.
  unfold PlaylistManagerModal.checkSongInPlaylist. apply ends_bind.
  eapply ends_weaken;
    [apply ends_conj; [apply fetchTracks_step|apply fetchTracks_ends]|].
  intros r w1 ev1 [(-> & _ & Hs & _) [_ Hf]].
  apply ends_ret. rewrite app_nil_r. unfold fetchedTracks.
  rewrite (@fetchAllTracks_collected env playlistId 0 [] w 11%nat) by lia.
  auto.
Qed.

Lemma sibling_checkBatch_step (batch : list Playlist) (w : World) :
  ends (PlaylistManagerModal.checkBatch env batch) w
       (fun r w' ev =>
          r = Ok (map (checkedRow env) batch) /\
          sameRefs w w' /\ frame env calling w w' ev /\
          (forall q, In (Request q) ev ->
             exists p offset, In p batch /\ q = GetPlaylistTracks (playlist_id p) offset)).
Proof.
  revert w. induction batch as [|playlist others IH]; intros w; simpl.
  - apply ends_ret. split; [reflexivity|]. split; [apply sameRefs_refl|].
    split; [apply frame_refl|intros q []].
  - apply ends_bind. eapply ends_weaken; [apply sibling_checkSong_step|].
    intros r w1 ev1 (-> & Hs1 & Hf1).
    apply ends_bind. eapply ends_weaken; [apply IH|].
    intros r2 w2 ev2 (-> & Hs2 & Hf2 & Hreq).
    apply ends_ret. rewrite app_nil_r.
    split; [reflexivity|]. split; [eapply sameRefs_trans; eauto|].
    split.
    + eapply frame_trans; [|exact Hf2].
      eapply frame_weaken; [|exact Hf1]. apply paging_calling.
    + intros q Hin. apply in_app_or in Hin. destruct Hin as [Hin|Hin].
      * pose proof (frame_events Hf1) as Hpg. rewrite Forall_forall in Hpg.
        specialize (Hpg _ Hin). destruct q; simpl in Hpg; try contradiction.
        subst. eauto.
      * destruct (Hreq q Hin) as (p & o & Hp & ->). eauto.
Qed.

Lemma sibling_runBatches_step (sortedPlaylists : list Playlist) (i : nat)
    (playlistStates : list PlaylistCheckState) (w : World) :
  ends (PlaylistManagerModal.runBatches env sortedPlaylists i playlistStates) w
       (fun r w' ev =>
          sameRefs w w' /\ frame env writeless w w' ev /\
          (PlaylistManagerModal.shouldBatch sortedPlaylists = false ->
           delays ev = 0%nat) /\
          (forall q, In (Request q) ev ->
             exists p offset,
               In p (skipn i sortedPlaylists) /\
               q = GetPlaylistTracks (playlist_id p) offset) /\
          match r with
          | Ok (Some states) =>
              states = playlistStates ++ map (checkedRow env) (skipn i sortedPlaylists)
          | Ok None => True
          | Throw => False
          end).
Proof.
  unfold ends.
  funelim (PlaylistManagerModal.runBatches env sortedPlaylists i playlistStates w).
  2: { split; [apply sameRefs_refl|]. split; [apply frame_refl|].
       split; [reflexivity|]. split; [intros q []|].
       rewrite skipn_all2 by (apply Nat.ltb_ge; assumption).
       rewrite app_nil_r; reflexivity. }
  destruct (aborted w) eqn:Hab.
  { split; [apply sameRefs_refl|].
    split; [split; simpl; auto; constructor; [intros c; discriminate|constructor]|].
    split; [reflexivity|]. split; [intros q [E|[]]; discriminate|exact I]. }
  set (size := PlaylistManagerModal.batchSize sortedPlaylists) in *.
  pose proof (sibling_checkBatch_step (JS.slice sortedPlaylists i (i + size)) w) as Hb.
  unfold ends in Hb.
  destruct (PlaylistManagerModal.checkBatch env _ w) as [[rb w1] ev1].
  destruct Hb as (-> & Hs1 & Hf1 & Hreq1).
  set (batchRows := map (checkedRow env) (JS.slice sortedPlaylists i (i + size))) in *.
  set (pause := if PlaylistManagerModal.shouldBatch sortedPlaylists
                   && (i + size <? List.length sortedPlaylists)%nat
                   && negb (aborted w1)
                then delay env 100 else ret tt).
  assert (Hp : ends pause w1 (fun _ w2 ev2 =>
                 sameRefs w1 w2 /\ frame env outside w1 w2 ev2 /\
                 (PlaylistManagerModal.shouldBatch sortedPlaylists = false ->
                  delays ev2 = 0%nat) /\
                 forall q, ~ In (Request q) ev2)).
  { subst pause.
    destruct (PlaylistManagerModal.shouldBatch sortedPlaylists); simpl.
    2: { unfold ends; simpl. split; [apply sameRefs_refl|].
         split; [apply frame_refl|]. split; [reflexivity|intros q []]. }
    destruct ((i + size <? List.length sortedPlaylists)%nat && negb (aborted w1)).
    - eapply ends_weaken; [apply ends_conj; [apply delay_step|apply delay_frame]|].
      intros ? ? ? [(_ & Hs & _ & Hno) [_ Hf]].
      split; [exact Hs|]. split; [exact Hf|]. split; [discriminate|exact Hno].
    - unfold ends; simpl. split; [apply sameRefs_refl|].
      split; [apply frame_refl|]. split; [reflexivity|intros q []]. }
  unfold ends in Hp. destruct (pause w1) as [[rp w2] ev2].
  destruct Hp as (Hs2 & Hf2 & Hd2 & Hno2).
  specialize (H (Ok batchRows, w1) ev1 (Ok batchRows) w1 batchRows (rp, w2) ev2 rp w2).
  destruct (PlaylistManagerModal.runBatches env sortedPlaylists (i + size)
              (playlistStates ++ batchRows) w2) as [[r w3] ev3].
  destruct H as (Hs3 & Hf3 & Hd3 & Hreq3 & Hr3).
  pose proof (slice_skipn_by sortedPlaylists i size) as Hcut.
  split; [eapply sameRefs_trans; [exact Hs1|eapply sameRefs_trans; eauto]|].
  split.
  { change (AbortCheck false :: ev1 ++ ev2 ++ ev3)
      with ([AbortCheck false] ++ ev1 ++ ev2 ++ ev3).
    eapply frame_trans;
      [split; simpl; auto; constructor; [intros c; discriminate|constructor]|].
    eapply frame_trans; [eapply frame_weaken; [|exact Hf1]; apply calling_writeless|].
    eapply frame_trans; [eapply frame_weaken; [|exact Hf2]; apply outside_writeless|].
    exact Hf3. }
  split.
  { intros Hoff.
    change (AbortCheck false :: ev1 ++ ev2 ++ ev3)
      with ([AbortCheck false] ++ ev1 ++ ev2 ++ ev3).
    rewrite !delays_app, (Hd2 Hoff), (Hd3 Hoff),
      (calling_delays (frame_events Hf1)).
    reflexivity. }
  split.
  { intros q [E|Hin]; [discriminate|].
    apply in_app_or in Hin. destruct Hin as [Hin|Hin].
    - destruct (Hreq1 q Hin) as (p & o & Hp & ->). exists p, o. split; [|reflexivity].
      rewrite <- Hcut. apply in_or_app. auto.
    - apply in_app_or in Hin. destruct Hin as [Hin|Hin]; [destruct (Hno2 _ Hin)|].
      destruct (Hreq3 q Hin) as (p & o & Hp & ->). exists p, o. split; [|reflexivity].
      rewrite <- Hcut. apply in_or_app. auto. }
  destruct r as [[states|]|]; try exact Hr3.
  subst states batchRows. rewrite <- app_assoc, <- map_app, Hcut. reflexivity.
Qed.

(** X29.  A pass of [loadPlaylists] in the modal without the
    cache.  It fails exactly when the playlist listing fails; it ends with
    [loading] reset, writes nothing to the cache, and leaves the rows as
    they were unless it completes.  When it completes, the rows are one
    row for each editable playlist of the listing, in the order of the
    sort by modification date (the playlists that hold the song are not
    moved to the front), each ticked exactly when a track fetched for the
    playlist matches the song.  With twenty editable playlists or fewer
    the pass never waits, and besides the listing it requests only pages
    of editable playlists. *)
Theorem sibling_loadPlaylists_rows (w : World) :
  let run := PlaylistManagerModal.loadPlaylists env w in
  let w' := worldOf run in
  (outcomeOf run = Ok PlaylistManagerModal.LoadFailed <-> libraryPlaylists env = None) /\
  loading w' = false /\
  (forall c, ~ In (CacheWrite c) (eventsOf run)) /\
  PlaylistCache.cacheItem (storage w') = PlaylistCache.cacheItem (storage w) /\
  (outcomeOf run <> Ok PlaylistManagerModal.LoadCompleted -> playlists w' = playlists w) /\
  forall userPlaylists,
    libraryPlaylists env = Some userPlaylists ->
    let sortedPlaylists := JS.sort byLastModifiedDate (filter editable userPlaylists) in
    (outcomeOf run = Ok PlaylistManagerModal.LoadCompleted ->
     playlists w' = map (checkedRow env) sortedPlaylists) /\
    ((List.length sortedPlaylists <= 20)%nat -> delays (eventsOf run) = 0%nat) /\
    (forall q, In (Request q) (eventsOf run) ->
       q = GetLibraryPlaylists \/
       exists p offset,
         In p sortedPlaylists /\ q = GetPlaylistTracks (playlist_id p) offset).
Proof.
  intros run w'.
  assert (H : ends (PlaylistManagerModal.loadPlaylists env) w (fun r w' ev =>
    (r = Ok PlaylistManagerModal.LoadFailed <-> libraryPlaylists env = None) /\
    loading w' = false /\
    frame env writeless w w' ev /\
    (r <> Ok PlaylistManagerModal.LoadCompleted -> playlists w' = playlists w) /\
    forall userPlaylists,
      libraryPlaylists env = Some userPlaylists ->
      let sortedPlaylists := JS.sort byLastModifiedDate (filter editable userPlaylists) in
      (r = Ok PlaylistManagerModal.LoadCompleted ->
       playlists w' = map (checkedRow env) sortedPlaylists) /\
      ((List.length sortedPlaylists <= 20)%nat -> delays ev = 0%nat) /\
      (forall q, In (Request q) ev ->
         q = GetLibraryPlaylists \/
         exists p offset,
           In p sortedPlaylists /\ q = GetPlaylistTracks (playlist_id p) offset))).
  { unfold PlaylistManagerModal.loadPlaylists.
    apply ends_tryFinally, ends_tryCatch.
    apply ends_bind, ends_modify. set (w0 := setLoading true w).
    apply ends_bind.
    eapply ends_weaken;
      [apply ends_conj; [apply (await_call env GetLibraryPlaylists)
                        |apply (@await_step env calling (Request GetLibraryPlaylists)
                                  w0 I I (fun _ => I))]|].
    intros r w1 ev1 [(-> & Hf1 & Hs1 & _ & Hq1) (_ & Hc1 & _)].
    assert (Hf01 : frame env writeless w w1 ev1).
    { change ev1 with ([] ++ ev1).
      eapply frame_trans; [apply (@frame_step env writeless w w0); reflexivity|].
      eapply frame_weaken; [|exact Hf1]. apply outside_writeless. }
    assert (Hd1 : delays ev1 = 0%nat) by (apply calling_delays, Hc1).
    destruct Hs1 as (Hrows1 & _). simpl in Hrows1.
    destruct (libraryPlaylists env) as [userPlaylists|] eqn:Hlisting.
    2: { unfold ends; simpl. rewrite ?app_nil_r.
         split; [split; reflexivity|]. split; [reflexivity|].
         split.
         { eapply frame_settled; [|reflexivity..].
           eapply frame_trans; [exact Hf01|].
           split; simpl; auto. constructor; [intros c; discriminate|constructor]. }
         split; [intros _; exact Hrows1|]. intros ? E. discriminate. }
    set (sortedPlaylists := JS.sort byLastModifiedDate (filter editable userPlaylists)).
    apply ends_bind, ends_gets. apply ends_bind, ends_emit.
    assert (Hcheck : frame env writeless w w1 (ev1 ++ [AbortCheck (aborted w1)])).
    { eapply frame_trans; [exact Hf01|].
      split; simpl; auto. constructor; [intros c; discriminate|constructor]. }
    assert (Hfirst : forall q, In (Request q) (ev1 ++ [AbortCheck (aborted w1)]) ->
                               q = GetLibraryPlaylists).
    { intros q Hin. apply in_app_or in Hin.
      destruct Hin as [Hin|[E|[]]]; [auto|discriminate]. }
    assert (Hd : delays (ev1 ++ [AbortCheck (aborted w1)]) = 0%nat).
    { rewrite delays_app, Hd1. reflexivity. }
    destruct (aborted w1) eqn:Hab.
    { unfold ends; simpl. rewrite ?app_nil_r.
      split; [split; discriminate|]. split; [reflexivity|].
      split.
      { eapply frame_settled; [exact Hcheck|reflexivity..]. }
      split; [intros _; exact Hrows1|].
      intros ? E. injection E as <-. fold sortedPlaylists.
      split; [discriminate|]. split; [intros _; exact Hd|].
      intros q Hin. left. auto. }
    apply ends_bind.
    eapply ends_weaken; [apply sibling_runBatches_step|].
    intros r w2 ev2 (Hs2 & Hf2 & Hd2 & Hreq2 & Hr2).
    assert (Hf02 : frame env writeless w w2
                     ((ev1 ++ [AbortCheck false]) ++ ev2)).
    { eapply frame_trans; [exact Hcheck|exact Hf2]. }
    assert (Hreqs : forall q, In (Request q) ((ev1 ++ [AbortCheck false]) ++ ev2) ->
              q = GetLibraryPlaylists \/
              exists p offset,
                In p sortedPlaylists /\ q = GetPlaylistTracks (playlist_id p) offset).
    { intros q Hin. apply in_app_or in Hin. destruct Hin as [Hin|Hin]; [left; auto|].
      right. exact (Hreq2 q Hin). }
    assert (Hdel : (List.length sortedPlaylists <= 20)%nat ->
                   delays ((ev1 ++ [AbortCheck false]) ++ ev2) = 0%nat).
    { intros Hle. rewrite delays_app, Hd, Hd2; [reflexivity|].
      unfold PlaylistManagerModal.shouldBatch. apply Nat.ltb_ge. exact Hle. }
    destruct Hs2 as (Hrows2 & _).
    destruct r as [[states|]|]; [| |contradiction].
    - simpl in Hr2. subst states.
      unfold ends; simpl. rewrite ?app_nil_r, <- ?app_assoc.
      rewrite <- ?app_assoc in Hf02, Hreqs, Hdel.
      split; [split; discriminate|]. split; [reflexivity|].
      split.
      { eapply frame_settled; [exact Hf02|reflexivity..]. }
      split; [intros Hne; contradiction Hne; reflexivity|].
      intros ? E. injection E as <-. fold sortedPlaylists.
      split; [intros _; reflexivity|]. split; [exact Hdel|exact Hreqs].
    - unfold ends; simpl. rewrite ?app_nil_r, <- ?app_assoc.
      rewrite <- ?app_assoc in Hf02, Hreqs, Hdel.
      split; [split; discriminate|]. split; [reflexivity|].
      split.
      { eapply frame_settled; [exact Hf02|reflexivity..]. }
      split; [intros _; rewrite Hrows2; exact Hrows1|].
      intros ? E. injection E as <-. fold sortedPlaylists.
      split; [discriminate|]. split; [exact Hdel|exact Hreqs]. }
  unfold ends in H. fold run in H. rewrite (run_eta run) in H.
  destruct H as (Hfail & Hload & Hf & Hkeep & Hrows).
  split; [exact Hfail|]. split; [exact Hload|].
  split.
  { intros c Hin. pose proof (frame_events Hf) as Hall.
    rewrite Forall_forall in Hall. exact (Hall _ Hin c eq_refl). }
  split; [exact (frame_cache Hf)|]. split; [exact Hkeep|exact Hrows].
Qed.

End SiblingPass.

(* ------------------------------------------------------------------ *)
(** * Closing the modal during a pass *)

Section Closing.

Import Modal.
Open Scope string_scope.
Open Scope list_scope.
Open Scope Z_scope.

Variable env : Env.
Variable start : nat.

Lemma await_closedSince (e : event) (w : World) :
  closedSince env start w ->
  ends (await env e) w (fun r w' _ => r = Ok tt /\ closedSince env start w').
Proof.
  intros [Hle Hiff]. unfold ends, await, closedSince. simpl.
  split; [reflexivity|]. split; [lia|].
  destruct (closePressedAt env) as [k|].
  - destruct (Nat.eqb_spec k (S (suspensions w))) as [->|Hne].
    + rewrite orb_true_r. split; [|reflexivity].
      intros _. exists (S (suspensions w)). split; [reflexivity|lia].
    + rewrite orb_false_r, Hiff. split.
      * intros (n & E & Hn). exists n. split; [exact E|lia].
      * intros (n & E & Hn). exists n. split; [exact E|].
        injection E as <-. lia.
  - rewrite orb_false_r, Hiff. split; intros (n & E & _); discriminate.
Qed.

Lemma v3_tracks_closedSince (playlistId : string) (offset : Z) (w : World) :
  closedSince env start w ->
  ends (v3_tracks env playlistId offset) w (fun _ w' _ => closedSince env start w').
Proof.
  intros Hc. unfold v3_tracks. apply ends_bind.
  eapply ends_weaken; [apply await_closedSince, Hc|].
  intros r w' ev [-> Hc']. unfold ends.
  destruct (playlistTracks env playlistId offset); exact Hc'.
Qed.

Lemma fetchAllTracks_closedSince (playlistId : string) (offset : Z)
    (allTracks : list Track) (w : World) :
  closedSince env start w ->
  closedSince env start (snd (fst (fetchAllTracks env playlistId offset allTracks w))).
Proof.
  funelim (fetchAllTracks env playlistId offset allTracks w); intros Hc.
  all: pose proof (v3_tracks_closedSince playlistId offset Hc) as Hv; unfold ends in Hv.
  all: match goal with
       | E : v3_tracks _ _ _ _ = _ |- _ => rewrite E in Hv
       end; cbn [fst snd]; auto.
  destruct (Z.of_nat (List.length tracks) =? limit); cbn [fst snd]; auto.
  specialize (H Hv).
  destruct (fetchAllTracks env playlistId (offset + limit) (allTracks ++ tracks) w1)
    as [[all w2] ev2].
  exact H.
Qed.

Lemma checkSong_closedSince (playlistId playlistName : string) (searchIds : list string)
    (w : World) :
  closedSince env start w ->
  ends (checkSongInPlaylistWithCache env playlistId playlistName searchIds) w
       (fun r w' _ => (exists result, r = Ok result) /\ closedSince env start w').
Proof.
  intros Hc. pose proof (fetchAllTracks_closedSince playlistId 0 [] Hc) as Hf.
  unfold ends, checkSongInPlaylistWithCache, bind, fetchTracks.
  destruct (fetchAllTracks env playlistId 0 [] w) as [[all w1] ev1]. simpl. eauto.
Qed.

Lemma checkBatch_closedSince (batch : list Playlist) (searchIds : list string)
    (playlistsToCache : list PlaylistCache.CachedPlaylist) (w : World) :
  closedSince env start w ->
  ends (checkBatch env batch searchIds playlistsToCache) w
       (fun _ w' _ => closedSince env start w').
Proof.
  revert playlistsToCache w.
  induction batch as [|playlist others IH]; intros playlistsToCache w Hc; simpl.
  - apply ends_ret. exact Hc.
  - apply ends_bind. eapply ends_weaken; [apply checkSong_closedSince, Hc|].
    intros r w1 ev1 [(result & ->) Hc1]. apply ends_bind.
    eapply ends_weaken; [apply IH, Hc1|].
    intros [others'|] w2 ev2 Hc2; [apply ends_ret|]; exact Hc2.
Qed.

Lemma runBatches_closedSince (playlistsToFetch : list Playlist) (searchIds : list string)
    (i : nat) (playlistStates : list PlaylistCheckState)
    (playlistsToCache : list PlaylistCache.CachedPlaylist) (w : World) :
  closedSince env start w ->
  ends (runBatches env playlistsToFetch searchIds i playlistStates playlistsToCache) w
       (fun r w' _ => closedSince env start w' /\ (r = Ok None -> aborted w' = true)).
Proof.
  unfold ends.
  funelim (runBatches env playlistsToFetch searchIds i playlistStates playlistsToCache w);
    intros Hc.
  2: { split; [exact Hc|discriminate]. }
  destruct (aborted w) eqn:Hab; [split; auto|].
  pose proof (@checkBatch_closedSince (JS.slice playlistsToFetch i (i + batchSize))
                searchIds playlistsToCache w Hc) as Hb.
  unfold ends in Hb.
  destruct (checkBatch env _ searchIds playlistsToCache w)
    as [[[[batchRows toCache]|] w1] ev1].
  2: { split; [exact Hb|discriminate]. }
  set (pause := if (i + batchSize <? List.length playlistsToFetch)%nat
                   && negb (aborted w1)
                then delay env 100 else ret tt).
  assert (Hp : ends pause w1 (fun _ w2 _ => closedSince env start w2)).
  { subst pause.
    destruct ((i + batchSize <? List.length playlistsToFetch)%nat && negb (aborted w1)).
    - eapply ends_weaken; [apply await_closedSince, Hb|]. intros r w2 ev2 [_ H2]. exact H2.
    - apply ends_ret. exact Hb. }
  unfold ends in Hp. destruct (pause w1) as [[rp w2] ev2].
  specialize (H (Ok (batchRows, toCache), w1) ev1 (Ok (batchRows, toCache)) w1
                (batchRows, toCache) batchRows toCache (rp, w2) ev2 rp w2).
  destruct (runBatches env playlistsToFetch searchIds (i + batchSize)
              (playlistStates ++ batchRows) toCache w2) as [[r w3] ev3].
  apply H. exact Hp.
Qed.

Lemma findLibraryId_closedSince (catalogId : string) (w : World) :
  closedSince env start w ->
  ends (findLibraryId env catalogId) w
       (fun r w' _ => (exists found, r = Ok found) /\ closedSince env start w').
Proof.
  intros Hc. unfold findLibraryId. apply ends_bind.
  eapply ends_weaken; [apply await_closedSince, Hc|].
  intros r w' ev [-> Hc'].
  destruct (librarySongs env catalogId) as [found|];
    [destruct (JS.truthy found)|]; unfold ends; simpl; eauto.
Qed.

Lemma loadPlaylists_closedSince (w : World) :
  closedSince env start w ->
  ends (loadPlaylists env) w
       (fun r w' _ => closedSince env start w' /\ (r = Ok Cancelled -> aborted w' = true)).
Proof.
  intros Hc. unfold loadPlaylists. apply ends_tryFinally.
  apply ends_weaken with (post := fun r w1 _ =>
    closedSince env start w1 /\ (r = Ok Cancelled -> aborted w1 = true)).
  2: { intros r w1 ev1 [Hc1 Hr1]. apply ends_modify. auto. }
  apply ends_tryCatch.
  apply ends_bind, ends_modify.
  apply ends_bind, ends_readCache; [apply getSettings_reads|].
  set (w0 := setLoading true w).
  assert (Hc0 : closedSince env start w0) by exact Hc.
  apply ends_bind.
  apply ends_weaken with (post := fun r w1 _ =>
    (exists rest, r = Ok (songId env :: rest)) /\ closedSince env start w1).
  { destruct (JS.startsWith (songId env) "i."); simpl.
    - apply ends_ret. eauto.
    - apply ends_bind. eapply ends_weaken; [apply findLibraryId_closedSince, Hc0|].
      intros r w1 ev1 [(found & ->) Hc1].
      destruct found; apply ends_ret; eauto. }
  intros r w1 ev1 [(rest & ->) Hc1].
  apply ends_bind. eapply ends_weaken; [apply await_closedSince, Hc1|].
  intros r w2 ev2 [-> Hc2].
  destruct (libraryPlaylists env) as [userPlaylists|].
  2: { unfold ends; simpl. split; [exact Hc2|discriminate]. }
  apply ends_bind, ends_gets. apply ends_bind, ends_emit.
  destruct (aborted w2) eqn:Hab.
  { apply ends_ret. auto. }
  apply ends_bind, ends_readCache; [apply getModifiedPlaylists_reads|].
  apply ends_bind. unfold ends at 1. rewrite classify_spec. cbv beta iota.
  cbn [fst snd app Nat.add].
  apply ends_bind, ends_modify.
  match goal with
  | |- context [setCacheUsed ?b w2] => set (w2' := setCacheUsed b w2)
  end.
  assert (Hc2' : closedSince env start w2') by exact Hc2.
  apply ends_bind.
  apply ends_weaken with (post := fun r w3 _ =>
    closedSince env start w3 /\ r <> Throw /\ (r = Ok None -> aborted w3 = true)).
  { match goal with
    | |- context [if ?c then _ else _] => destruct c
    end.
    2: { apply ends_ret. split; [exact Hc2'|]. split; discriminate. }
    apply ends_bind.
    eapply ends_weaken;
      [apply ends_conj; [apply runBatches_closedSince, Hc2'|apply runBatches_ends]|].
    intros [[[states toCache]|]|] w3 ev3 [[Hc3 Hr3] [_ Hne]]; [| |contradiction].
    2: { apply ends_ret. split; [exact Hc3|]. split; [discriminate|auto]. }
    apply ends_bind.
    match goal with
    | |- context [if ?c then _ else _] => destruct c
    end.
    - apply ends_bind. apply ends_gets. apply ends_writeCache. apply ends_ret.
      split; [exact Hc3|]. split; discriminate.
    - apply ends_ret. apply ends_ret. split; [exact Hc3|]. split; discriminate. }
  intros [[states|]|] w3 ev3 (Hc3 & Hne & Hr3); [| |destruct (Hne eq_refl)].
  2: { apply ends_ret. auto. }
  apply ends_bind.
  apply ends_weaken with (post := fun r w4 _ => r = Ok tt /\ closedSince env start w4).
  { match goal with
    | |- context [if ?c then _ else _] => destruct c
    end.
    - apply ends_writeCache. auto.
    - apply ends_ret. auto. }
  intros r w4 ev4 [-> Hc4].
  apply ends_bind, ends_modify. apply ends_ret.
  split; [exact Hc4|discriminate].
Qed.

End Closing.

Section ClosingTheorems.

Import Modal.
Open Scope string_scope.
Open Scope list_scope.
Open Scope Z_scope.

(** X25.  A pass started by mounting the modal resets the abort flag
    first, whatever an earlier use has left in it: at its end the flag is
    set exactly when the user has closed the modal during one of its
    suspensions, the pass is cancelled only in that case, and never when
    the user does not close the modal. *)
Theorem onMounted_cancelled_only_when_closed (env : Env) (w : World) :
  let run := onMounted env w in
  let closed :=
    exists n, closePressedAt env = Some n /\
              (suspensions w < n <= suspensions (worldOf run))%nat in
  (aborted (worldOf run) = true <-> closed) /\
  (outcomeOf run = Ok Cancelled -> closed) /\
  (closePressedAt env = None -> outcomeOf run <> Ok Cancelled).
Proof.
  intros run closed.
  assert (H : ends (onMounted env) w (fun r w' _ =>
            closedSince env (suspensions w) w' /\ (r = Ok Cancelled -> aborted w' = true))).
  { unfold onMounted. apply ends_bind, ends_modify.
    eapply ends_weaken;
      [apply loadPlaylists_closedSince with (start := suspensions w)|].
    - split; [simpl; lia|]. simpl. split; [discriminate|].
      intros (n & _ & Hn). lia.
    - intros r w' ev H. exact H. }
  unfold ends in H. fold run in H. rewrite (run_eta run) in H.
  destruct H as [[_ Hiff] Hr].
  split; [exact Hiff|]. split.
  - intros E. apply Hiff, Hr, E.
  - intros Hnone E. apply Hr, Hiff in E. destruct E as (n & E & _). congruence.
Qed.

End ClosingTheorems.

(* ------------------------------------------------------------------ *)
(** * Changes and the next pass *)

Section NextPass.

Import Modal.
Open Scope string_scope.
Open Scope list_scope.
Open Scope Z_scope.

Lemma onMounted_pass (env : Env) (w : World) :
  onMounted env w = loadPlaylists env (setAborted false w).
Proof.
  unfold onMounted, bind, modify.
  destruct (loadPlaylists env (setAborted false w)) as [[r w'] ev]. reflexivity.
Qed.

(** X26.  What the Modified-Set is for.  [applyChanges] has applied
    every change, with a persisted Modified-Set that was missing or
    parsed; the modal is then opened again on the storage it left, with
    the library as it is by then, and nobody else marks playlists
    meanwhile.  If the pass of the new modal completes, then every
    playlist that was changed and is still an editable playlist of the
    listing was in the Modified-Set the pass read, its first page has
    been fetched again, its row shows what the fetch finds and not what
    the cache holds, and the Modified-Set is empty again. *)
Theorem applied_changes_are_fetched_again (before env : Env) (w reopened : World)
    (row : PlaylistCheckState) (snapshot : list string)
    (userPlaylists : list Playlist) (playlist : Playlist) :
  let applied := applyChanges before w in
  let next := onMounted env reopened in
  (forall n, concurrentMark env n = None) ->
  markable (PlaylistCache.modifiedItem (storage w)) ->
  outcomeOf applied = Ok Applied ->
  In row (playlists w) -> changed row = true ->
  storage reopened = storage (worldOf applied) ->
  outcomeOf next = Ok (Completed snapshot) ->
  libraryPlaylists env = Some userPlaylists ->
  In playlist userPlaylists -> editable playlist = true ->
  playlist_id playlist = id row ->
  In (id row) snapshot /\
  In (Request (GetPlaylistTracks (id row) 0)) (eventsOf next) /\
  In (fetchedRow env (searchIdsOf env) playlist) (playlists (worldOf next)) /\
  PlaylistCache.modifiedItem (storage (worldOf next)) = None.
Proof.
  intros applied next Hcalm Hm Happlied Hrow Hch Hsame E Hlisting Hin Hed Hid.
  pose proof (applyChanges_applyEnds before w) as (_ & _ & _ & _ & Hr).
  fold applied in Hr. rewrite Happlied in Hr. destruct Hr as (_ & _ & _ & Hmarks).
  specialize (Hmarks Hm row Hrow Hch). rewrite <- Hsame in Hmarks.
  subst next. rewrite onMounted_pass in *.
  set (w0 := setAborted false reopened) in *.
  change (storage reopened) with (storage w0) in Hmarks.
  pose proof (loadPlaylists_passEnds env w0) as (_ & _ & _ & Hends).
  rewrite E in Hends. destruct Hends as (_ & _ & Hsnap & Hclear & _).
  specialize (Hsnap Hcalm).
  assert (Hs : In (id row) snapshot) by (rewrite Hsnap; exact Hmarks).
  split; [exact Hs|]. split.
  { rewrite <- Hid. rewrite <- Hid in Hs.
    apply (@completed_pass_fetches env w0 snapshot userPlaylists playlist
             E Hlisting Hin Hed).
    left. exact Hs. }
  split.
  2: { apply Hclear. intros ->. destruct Hs. }
  pose proof (loadPlaylists_passTrace env w0) as (_ & _ & Hr).
  rewrite Hlisting, E in Hr.
  destruct Hr as (w2 & ev2 & _ & _ & _ & Hsnap2 & _ & _ & Hrows & _).
  rewrite Hrows. apply sort_In, in_or_app. right. apply in_map.
  apply misses_In. split; [apply sort_In, filter_In; auto|].
  unfold cacheAnswer. rewrite <- Hsnap2, Hid.
  destruct (JS.includesStr snapshot (id row)) eqn:Emod; [reflexivity|].
  exfalso. apply includesStr_In in Hs. congruence.
Qed.

End NextPass.

Section NextPassWitnesses.

Import Modal.
Open Scope string_scope.
Open Scope list_scope.
Open Scope Z_scope.

(** The song is added to "Gym", which was empty; when the modal is
    opened again the library serves "Gym" with the song in it: "Gym" is
    fetched, and its row is ticked. *)
Lemma applied_changes_are_fetched_again_witness :
  let applied :=
    applyChanges (calmEnv "i.song" [gymPlaylist] (fun _ => []))
                 (mounted emptyStorage [ticked "p.gym" "Gym"]) in
  let next :=
    onMounted (calmEnv "i.song" [gymPlaylist] (fun _ => [libraryTrack "song"]))
              (mounted (storage (worldOf applied)) []) in
  In (Request (GetPlaylistTracks "p.gym" 0)) (eventsOf next) /\
  In (stateOf gymPlaylist true) (playlists (worldOf next)).
Proof.
  intros applied next.
  destruct (@applied_changes_are_fetched_again
              (calmEnv "i.song" [gymPlaylist] (fun _ => []))
              (calmEnv "i.song" [gymPlaylist] (fun _ => [libraryTrack "song"]))
              (mounted emptyStorage [ticked "p.gym" "Gym"])
              (mounted (storage (worldOf applied)) [])
              (ticked "p.gym" "Gym") ["p.gym"] [gymPlaylist] gymPlaylist)
    as (_ & Hfetch & Hrow & _).
  - intros n. reflexivity.
  - exact I.
  - vm_compute. reflexivity.
  - simpl. auto.
  - reflexivity.
  - reflexivity.
  - vm_compute. reflexivity.
  - reflexivity.
  - simpl. auto.
  - reflexivity.
  - reflexivity.
  - split; [exact Hfetch|exact Hrow].
Defined.

End NextPassWitnesses.

Section CachedPass.

Import Modal.
Open Scope string_scope.
Open Scope list_scope.
Open Scope Z_scope.

Lemma misses_all (answer : Playlist -> option bool) (l : list Playlist) :
  (forall p, In p l -> answer p = None) -> misses answer l = l.
Proof.
  induction l as [|p rest IH]; intros Hall; [reflexivity|].
  unfold misses. cbn [filter]. rewrite (Hall p) by (simpl; auto).
  f_equal. apply IH. intros q Hq. apply Hall. simpl. auto.
Qed.

Lemma answered_all (answer : Playlist -> option bool) (verdict : Playlist -> bool)
    (l : list Playlist) :
  (forall p, In p l -> answer p = Some (verdict p)) ->
  hitRows answer l = map (fun p => stateOf p (verdict p)) l /\ misses answer l = [].
Proof.
  induction l as [|p rest IH]; intros Hall; [split; reflexivity|].
  destruct IH as [Hh Hm]; [intros q Hq; apply Hall; simpl; auto|].
  unfold hitRows, misses. cbn [flat_map filter map].
  rewrite (Hall p) by (simpl; auto). fold (hitRows answer rest). fold (misses answer rest).
  rewrite Hh, Hm. split; reflexivity.
Qed.

(** A playlist that the cache reports as holding the song is one in which
    a fetch finds the song. *)
Lemma includesStr_foundIn (env : Env) (playlistId : string) :
  JS.includesStr (fetchedIds env playlistId) (songId env) = true ->
  foundIn env (searchIdsOf env) playlistId = true.
Proof.
  intros Hin. apply includesStr_In in Hin. unfold foundIn.
  destruct (searchIdsOf_first env) as [rest ->]. simpl.
  apply orb_true_iff. left. apply existsb_exists.
  exists (songId env). split; [exact Hin|].
  unfold idMatches. rewrite String.eqb_refl. reflexivity.
Qed.

(** X27.  What the cache is for.  [refreshPlaylists] has completed
    with caching enabled, and nobody else marks playlists; the modal is
    then opened again on the storage it left, and its listing arrives
    within the expiration time of the refresh.  The new pass fetches the
    tracks of no playlist.  If it completes, it has read an empty
    Modified-Set, it reports the cache as used when there is an editable
    playlist, and its rows are one row for each editable playlist of the
    listing, ticked exactly when the id of the song itself is among the
    ids of the tracks fetched by the refresh: a playlist ticked this way
    is one in which the refresh had found the song. *)
Theorem pass_after_refresh_is_answered_by_cache (env : Env) (w reopened : World)
    (snapshot : list string) (userPlaylists : list Playlist) :
  let refreshed := refreshPlaylists env w in
  let next := onMounted env reopened in
  let settings := fst (PlaylistCache.getSettings (storage w)) in
  let cached := fun playlist =>
    JS.includesStr (fetchedIds env (playlist_id playlist)) (songId env) in
  (forall n, concurrentMark env n = None) ->
  PlaylistCache.enabled settings = true ->
  outcomeOf refreshed = Ok (Completed snapshot) ->
  libraryPlaylists env = Some userPlaylists ->
  storage reopened = storage (worldOf refreshed) ->
  clock env (listedAt env reopened) - clock env (suspensions (worldOf refreshed))
    <= PlaylistCache.expirationMinutes settings * 60 * 1000 ->
  (forall playlistId offset,
     ~ In (Request (GetPlaylistTracks playlistId offset)) (eventsOf next)) /\
  (forall modifiedPlaylistIds,
     outcomeOf next = Ok (Completed modifiedPlaylistIds) ->
     modifiedPlaylistIds = [] /\
     Permutation (playlists (worldOf next))
                 (map (fun playlist => stateOf playlist (cached playlist))
                      (filter editable userPlaylists)) /\
     cacheUsed (worldOf next)
     = (0 <? List.length (filter editable userPlaylists))%nat) /\
  (forall playlist,
     cached playlist = true ->
     foundIn env (searchIdsOf env) (playlist_id playlist) = true).
Proof.
  intros refreshed next settings cached Hcalm Hon E Hlisting Hsame Hfresh.
  subst refreshed. rewrite refreshPlaylists_run in *.
  set (cleared := setStorage (snd (PlaylistCache.clearCache (storage w))) w) in *.
  unfold outcomeOf, worldOf in E, Hsame, Hfresh. cbn [fst snd] in E, Hsame, Hfresh.
  fold (outcomeOf (loadPlaylists env cleared)) in E.
  fold (worldOf (loadPlaylists env cleared)) in Hsame, Hfresh.
  set (w1 := worldOf (loadPlaylists env cleared)) in *.
  set (sorted := JS.sort byLastModifiedDate (filter editable userPlaylists)).
  (* what the refresh has left *)
  assert (Hleft :
    (forall p, In p sorted ->
       exists entry,
         storedEntry (storage w1) (playlist_id p) = Some entry /\
         PlaylistCache.tracks entry = fetchedIds env (playlist_id p) /\
         PlaylistCache.cachedAt entry = clock env (suspensions w1)) /\
    fst (PlaylistCache.getModifiedPlaylists (storage w1)) = [] /\
    fst (PlaylistCache.getSettings (storage w1)) = settings).
  { pose proof (loadPlaylists_passTrace env cleared) as (_ & _ & Hr).
    rewrite Hlisting, E in Hr.
    destruct Hr as (w2 & ev2 & Hf & _ & _ & _ & _ & _ & _ & Hheld & Hm).
    fold sorted in Hheld.
    rewrite misses_all in Hheld
      by (intros p _; apply cleared_answers_none; rewrite (frame_cache Hf); reflexivity).
    split; [|split; [apply Hm, Hcalm|]].
    - apply Hheld.
      replace (fst (PlaylistCache.getSettings (storage cleared))) with settings
        by (apply getSettings_ext; reflexivity).
      exact Hon.
    - pose proof (loadPlaylists_passEnds env cleared) as (_ & Hs & _).
      apply getSettings_ext. exact Hs. }
  destruct Hleft as (Hstored & Hmod & Hsettings).
  (* the pass of the new modal *)
  subst next. rewrite onMounted_pass.
  set (w0 := setAborted false reopened).
  pose proof (loadPlaylists_passTrace env w0) as (_ & _ & Hr).
  rewrite Hlisting in Hr. destruct Hr as (w2 & ev2 & Hf & Ht & Hreq & Hr).
  pose proof (frame_storage Hf Hcalm) as Hst.
  change (storage w0) with (storage reopened) in Hst, Hreq, Hr.
  rewrite Hst, Hsame, Hmod, Ht, Hsettings in Hreq, Hr.
  change (listedAt env w0) with (listedAt env reopened) in Hreq, Hr.
  fold sorted in Hreq, Hr.
  match type of Hreq with
  | context [misses ?a _] => set (answer := a) in *
  end.
  assert (Hans : forall p, In p sorted -> answer p = Some (cached p)).
  { intros p Hp. subst answer. unfold cacheAnswer. simpl. rewrite Hon.
    destruct (Hstored p Hp) as (entry & He & Htr & Hat).
    unfold PlaylistCache.isSongInPlaylist, PlaylistCache.bind.
    assert (Hget : fst (PlaylistCache.getCachedPlaylist
                          (clock env (listedAt env reopened)) (playlist_id p)
                          (storage w1)) = Some entry)
      by (apply getCachedPlaylist_returns; rewrite Hsettings, Hat; auto).
    destruct (PlaylistCache.getCachedPlaylist _ (playlist_id p) (storage w1))
      as [found ls'].
    simpl in Hget. subst found. simpl. rewrite Htr. reflexivity. }
  destruct (answered_all answer cached sorted Hans) as [Hhits Hmisses].
  split; [|split; [|intros playlist; apply includesStr_foundIn]].
  - intros playlistId offset Hin.
    destruct (Hreq _ Hin) as [[Hl|Hl]|(p & o & Hp & _)]; try discriminate.
    rewrite Hmisses in Hp. destruct Hp.
  - intros ids E2. rewrite E2 in Hr.
    destruct Hr as (Hids & Hused & _ & Hrows & _).
    split; [exact Hids|]. split.
    + rewrite Hrows, Hhits, Hmisses. simpl. rewrite app_nil_r.
      etransitivity; [apply sort_Permutation|].
      apply Permutation_map, sort_Permutation.
    + rewrite Hused, Hhits, length_map. unfold sorted.
      rewrite (Permutation_length (sort_Permutation byLastModifiedDate _)).
      reflexivity.
Qed.

End CachedPass.

Section CachedPassWitnesses.

Import Modal.
Open Scope string_scope.
Open Scope list_scope.
Open Scope Z_scope.

(** "Gym" holds the song; the modal is refreshed and then mounted
    again, one second later: "Gym" is not fetched, and its row is ticked. *)
Lemma pass_after_refresh_is_answered_by_cache_witness :
  let refreshed :=
    refreshPlaylists (calmEnv "i.777" [gymPlaylist] (fun _ => oneTrack))
                     (mounted emptyStorage []) in
  let next :=
    onMounted (calmEnv "i.777" [gymPlaylist] (fun _ => oneTrack)) (worldOf refreshed) in
  (forall offset, ~ In (Request (GetPlaylistTracks "p.gym" offset)) (eventsOf next)) /\
  playlists (worldOf next) = [stateOf gymPlaylist true].
Proof.
  intros refreshed next.
  destruct (@pass_after_refresh_is_answered_by_cache
              (calmEnv "i.777" [gymPlaylist] (fun _ => oneTrack))
              (mounted emptyStorage []) (worldOf refreshed) [] [gymPlaylist])
    as (Hnone & Hrows & _).
  - intros n. reflexivity.
  - reflexivity.
  - vm_compute. reflexivity.
  - reflexivity.
  - reflexivity.
  - vm_compute. discriminate.
  - split; [apply Hnone|].
    destruct (Hrows []) as (_ & Hperm & _); [vm_compute; reflexivity|].
    apply Permutation_length_1_inv, Permutation_sym. exact Hperm.
Defined.

End CachedPassWitnesses.

(* ------------------------------------------------------------------ *)
(** * Opening the modal *)

Section PluginProperties.

Import Plugin.
Open Scope string_scope.
Open Scope list_scope.

Lemma falsy_empty (s : string) : JS.truthy s = false -> s = "".
Proof.
  unfold JS.truthy. intros H. apply negb_false_iff in H. apply String.eqb_eq in H. exact H.
Qed.

Lemma first_truthy (l : list string) :
  match find JS.truthy l with
  | Some s => fold_right JS.orElse "" l = s /\ JS.truthy s = true
  | None => fold_right JS.orElse "" l = ""
  end.
Proof.
  induction l as [|a rest IH]; [reflexivity|].
  cbn [find fold_right]. unfold JS.orElse at 1 3.
  destruct (JS.truthy a) eqn:E; [auto|exact IH].
Qed.

Lemma orElse_assoc (a b c : string) :
  JS.orElse (JS.orElse a b) c = JS.orElse a (JS.orElse b c).
Proof.
  unfold JS.orElse. destruct (JS.truthy a) eqn:Ea; [rewrite Ea; reflexivity|].
  reflexivity.
Qed.

Lemma orElse_empty (a : string) : JS.orElse a "" = a.
Proof.
  unfold JS.orElse. destruct (JS.truthy a) eqn:Ea; [reflexivity|].
  symmetry. apply falsy_empty, Ea.
Qed.

(** One reassignment of [songId]: [if (!songId) songId = next]. *)
Lemma reassigned (songId next : string) :
  (if negb (JS.truthy songId) then next else songId) = JS.orElse songId next.
Proof. unfold JS.orElse. destruct (JS.truthy songId); reflexivity. Qed.

(** One reassignment behind a test for an object:
    [if (!songId && o) songId = next(o)]. *)
Lemma reassigned_from {A : Type} (songId : string) (o : option A) (next : A -> string) :
  (if negb (JS.truthy songId)
   then match o with Some a => next a | None => songId end
   else songId)
  = JS.orElse songId (text next o).
Proof.
  unfold JS.orElse. destruct (JS.truthy songId) eqn:E; simpl; [reflexivity|].
  destruct o; [reflexivity|]. apply falsy_empty, E.
Qed.

Lemma text_orElse {A : Type} (f g : A -> string) (o : option A) :
  text (fun a => JS.orElse (f a) (g a)) o = JS.orElse (text f o) (text g o).
Proof. destruct o; reflexivity. Qed.

Lemma text_chained {A B : Type} (f : A -> option B) (g : B -> string) (o : option A) :
  text (fun a => text g (f a)) o = text g (chain f o).
Proof. destruct o; reflexivity. Qed.

Lemma chain_chained {A B C : Type} (f : A -> option B) (g : B -> option C)
    (o : option A) :
  chain (fun a => chain g (f a)) o = chain g (chain f o).
Proof. destruct o; reflexivity. Qed.

Lemma orElse_truthy (a b : string) : JS.truthy b = true -> JS.truthy (JS.orElse a b) = true.
Proof. unfold JS.orElse. intros H. destruct (JS.truthy a) eqn:E; assumption. Qed.

Lemma openPlaylistManager_run (item : Item) :
  exists songTitle songArtist songAlbum artworkUrl,
    JS.truthy songTitle = true /\ JS.truthy songArtist = true /\
    openPlaylistManager item =
      let songId := fold_right JS.orElse "" (idPlaces item) in
      if negb (JS.truthy songId)
      then Alerted "Unable to identify the song. Please try again or use window.openPlaylistManager('songId', 'title', 'artist') in console."
      else openPlaylistManagerModal songId songTitle songArtist songAlbum artworkUrl.
Proof.
  unfold openPlaylistManager. cbv zeta.
  rewrite !reassigned_from, !reassigned.
  rewrite !text_orElse. rewrite !text_chained. rewrite !orElse_assoc.
  rewrite ?chain_chained.
  unfold idPlaces. cbn [fold_right].
  rewrite (orElse_empty
             (text params_catalogId
                   (chain attributes_playParams
                          (chain wrapped_attributes (item_rawItem item))))).
  do 4 eexists. split; [|split; [|reflexivity]].
  - repeat apply orElse_truthy. reflexivity.
  - repeat apply orElse_truthy. reflexivity.
Qed.

(** X28.  [openPlaylistManager] opens the modal for the first
    non-empty id among the places of the item it looks at, in the order in
    which it tries them; when all are empty it shows the alert that the
    song cannot be identified, and when that first id is the text
    "undefined" or "null" [openPlaylistManagerModal] shows the alert of an
    invalid id.  The modal is never opened with an empty id, title or
    artist. *)
Theorem openPlaylistManager_takes_first_id (item : Item) :
  match find JS.truthy (idPlaces item) with
  | None =>
      openPlaylistManager item
      = Alerted "Unable to identify the song. Please try again or use window.openPlaylistManager('songId', 'title', 'artist') in console."
  | Some first =>
      if String.eqb first "undefined" || String.eqb first "null"
      then openPlaylistManager item = Alerted "Invalid song ID provided."
      else exists props,
             openPlaylistManager item = Opened props /\
             songId props = first /\ first <> "" /\
             songTitle props <> "" /\ songArtist props <> ""
  end.
Proof.
  destruct (openPlaylistManager_run item)
    as (title & artist & album & artwork & Ht & Ha & ->).
  cbv zeta. pose proof (first_truthy (idPlaces item)) as Hf.
  destruct (find JS.truthy (idPlaces item)) as [first|].
  - destruct Hf as [-> Hyes]. rewrite Hyes. simpl.
    unfold openPlaylistManagerModal. rewrite Hyes. simpl.
    destruct (String.eqb first "undefined" || String.eqb first "null");
      [reflexivity|].
    eexists. split; [reflexivity|]. simpl. split; [reflexivity|].
    assert (Hne : forall s, JS.truthy s = true -> s <> "").
    { intros s Hs ->. discriminate. }
    auto.
  - rewrite Hf. reflexivity.
Qed.

End PluginProperties.
